(** * gowap: the fingerprint evaluation engine of [pkg/core/core.go]

    A shallow embedding of the pattern compiler, the matchers, the
    detection set and the post-processing rules, with the properties
    of the engine stated over it.

    Go strings are byte strings: [string] (a list of [ascii]) models
    them byte for byte.  Go's [int] carries only comparisons and the
    results of [strconv.Atoi] here, so it is a [Z] kept inside the
    64-bit range by [Atoi] itself. *)

From Stdlib Require Import ZArith String Ascii List Bool Lia DecimalString DecimalPos.
From stdpp Require Import base option gmap strings.

Import ListNotations.
Set Warnings "-register-all".
Local Open Scope string_scope.
Local Open Scope Z_scope.

(** ** The [strings] and [strconv] functions the engine calls *)

Module GoStrings.

(** [strings.HasPrefix s p]. *)
Fixpoint HasPrefix (s p : string) {struct p} : bool :=
  match p, s with
  | EmptyString, _ => true
  | String _ _, EmptyString => false
  | String b p', String a s' => if Ascii.eqb a b then HasPrefix s' p' else false
  end.

(** [strings.Contains s sub]. *)
Fixpoint Contains (s sub : string) : bool :=
  HasPrefix s sub ||
  match s with
  | EmptyString => false
  | String _ s' => Contains s' sub
  end.

(** The scan behind [strings.Split s sep] for a non-empty [sep]: the
    leftmost occurrence of [sep] closes the current field, the scan
    resumes after the occurrence.  [skip] counts the bytes of a
    recognised separator that are still to be dropped. *)
Fixpoint split_go (sep : string) (skip : nat) (s : string) : list string :=
  match s with
  | EmptyString => [EmptyString]
  | String c rest =>
      match skip with
      | S k => split_go sep k rest
      | O =>
          if HasPrefix s sep
          then EmptyString :: split_go sep (Nat.pred (String.length sep)) rest
          else match split_go sep 0 rest with
               | h :: t => String c h :: t
               | [] => [String c EmptyString]
               end
      end
  end.

(** [strings.Split s sep], for the separators of the engine (["\;"] and
    [":"], both non-empty). *)
Definition Split (s sep : string) : list string := split_go sep 0 s.

(** The scan behind [strings.Replace s old new (-1)] for a non-empty
    [old]: every non-overlapping occurrence, leftmost first. *)
Fixpoint replace_go (old new : string) (skip : nat) (s : string) : string :=
  match s with
  | EmptyString => EmptyString
  | String c rest =>
      match skip with
      | S k => replace_go old new k rest
      | O =>
          if HasPrefix s old
          then new ++ replace_go old new (Nat.pred (String.length old)) rest
          else String c (replace_go old new 0 rest)
      end
  end.

Definition Replace (s old new : string) : string := replace_go old new 0 s.

Definition isDigit (c : ascii) : bool :=
  let n := N_of_ascii c in (48 <=? n)%N && (n <=? 57)%N.

Definition digitVal (c : ascii) : Z := Z.of_N (N_of_ascii c) - 48.

Inductive parsed_uint := UintSyntax | UintRange | UintOk (n : Z).

Definition maxUint : Z := 2 ^ 64 - 1.

(** The digit loop of [strconv.ParseUint s 10 64]: a byte that is not
    a digit is a syntax error, and an overflow is reported as soon as
    it happens, before the bytes that follow are looked at. *)
Fixpoint parseUint (n : Z) (s : string) : parsed_uint :=
  match s with
  | EmptyString => UintOk n
  | String c rest =>
      if isDigit c then
        if n >=? maxUint / 10 + 1 then UintRange
        else let n1 := 10 * n + digitVal c in
             if n1 >? maxUint then UintRange else parseUint n1 rest
      else UintSyntax
  end.

Definition maxInt : Z := 2 ^ 63 - 1.
Definition minInt : Z := - 2 ^ 63.

(** [strconv.Atoi s] on a 64-bit platform: the value and whether the
    error is nil.  A syntax error yields 0, a value out of range the
    nearest bound; both come with an error.  (The fast path Go takes
    for short strings computes the same results.) *)
Definition Atoi (s : string) : Z * bool :=
  match s with
  | EmptyString => (0, false)
  | String c rest =>
      let neg := Ascii.eqb c "-" in
      let body := if neg || Ascii.eqb c "+" then rest else s in
      match body with
      | EmptyString => (0, false)
      | _ =>
          match parseUint 0 body with
          | UintSyntax => (0, false)
          | UintRange => (if neg then minInt else maxInt, false)
          | UintOk n =>
              if neg
              then (if n >? 2 ^ 63 then (minInt, false) else (- n, true))
              else (if n >=? 2 ^ 63 then (maxInt, false) else (n, true))
          end
      end
  end.

(** [fmt.Sprintf "%d" i] for an index [i >= 0]. *)
Definition Itoa (i : nat) : string := NilZero.string_of_uint (Nat.to_uint i).

End GoStrings.

Import GoStrings.
Local Open Scope list_scope.

(** ** Outcomes

    A call returns, or it panics (a failed type assertion).  The one
    recursive function of the engine is given fuel; [OutOfFuel] marks
    a run the fuel did not suffice for. *)

Inductive outcome (A : Type) : Type :=
  | Ok (a : A)
  | Panic
  | OutOfFuel.
Arguments Ok {A} a.
Arguments Panic {A}.
Arguments OutOfFuel {A}.

#[global] Instance outcome_ret : MRet outcome := fun A a => Ok a.
#[global] Instance outcome_bind : MBind outcome := fun A B f m =>
  match m with
  | Ok a => f a
  | Panic => Panic
  | OutOfFuel => OutOfFuel
  end.

(** A [for ... range] loop whose body may panic. *)
Fixpoint foldM {A B : Type} (f : B -> A -> outcome B) (l : list A) (b : B) : outcome B :=
  match l with
  | [] => Ok b
  | a :: l' => b' ← f b a; foldM f l' b'
  end.

(** ** Maps the code ranges over

    A Go map that is only built and then ranged over is an association
    list; the order of the list stands for the iteration order, which
    Go leaves unspecified.  [pm_append k x m] is [m[k] = append(m[k], x)]. *)

Fixpoint pm_append {A : Type} (k : string) (x : A) (m : list (string * list A))
  : list (string * list A) :=
  match m with
  | [] => [(k, [x])]
  | (k', xs) :: m' =>
      if String.eqb k k' then (k', xs ++ [x]) :: m' else (k', xs) :: pm_append k x m'
  end.

(** ** Catalog values

    The [interface{}] a pattern field decodes to: JSON null, a string,
    an array, an object, or a boolean or number (never inspected). *)

Inductive value : Type :=
  | VNil
  | VBool (b : bool)
  | VNumber
  | VString (s : string)
  | VList (l : list value)
  | VMap (m : list (string * value)).

Definition isNil (v : value) : bool :=
  match v with VNil => true | _ => false end.

(** The unchecked type assertion [v.(string)]. *)
Definition assertString (v : value) : outcome string :=
  match v with
  | VString s => Ok s
  | _ => Panic
  end.

Record application : Type := {
  Name : string;
  Version : string;
  Categories : list string;
  Cats : list Z;
  Cookies : value;
  Dom : option (list (string * list (string * value)));
  Js : value;
  Headers : value;
  HTML : value;
  Excludes : value;
  Implies : value;
  Meta : value;
  Scripts : value;
  DNS : value;
  URL : string;
  Website : string
}.

(** [resultApp]; [rName], [rVersion], [rCategories] and [rConfidence]
    are its fields [Name], [Version], [Categories] and [Confidence]. *)
Record resultApp : Type := {
  rName : string;
  rVersion : string;
  rCategories : list string;
  rConfidence : Z;
  excludes : value;
  implies : value
}.

(** [detected.Apps]; the mutex around it is held for the whole body of
    [addApp], which is therefore one atomic update of the map. *)
Abbreviation detected := (gmap string resultApp).

(** ** The libraries the engine calls

    Go's [regexp] is a parameter of the development: compiled
    expressions, [regexp.Compile] ([None] when it returns an error),
    [MatchString], [FindAllStringSubmatch] with [n = -1] ([[]] is Go's
    nil), and [Expand], the expansion of a replacement template that
    contains [$] against the text matched by an expression without
    groups.  [strings.ToLower] and [strings.ToUpper] map Unicode and
    are parameters too, and so is goquery. *)

Class RegexpLib : Type := {
  Regexp : Type;
  Compile : string -> option Regexp;
  MatchString : Regexp -> string -> bool;
  FindAllStringSubmatch : Regexp -> string -> list (list string);
  Expand : string -> string -> string
}.

Class StringsLib : Type := {
  ToLower : string -> string;
  ToUpper : string -> string
}.

(** [FindFirst html selector] is the selection
    [doc.Find(selector).First()] of the parsed document when it holds
    an element; [Attr] is the first result of goquery's [Attr], the
    empty string for a missing attribute. *)
Class QueryLib : Type := {
  Selection : Type;
  FindFirst : string -> string -> option Selection;
  Text : Selection -> string;
  Attr : Selection -> string -> string
}.

(** ** The pattern compiler *)

Section Compiler.
Context {RL : RegexpLib}.

Record pattern : Type := {
  str : string;
  regex : option Regexp;
  version : string;
  confidence : Z
}.

(** The expression handed to [regexp.Compile] for a match body. *)
Definition regexSource (item : string) : string :=
  let first := Replace item "\/" "/" in
  let second := Replace first "\\" "\" in
  ("(?i)" ++ Replace second "/" "\/")%string.

(** One turn of the loop over the fields of a pattern string
    ([for i, item := range slice]). *)
Definition parseItem (i : nat) (item : string) (appPattern : pattern) : pattern :=
  if String.eqb item "" then appPattern
  else if (0 <? i)%nat then
    let additional := Split item ":" in
    if (1 <? length additional)%nat then
      if String.eqb (nth 0 additional "") "version" then
        {| str := str appPattern; regex := regex appPattern;
           version := nth 1 additional ""; confidence := confidence appPattern |}
      else if String.eqb (nth 0 additional "") "confidence" then
        {| str := str appPattern; regex := regex appPattern;
           version := version appPattern; confidence := fst (Atoi (nth 1 additional "")) |}
      else appPattern
    else appPattern
  else
    {| str := item;
       regex := match Compile (regexSource item) with
                | Some reg => Some reg
                | None => regex appPattern
                end;
       version := version appPattern; confidence := confidence appPattern |}.

Fixpoint parseItems (i : nat) (slice : list string) (appPattern : pattern) : pattern :=
  match slice with
  | [] => appPattern
  | item :: rest => parseItems (S i) rest (parseItem i item appPattern)
  end.

(** The pattern compiled from one pattern string (the body of
    [for _, str := range v] in [parsePatterns]). *)
Definition parsePattern (s : string) : pattern :=
  parseItems 0 (Split s "\;")
    {| str := ""; regex := None; version := ""; confidence := 100 |}.

(** The first half of [parsePatterns]: the pattern strings under their
    sub-keys.  A list element that is not a string fails the type
    assertion. *)
Definition parseStrings (patterns : value) : outcome (list (string * list string)) :=
  match patterns with
  | VString ptrn => Ok (pm_append "main" ptrn [])
  | VMap ptrn =>
      foldM (fun parsed kv =>
               match snd kv with
               | VString content => Ok (pm_append (fst kv) content parsed)
               | VList content =>
                   foldM (fun parsed v1 => s ← assertString v1; Ok (pm_append (fst kv) s parsed))
                         content parsed
               | _ => Ok parsed
               end) ptrn []
  | VList ptrn =>
      slice ← foldM (fun slice v => s ← assertString v; Ok (slice ++ [s])) ptrn [];
      Ok [("main", slice)]
  | _ => Ok []
  end.

(** The second half: every string compiled, under the same sub-key. *)
Definition compileStrings (parsed : list (string * list string)) : list (string * list pattern) :=
  fold_left (fun result kv =>
               fold_left (fun result s => pm_append (fst kv) (parsePattern s) result)
                         (snd kv) result)
            parsed [].

Definition parsePatterns (patterns : value) : outcome (list (string * list pattern)) :=
  parsed ← parseStrings patterns; Ok (compileStrings parsed).

(** ** Version resolution *)

(** The ternary expression of [detectVersion] is [\\<i>\?([^:]+):]
    followed by a starred dot in a group and [$].  It matches at the
    start of [s] when [s] is the bytes [\<i>?], then a non-empty run
    without a colon that a colon ends, then the rest of the text,
    which the dot crosses only if it holds no newline. *)
Fixpoint noNewline (s : string) : bool :=
  match s with
  | EmptyString => true
  | String c rest => negb (Ascii.eqb c "010") && noNewline rest
  end.

Fixpoint thenBranch (seen : bool) (s : string) : bool :=
  match s with
  | EmptyString => false
  | String c rest => if Ascii.eqb c ":" then seen && noNewline rest else thenBranch true rest
  end.

Fixpoint dropPrefix (p s : string) {struct p} : option string :=
  match p, s with
  | EmptyString, _ => Some s
  | String _ _, EmptyString => None
  | String b p', String a s' => if Ascii.eqb a b then dropPrefix p' s' else None
  end.

Definition ternaryAt (i : nat) (s : string) : bool :=
  match dropPrefix ("\" ++ Itoa i ++ "?")%string s with
  | Some rest => thenBranch false rest
  | None => false
  end.

(** [reg.FindAllString(version, -1)] for [reg] compiled from the
    ternary expression: the matches of the whole expression.  A match
    runs to the end of the text, so the leftmost one is the only one. *)
Fixpoint ternaryFindAll (i : nat) (s : string) : list string :=
  match s with
  | EmptyString => []
  | String _ rest => if ternaryAt i s then [s] else ternaryFindAll i rest
  end.

(** The replacement [ReplaceAllString] writes for a template [repl]:
    the template itself unless it holds a [$]. *)
Definition expandTemplate (repl matched : string) : string :=
  if Contains repl "$" then Expand repl matched else repl.

(** [reg2.ReplaceAllString(version, match)] for [reg2] compiled from
    [\\<i>], which matches the bytes [\<i>]. *)
Definition replaceAllBackref (i : nat) (version repl : string) : string :=
  let lit := ("\" ++ Itoa i)%string in
  Replace version lit (expandTemplate repl lit).

(** One turn of [for i, match := range slice]. *)
Definition versionStep (i : nat) (match_ : string) (version : string) : string :=
  let ternary := ternaryFindAll i version in
  let version :=
    if (length ternary =? 3)%nat
    then Replace version (nth 0 ternary "") (nth 1 ternary "")
    else version in
  replaceAllBackref i version match_.

Fixpoint versionSlice (i : nat) (slice : list string) (version : string) : string :=
  match slice with
  | [] => version
  | match_ :: rest => versionSlice (S i) rest (versionStep i match_ version)
  end.

Definition detectVersion (pattrn : pattern) (value : string) : string :=
  match regex pattrn with
  | None => ""
  | Some re =>
      match FindAllStringSubmatch re value with
      | [] => ""
      | slices =>
          let version := fold_left (fun version slice => versionSlice 0 slice version)
                                   slices (version pattrn) in
          let versions := if String.eqb version "" then [] else [version] in
          fold_left (fun res ver => if String.ltb res ver then ver else res) versions ""
      end
  end.

End Compiler.

(** ** The detection set and the matchers *)

Section Matchers.
Context {RL : RegexpLib} {SL : StringsLib} {QL : QueryLib}.

(** [addApp]: insert, or merge into the entry already there. *)
Definition addApp (app : application) (detectedApplications : detected)
    (version : string) (confidence : Z) : detected :=
  match detectedApplications !! Name app with
  | None =>
      <[Name app := {| rName := Name app; rVersion := version;
                       rCategories := Categories app; rConfidence := confidence;
                       excludes := Excludes app; implies := Implies app |}]>
        detectedApplications
  | Some found =>
      let version' := if String.eqb (rVersion found) "" then version else rVersion found in
      let confidence' := if confidence >? rConfidence found then confidence
                         else rConfidence found in
      <[Name app := {| rName := rName found; rVersion := version';
                       rCategories := rCategories found; rConfidence := confidence';
                       excludes := excludes found; implies := implies found |}]>
        detectedApplications
  end.

(** The two nested loops every matcher starts with:
    [for k, v := range patterns { for _, pattrn := range v { ... } }]. *)
Definition forPatterns {S : Type} (patterns : list (string * list pattern))
    (body : string -> pattern -> S -> S) (s : S) : S :=
  fold_left (fun s kv => fold_left (fun s pattrn => body (fst kv) pattrn s) (snd kv) s)
            patterns s.

(** A hit on [value]: the version is resolved and the technology added. *)
Definition hit (app : application) (pattrn : pattern) (value : string)
    (d : detected) : detected :=
  addApp app d (detectVersion pattrn value) (confidence pattrn).

Definition regexMatches (pattrn : pattern) (value : string) : bool :=
  match regex pattrn with
  | Some re => MatchString re value
  | None => false
  end.

(** The test of the keyed matchers:
    [pattrn.str == "" || (pattrn.regex != nil && pattrn.regex.MatchString(v))]. *)
Definition keyedMatches (pattrn : pattern) (value : string) : bool :=
  String.eqb (str pattrn) "" || regexMatches pattrn value.

Definition analyzeURL (app : application) (url : string) (d : detected) : outcome detected :=
  patterns ← parsePatterns (VString (URL app));
  Ok (forPatterns patterns (fun _ pattrn d =>
        if regexMatches pattrn url then hit app pattrn url d else d) d).

Definition analyzeScripts (app : application) (scripts : list string) (d : detected)
  : outcome detected :=
  patterns ← parsePatterns (Scripts app);
  Ok (forPatterns patterns (fun _ pattrn d =>
        match regex pattrn with
        | Some re =>
            fold_left (fun d script =>
                         if MatchString re script then hit app pattrn script d else d)
                      scripts d
        | None => d
        end) d).

Definition analyzeHeaders (app : application) (headers : gmap string (list string))
    (d : detected) : outcome detected :=
  patterns ← parsePatterns (Headers app);
  Ok (forPatterns patterns (fun headerName pattrn d =>
        match headers !! ToLower headerName with
        | Some headersSlice =>
            fold_left (fun d header =>
                         if keyedMatches pattrn header then hit app pattrn header d else d)
                      headersSlice d
        | None => d
        end) d).

Definition analyzeCookies (app : application) (cookies : gmap string string)
    (d : detected) : outcome detected :=
  patterns ← parsePatterns (Cookies app);
  Ok (forPatterns patterns (fun cookieName pattrn d =>
        match cookies !! ToLower cookieName with
        | Some cookie => if keyedMatches pattrn cookie then hit app pattrn cookie d else d
        | None => d
        end) d).

Definition analyzeHTML (app : application) (html : string) (d : detected) : outcome detected :=
  patterns ← parsePatterns (HTML app);
  Ok (forPatterns patterns (fun _ pattrn d =>
        if regexMatches pattrn html then hit app pattrn html d else d) d).

Definition analyzeMeta (app : application) (metas : gmap string (list string))
    (d : detected) : outcome detected :=
  patterns ← parsePatterns (Meta app);
  Ok (forPatterns patterns (fun metaName pattrn d =>
        match metas !! ToLower metaName with
        | Some metaSlice =>
            fold_left (fun d meta =>
                         if keyedMatches pattrn meta then hit app pattrn meta d else d)
                      metaSlice d
        | None => d
        end) d).

(** [analyseJS]; [evalJS jsProp] is the value [scraper.EvalJS] hands
    back when its error is nil and the value is not nil. *)
Definition analyseJS (app : application) (evalJS : string -> option string)
    (d : detected) : outcome detected :=
  patterns ← parsePatterns (Js app);
  Ok (fold_left (fun d kv =>
        match evalJS (fst kv) with
        | Some value =>
            fold_left (fun d pattrn =>
                         if keyedMatches pattrn value then hit app pattrn value d else d)
                      (snd kv) d
        | None => d
        end) patterns d).

(** The value [analyseDom] reads off the selected element. *)
Definition domValue (s : Selection) (domType attribute : string) : string :=
  if String.eqb domType "text" then Text s
  else if String.eqb domType "properties" then Attr s attribute
  else if String.eqb domType "attributes" then Attr s attribute
  else "".

Definition analyseDom (app : application) (html : string) (d : detected) : outcome detected :=
  foldM (fun d sel =>
           match FindFirst html (fst sel) with
           | Some s =>
               foldM (fun d tv =>
                        patterns ← parsePatterns (snd tv);
                        Ok (forPatterns patterns (fun attribute pattrn d =>
                              let value := domValue s (fst tv) attribute in
                              if keyedMatches pattrn value then hit app pattrn value d else d) d))
                     (snd sel) d
           | None => Ok d
           end)
        (default [] (Dom app)) d.

Definition analyseDNS (app : application) (dns : gmap string (list string))
    (d : detected) : outcome detected :=
  patterns ← parsePatterns (DNS app);
  Ok (forPatterns patterns (fun dnsType pattrn d =>
        match dns !! ToUpper dnsType with
        | Some dnsSlice =>
            fold_left (fun d rec =>
                         if keyedMatches pattrn rec then hit app pattrn rec d else d)
                      dnsSlice d
        | None => d
        end) d).

(** ** Post-processing *)

Definition resolveExcludes (d : detected) (v : value) : outcome detected :=
  patterns ← parsePatterns v;
  Ok (forPatterns patterns (fun _ excluded d => delete (str excluded) d) d).

(** The entry [resolveImplies] inserts for an implied technology. *)
Definition impliedApp (app : application) (implied : pattern) : resultApp :=
  {| rName := Name app; rVersion := version implied; rCategories := Categories app;
     rConfidence := confidence implied; excludes := Excludes app; implies := Implies app |}.

(** [resolveImplies].  The state is the detection set together with
    the keys inserted so far, in order; the recursion of the source is
    bounded by [fuel]. *)
Fixpoint resolveImplies (fuel : nat) (apps : gmap string application)
    (st : detected * list string) (v : value) : outcome (detected * list string) :=
  match fuel with
  | O => OutOfFuel
  | S fuel' =>
      patterns ← parsePatterns v;
      foldM (fun st kv =>
               foldM (fun (st : detected * list string) implied =>
                        match apps !! str implied, fst st !! str implied with
                        | Some app, None =>
                            let st' := (<[str implied := impliedApp app implied]> (fst st),
                                        snd st ++ [str implied]) in
                            if isNil (Implies app) then Ok st'
                            else resolveImplies fuel' apps st' (Implies app)
                        | _, _ => Ok st
                        end)
                     (snd kv) st)
            patterns st
  end.

End Matchers.

(** ** URL validation

    [validateURL] compiles a fixed expression, anchored at both ends,
    and asks whether the input matches: membership of the whole input
    in the language of the expression, decided here by derivatives. *)

Module URLSyntax.

Inductive re : Type :=
  | Void
  | Eps
  | Class (p : ascii -> bool)
  | Cat (r1 r2 : re)
  | Alt (r1 r2 : re)
  | Star (r : re).

Fixpoint nullable (r : re) : bool :=
  match r with
  | Void => false
  | Eps => true
  | Class _ => false
  | Cat r1 r2 => nullable r1 && nullable r2
  | Alt r1 r2 => nullable r1 || nullable r2
  | Star _ => true
  end.

Fixpoint deriv (c : ascii) (r : re) : re :=
  match r with
  | Void => Void
  | Eps => Void
  | Class p => if p c then Eps else Void
  | Cat r1 r2 =>
      if nullable r1 then Alt (Cat (deriv c r1) r2) (deriv c r2) else Cat (deriv c r1) r2
  | Alt r1 r2 => Alt (deriv c r1) (deriv c r2)
  | Star r1 => Cat (deriv c r1) (Star r1)
  end.

Fixpoint matches (r : re) (s : string) : bool :=
  match s with
  | EmptyString => nullable r
  | String c rest => matches (deriv c r) rest
  end.

Definition Plus (r : re) : re := Cat r (Star r).
Definition Opt (r : re) : re := Alt r Eps.

Fixpoint Lit (s : string) : re :=
  match s with
  | EmptyString => Eps
  | String c rest => Cat (Class (Ascii.eqb c)) (Lit rest)
  end.

Definition between (lo hi : N) (c : ascii) : bool :=
  let n := N_of_ascii c in (lo <=? n)%N && (n <=? hi)%N.

Fixpoint oneOf (s : string) (c : ascii) : bool :=
  match s with
  | EmptyString => false
  | String a rest => Ascii.eqb a c || oneOf rest c
  end.

(** [\w]: the ASCII letters, the digits and the underscore. *)
Definition word (c : ascii) : bool :=
  between 48 57 c || between 65 90 c || between 97 122 c || Ascii.eqb c "_".

(** [[\w.-]], also written [[\w\.-]] in the expression. *)
Definition hostChar (c : ascii) : bool := word c || oneOf ".-" c.

(** The last class of the expression: [\w] and the punctuation it lists. *)
Definition tailChar (c : ascii) : bool := word c || oneOf "-._~:/?#[]@!$&'()*+,;=." c.

(** An optional [http://] or [https://], one or more host characters,
    one or more groups of a dot and host characters, one or more tail
    characters. *)
Definition urlRe : re :=
  Cat (Opt (Cat (Lit "http") (Cat (Opt (Lit "s")) (Lit "://"))))
      (Cat (Plus (Class hostChar))
           (Cat (Plus (Cat (Lit ".") (Plus (Class hostChar))))
                (Plus (Class tailChar)))).

End URLSyntax.

Definition validateURL (url : string) : bool := URLSyntax.matches URLSyntax.urlRe url.

(** ** The scraper and the engine *)

Definition error : Type := string.

Record ScrapedData : Type := {
  sURLs : list (string * Z);
  sHTML : string;
  sHeaders : gmap string (list string);
  sCookies : gmap string string;
  sScripts : list string;
  sMeta : gmap string (list string);
  sDNS : gmap string (list string)
}.

(** The [Scraper] interface as the core uses it; a nil interface is
    [None] in [Wappalyzer].  [scraperInit] is the
    error of [Init()]; [EvalJS] gives the value when the error is nil
    and the value is not. *)
Record Scraper : Type := {
  scraperInit : option error;
  Scrape : string -> ScrapedData * option error;
  EvalJS : string -> option string;
  CanRenderPage : bool
}.

Record category : Type := {
  cName : string;
  cPriority : Z
}.

Record Wappalyzer : Type := {
  wScraper : option Scraper;
  wApps : gmap string application;
  wCategories : gmap string category;
  wJSON : bool
}.

Record Config : Type := {
  AppsJSONPath : string;
  BrowserTimeoutSeconds : Z;
  NetworkTimeoutSeconds : Z;
  PageLoadTimeoutSeconds : Z;
  JSON : bool;
  cfgScraper : string
}.

(** [NewConfig]. *)
Definition NewConfig : Config :=
  {| AppsJSONPath := ""; BrowserTimeoutSeconds := 4; NetworkTimeoutSeconds := 3;
     PageLoadTimeoutSeconds := 3; JSON := true; cfgScraper := "rod" |}.

Record technology : Type := {
  tName : string;
  tConfidence : Z;
  tVersion : string;
  tCategories : list string
}.

Record report : Type := {
  urls : list (string * Z);
  technologies : list technology
}.

(** What [Analyze] hands back: the map itself, or its JSON text. *)
Inductive analysis : Type :=
  | Structured (r : report)
  | Marshalled (j : string).

(** The outcome of a call of [Analyze]: the arguments [Scrape] was
    invoked with, in order, and the two results. *)
Record analyzed : Type := {
  scrapes : list string;
  result : option analysis;
  err : option error
}.

(** [json.Marshal] of a report. *)
Class JSONLib : Type := {
  Marshal : report -> error + string
}.

(** What [Init] builds on: the two scrapers, the file system, the
    embedded catalog and the JSON decoder (the top-level document into
    its raw categories and technologies, then each raw entry). *)

Record InitEnv : Type := {
  collyScraper : Config -> Scraper;
  rodScraper : Config -> Scraper;
  Stat : string -> bool;
  ReadFile : string -> string * option error;
  embeddedAsset : string * option error;
  UnmarshalCatalog : string -> error + (list (string * string) * list (string * string));
  UnmarshalCategory : string -> error + category;
  UnmarshalApp : string -> string -> error + application
}.

(** [for _, app := range detectedApplications.Apps] with a body that
    deletes and inserts entries of the map it ranges over.  Go leaves
    to the runtime the order of the entries and whether an entry
    created during the loop is produced or skipped; an entry removed
    before it is reached is not produced.  [rangeOver d] is the
    sequence of keys the runtime produces for a loop entered with the
    map [d]; a key of the sequence that has no entry when its turn
    comes is passed over.  Every run of the loop is the run of some
    sequence (the keys it produced, in order), so what is proved for
    every [MapRange] holds for every run; not every sequence is a
    run, since the runtime produces an entry that is there from the
    beginning once, unless it is removed before its turn. *)
Class MapRange : Type := {
  rangeOver : detected -> list string
}.

Section Engine.
Context {RL : RegexpLib} {SL : StringsLib} {QL : QueryLib} {JL : JSONLib} {MR : MapRange}.

Definition when (b : bool) (f : detected -> outcome detected) (d : detected)
  : outcome detected :=
  if b then f d else Ok d.

(** The unit of work [Analyze] starts for one technology.  [addApp]
    updates the shared map atomically and a unit only ever touches the
    entry of its own technology. *)
Definition analyzeApp (scraper : Scraper) (canRenderPage : bool) (paramURL : string)
    (scraped : ScrapedData) (d : detected) (app : application) : outcome detected :=
  d ← analyzeURL app paramURL d;
  d ← when (canRenderPage && negb (isNil (Js app))) (analyseJS app (EvalJS scraper)) d;
  d ← when (canRenderPage && bool_decide (Dom app <> None))
           (analyseDom app (sHTML scraped)) d;
  d ← when (negb (isNil (HTML app))) (analyzeHTML app (sHTML scraped)) d;
  d ← when ((0 <? size (sHeaders scraped))%nat && negb (isNil (Headers app)))
           (analyzeHeaders app (sHeaders scraped)) d;
  d ← when ((0 <? size (sCookies scraped))%nat && negb (isNil (Cookies app)))
           (analyzeCookies app (sCookies scraped)) d;
  d ← when ((0 <? length (sScripts scraped))%nat && negb (isNil (Scripts app)))
           (analyzeScripts app (sScripts scraped)) d;
  d ← when ((0 <? size (sMeta scraped))%nat && negb (isNil (Meta app)))
           (analyzeMeta app (sMeta scraped)) d;
  when ((0 <? size (sDNS scraped))%nat && negb (isNil (DNS app)))
       (analyseDNS app (sDNS scraped)) d.

(** One turn of the post-processing loop, for the key the range
    produces: the entry under the key as it is at that moment, its
    excludes and then its implies.  A key without an entry is not
    produced. *)
Definition postStep (apps : gmap string application) (d : detected) (k : string)
  : outcome detected :=
  match d !! k with
  | None => Ok d
  | Some app =>
      d ← (if isNil (excludes app) then Ok d else resolveExcludes d (excludes app));
      if isNil (implies app) then Ok d
      else st ← resolveImplies (S (size apps)) apps (d, []) (implies app);
           Ok (fst st)
  end.

(** The post-processing loop ranges over the detection set while its
    body deletes and inserts entries: the keys come in the order the
    runtime chooses, see [MapRange]. *)
Definition postProcess (apps : gmap string application) (d : detected) : outcome detected :=
  foldM (postStep apps) (rangeOver d) d.

Definition technologyOf (app : resultApp) : technology :=
  {| tName := rName app; tConfidence := rConfidence app;
     tVersion := rVersion app; tCategories := rCategories app |}.

Definition Analyze (wapp : Wappalyzer) (paramURL : string) : outcome analyzed :=
  let detectedApplications : detected := ∅ in
  match wScraper wapp with
  | None => Panic
  | Some scraper =>
      let scraped := fst (Scrape scraper paramURL) in
      let called := [paramURL] in
      if negb (validateURL paramURL) then
        Ok {| scrapes := called;
              result := Some (Structured {| urls := []; technologies := [] |});
              err := Some "UrlNotValid" |}
      else
        let canRenderPage := CanRenderPage scraper in
        d ← foldM (fun d kv => analyzeApp scraper canRenderPage paramURL scraped d (snd kv))
                  (map_to_list (wApps wapp)) detectedApplications;
        d ← postProcess (wApps wapp) d;
        let res := {| urls := sURLs scraped;
                      technologies := map (fun kv => technologyOf (snd kv)) (map_to_list d) |} in
        if wJSON wapp then
          match Marshal res with
          | inr j => Ok {| scrapes := called; result := Some (Marshalled j); err := None |}
          | inl e => Ok {| scrapes := called; result := None; err := Some e |}
          end
        else Ok {| scrapes := called; result := Some (Structured res); err := None |}
  end.

End Engine.

(** ** Engine construction *)

(** [strconv.Itoa]. *)
Definition ItoaZ (n : Z) : string := NilZero.string_of_int (Z.to_int n).

(** [parseCategories]: the names of the technology's category ids; an
    id the catalog does not know dereferences a nil pointer. *)
Definition parseCategories (app : application) (categoriesCatalog : gmap string category)
  : outcome application :=
  names ← foldM (fun names categoryID =>
                   match categoriesCatalog !! ItoaZ categoryID with
                   | Some c => Ok (names ++ [cName c])
                   | None => Panic
                   end) (Cats app) (Categories app);
  Ok {| Name := Name app; Version := Version app; Categories := names; Cats := Cats app;
        Cookies := Cookies app; Dom := Dom app; Js := Js app; Headers := Headers app;
        HTML := HTML app; Excludes := Excludes app; Implies := Implies app;
        Meta := Meta app; Scripts := Scripts app; DNS := DNS app; URL := URL app;
        Website := Website app |}.

(** The loop of [Init] over the raw categories; it stops at the first
    decoding error. *)
Fixpoint loadCategories (env : InitEnv) (raw : list (string * string))
    (cats : gmap string category) : error + gmap string category :=
  match raw with
  | [] => inr cats
  | (k, v) :: rest =>
      match UnmarshalCategory env v with
      | inl e => inl e
      | inr catg => loadCategories env rest (<[k := catg]> cats)
      end
  end.

(** The loop of [Init] over the raw technologies. *)
Fixpoint loadApps (env : InitEnv) (raw : list (string * string))
    (cats : gmap string category) (apps : gmap string application)
  : outcome (error + gmap string application) :=
  match raw with
  | [] => Ok (inr apps)
  | (k, v) :: rest =>
      match UnmarshalApp env k v with
      | inl e => Ok (inl e)
      | inr app => app' ← parseCategories app cats; loadApps env rest cats (<[k := app']> apps)
      end
  end.

(** [Init] past the reading of the catalog file. *)
Definition loadCatalog (env : InitEnv) (config : Config) (scraper : Scraper)
    (appsFile : string) : outcome (option Wappalyzer * option error) :=
  match UnmarshalCatalog env appsFile with
  | inl e => Ok (None, Some e)
  | inr (rawCategories, rawApps) =>
      match loadCategories env rawCategories ∅ with
      | inl e => Ok (None, Some e)
      | inr cats =>
          loadedApps ← loadApps env rawApps cats ∅;
          match loadedApps with
          | inl e => Ok (None, Some e)
          | inr apps =>
              Ok (Some {| wScraper := Some scraper; wApps := apps; wCategories := cats;
                          wJSON := JSON config |}, None)
          end
      end
  end.

(** [Init]: the engine and the error.  The local [err] of the source
    is followed as written: the error of the scraper's [Init()] is
    stored in it, never read, and overwritten by the read of the
    embedded catalog or by the decoding. *)
Definition Init (env : InitEnv) (config : Config)
  : outcome (option Wappalyzer * option error) :=
  let selected :=
    if String.eqb (cfgScraper config) "colly" then Some (collyScraper env config)
    else if String.eqb (cfgScraper config) "rod" then Some (rodScraper env config)
    else None in
  match selected with
  | None =>
      Ok (Some {| wScraper := None; wApps := ∅; wCategories := ∅; wJSON := false |},
          Some "UnknownScraper")
  | Some scraper =>
      let err := scraperInit scraper in
      let appsFile :=
        if negb (String.eqb (AppsJSONPath config) "") then
          if Stat env (AppsJSONPath config) then fst (ReadFile env (AppsJSONPath config))
          else ""
        else "" in
      if String.eqb (AppsJSONPath config) "" || (String.length appsFile =? 0)%nat then
        match embeddedAsset env with
        | (_, Some e) => Ok (None, Some e)
        | (appsFile, None) => loadCatalog env config scraper appsFile
        end
      else loadCatalog env config scraper appsFile
  end.

(** ** A regexp for the worked examples

    The fragment of Go's [regexp] that the worked examples run on:
    the expressions [(?i)] followed by a non-empty run of ASCII
    letters and digits, matched against ASCII text, where they match
    their own text in any letter case.  [Compile] rejects every other
    expression, and [Expand] is only ever given templates that hold a
    [$], which no example has. *)

Module LiteralRegexp.

Definition lower (c : ascii) : ascii :=
  if URLSyntax.between 65 90 c then ascii_of_N (N_of_ascii c + 32) else c.

Definition isAlnum (c : ascii) : bool :=
  URLSyntax.between 48 57 c || URLSyntax.between 65 90 c || URLSyntax.between 97 122 c.

Fixpoint lowerString (s : string) : string :=
  match s with
  | EmptyString => EmptyString
  | String c rest => String (lower c) (lowerString rest)
  end.

Fixpoint allAlnum (s : string) : bool :=
  match s with
  | EmptyString => true
  | String c rest => isAlnum c && allAlnum rest
  end.

Definition compile (src : string) : option string :=
  match dropPrefix "(?i)" src with
  | Some lit =>
      if negb (String.eqb lit "") && allAlnum lit then Some (lowerString lit) else None
  | None => None
  end.

Definition matchString (lit s : string) : bool := Contains (lowerString s) lit.

(** The successive matches, each with its one group, the whole match. *)
Fixpoint findAll (lit : string) (skip : nat) (s : string) : list (list string) :=
  match s with
  | EmptyString => []
  | String _ rest =>
      match skip with
      | S k => findAll lit k rest
      | O =>
          if HasPrefix (lowerString s) lit
          then [substring 0 (String.length lit) s]
                 :: findAll lit (Nat.pred (String.length lit)) rest
          else findAll lit 0 rest
      end
  end.

Definition lib : RegexpLib := {|
  Regexp := string;
  Compile := compile;
  MatchString := matchString;
  FindAllStringSubmatch := fun lit s => findAll lit 0 s;
  Expand := fun template _ => template
|}.

End LiteralRegexp.

(** ** A regexp with an escaped dollar

    The fragment of Go's [regexp] with, beside the letters and digits
    of [LiteralRegexp], the escape [\$] for the dollar sign itself:
    the expressions [(?i)] followed by a non-empty run of such units,
    matched against ASCII text.  [Expand] is the expansion
    [ReplaceAllString] applies to its replacement, for an expression
    without groups of its own (as the backreference expressions of
    [detectVersion] are) and an ASCII template: [$$] is a dollar
    sign, [$name] and [${name}] are the text of the group [name],
    which is the match for the name [0] and nothing for every other
    name, and a dollar sign that no name follows stays. *)

Module DollarRegexp.

(** The text an expression matches, in lower case. *)
Fixpoint literal (src : string) : option string :=
  match src with
  | EmptyString => Some EmptyString
  | String c rest =>
      if Ascii.eqb c "\" then
        match rest with
        | String c' rest' =>
            if Ascii.eqb c' "$" then
              match literal rest' with
              | Some lit => Some (String "$" lit)
              | None => None
              end
            else None
        | EmptyString => None
        end
      else if LiteralRegexp.isAlnum c then
        match literal rest with
        | Some lit => Some (String (LiteralRegexp.lower c) lit)
        | None => None
        end
      else None
  end.

Definition compile (src : string) : option string :=
  match dropPrefix "(?i)" src with
  | Some body =>
      match literal body with
      | Some lit => if String.eqb lit "" then None else Some lit
      | None => None
      end
  | None => None
  end.

Definition isNameByte (c : ascii) : bool :=
  LiteralRegexp.isAlnum c || Ascii.eqb c "_".

(** The length of the name a template begins with. *)
Fixpoint nameLength (s : string) : nat :=
  match s with
  | EmptyString => 0
  | String c rest => if isNameByte c then S (nameLength rest) else 0
  end.

(** [extract]: the name a template begins with, after the dollar
    sign, and the number of bytes it takes with its braces. *)
Definition extract (s : string) : option (string * nat) :=
  match s with
  | EmptyString => None
  | String c rest =>
      if Ascii.eqb c "{" then
        let n := nameLength rest in
        if (n =? 0)%nat then None
        else if String.eqb (substring n 1 rest) "}" then Some (substring 0 n rest, n + 2)%nat
             else None
      else
        let n := nameLength s in
        if (n =? 0)%nat then None else Some (substring 0 n s, n)
  end.

(** [expand]; [skip] counts the bytes of a name that are still to be
    dropped. *)
Fixpoint expand (matched : string) (skip : nat) (template : string) : string :=
  match template with
  | EmptyString => EmptyString
  | String c rest =>
      match skip with
      | S k => expand matched k rest
      | O =>
          if Ascii.eqb c "$" then
            if HasPrefix rest "$" then String "$" (expand matched 1 rest)
            else
              match extract rest with
              | Some (name, n) =>
                  ((if String.eqb name "0" then matched else "") ++ expand matched n rest)%string
              | None => String "$" (expand matched 0 rest)
              end
          else String c (expand matched 0 rest)
      end
  end.

Definition lib : RegexpLib := {|
  Regexp := string;
  Compile := compile;
  MatchString := LiteralRegexp.matchString;
  FindAllStringSubmatch := fun lit s => LiteralRegexp.findAll lit 0 s;
  Expand := fun template matched => expand matched 0 template
|}.

End DollarRegexp.

(** [strings.ToLower] and [strings.ToUpper] on ASCII text, where they
    change the letters only, and a document in which no selector
    selects anything: what the worked examples run on. *)

Module AsciiStrings.

Definition upper (c : ascii) : ascii :=
  if URLSyntax.between 97 122 c then ascii_of_N (N_of_ascii c - 32) else c.

Fixpoint map_string (f : ascii -> ascii) (s : string) : string :=
  match s with
  | EmptyString => EmptyString
  | String c rest => String (f c) (map_string f rest)
  end.

Definition lib : StringsLib := {|
  ToLower := map_string LiteralRegexp.lower;
  ToUpper := map_string upper
|}.

End AsciiStrings.

Module EmptyDocument.

Definition lib : QueryLib := {|
  Selection := Empty_set;
  FindFirst := fun _ _ => None;
  Text := fun s => match s with end;
  Attr := fun s _ => match s with end
|}.

End EmptyDocument.

(** The runtime that produces the entries the map held when the loop
    began, in the order of [map_to_list], and skips every entry made
    during the loop. *)
Module SnapshotRange.

Definition lib : MapRange := {| rangeOver := fun d => map fst (map_to_list d) |}.

End SnapshotRange.

(** The runtime that also produces the entries made during the loop:
    the keys [extra], in that order, after the entries of the
    beginning. *)
Module EagerRange.

Definition lib (extra : list string) : MapRange :=
  {| rangeOver := fun d => map fst (map_to_list d) ++ extra |}.

End EagerRange.

(** ** The rod scraper

    The part of [RodScraper] that does not talk to the browser: how
    [Scrape] files the response headers, the meta elements and the
    cookies of the page. *)

Section RodScrape.
Context {SL : StringsLib}.

(** The loop of [Scrape] over the response headers, in the order the
    map is ranged over. *)
Definition rodHeaders (response : list (string * string)) : gmap string (list string) :=
  fold_left (fun headers hv =>
               let lowerCaseKey := ToLower (fst hv) in
               <[lowerCaseKey := default [] (headers !! lowerCaseKey) ++ [snd hv]]> headers)
            response ∅.

(** A meta element: its [name], [property] and [content] attributes. *)
Record metaElement : Type := {
  metaName : option string;
  metaProperty : option string;
  metaContent : option string
}.

(** The loop of [Scrape] over the meta elements. *)
Definition rodMeta (metas : list metaElement) : gmap string (list string) :=
  fold_left (fun found meta =>
               let name := match metaName meta with
                           | Some n => Some n
                           | None => metaProperty meta
                           end in
               match name, metaContent meta with
               | Some n, Some content =>
                   let nameLower := ToLower n in
                   <[nameLower := default [] (found !! nameLower) ++ [content]]> found
               | _, _ => found
               end)
            metas ∅.

End RodScrape.

(** The loop of [Scrape] over the cookies of the page: name and value. *)
Definition rodCookies (cookies : list (string * string)) : gmap string string :=
  fold_left (fun jar c => <[fst c := snd c]> jar) cookies ∅.
(** * Properties *)

(** ** Vocabulary of the statements *)

(** A call of [addApp]: the record passed, the version and the
    confidence. *)
Definition call : Type := application * string * Z.

Definition callApp (c : call) : application := fst (fst c).
Definition callVersion (c : call) : string := snd (fst c).
Definition callConfidence (c : call) : Z := snd c.

Definition addCall (d : detected) (c : call) : detected :=
  addApp (callApp c) d (callVersion c) (callConfidence c).

Fixpoint firstNonEmpty (versions : list string) : string :=
  match versions with
  | [] => ""
  | v :: rest => if String.eqb v "" then firstNonEmpty rest else v
  end.

Definition maxConfidence (c : Z) (cs : list Z) : Z := fold_left Z.max cs c.

(** The bytes of [s] before its first colon (all of [s] without one). *)
Fixpoint untilColon (s : string) : string :=
  match s with
  | EmptyString => EmptyString
  | String c rest => if Ascii.eqb c ":" then EmptyString else String c (untilColon rest)
  end.

(** The [str] of the patterns of a compiled group, in order. *)
Definition patternStrs {RL : RegexpLib} (patterns : list (string * list pattern)) : list string :=
  flat_map (fun kv => map str (snd kv)) patterns.

(** A technology record with a name and nothing else. *)
Definition bareApp (name : string) : application :=
  {| Name := name; Version := ""; Categories := []; Cats := [];
     Cookies := VNil; Dom := None; Js := VNil; Headers := VNil; HTML := VNil;
     Excludes := VNil; Implies := VNil; Meta := VNil; Scripts := VNil; DNS := VNil;
     URL := ""; Website := "" |}.

(** The body of a pattern string: its first field. *)
Definition patternBody (s : string) : string := nth 0 (Split s "\;") "".

(** Records for the worked examples. *)
Definition withHTML (app : application) (v : value) : application :=
  {| Name := Name app; Version := Version app; Categories := Categories app;
     Cats := Cats app; Cookies := Cookies app; Dom := Dom app; Js := Js app;
     Headers := Headers app; HTML := v; Excludes := Excludes app;
     Implies := Implies app; Meta := Meta app; Scripts := Scripts app; DNS := DNS app;
     URL := URL app; Website := Website app |}.

Definition withImplies (app : application) (v : value) : application :=
  {| Name := Name app; Version := Version app; Categories := Categories app;
     Cats := Cats app; Cookies := Cookies app; Dom := Dom app; Js := Js app;
     Headers := Headers app; HTML := HTML app; Excludes := Excludes app;
     Implies := v; Meta := Meta app; Scripts := Scripts app; DNS := DNS app;
     URL := URL app; Website := Website app |}.

Definition withHeaders (app : application) (v : value) : application :=
  {| Name := Name app; Version := Version app; Categories := Categories app;
     Cats := Cats app; Cookies := Cookies app; Dom := Dom app; Js := Js app;
     Headers := v; HTML := HTML app; Excludes := Excludes app;
     Implies := Implies app; Meta := Meta app; Scripts := Scripts app; DNS := DNS app;
     URL := URL app; Website := Website app |}.

(** What a call may do to a state, when it returns: [safe R b o] holds
    when [o] is a panic, or a state related to [b] by [R]; a run out of
    fuel is excluded. *)
Definition safe {B : Type} (R : B -> B -> Prop) (b : B) (o : outcome B) : Prop :=
  match o with
  | Ok b' => R b b'
  | Panic => True
  | OutOfFuel => False
  end.

(** How the implies pass changes its state: keys are appended to the
    list of inserted keys, none twice, each the key of a catalog
    technology that was not detected and now holds the entry made from
    that technology and a pattern of that name; the entries that were
    there are as they were. *)
Definition grows {RL : RegexpLib} (apps : gmap string application)
    (st st' : detected * list string) : Prop :=
  exists new : list string,
    snd st' = (snd st ++ new)
    /\ NoDup new
    /\ (forall k, k ∈ new ->
          (k ∉ dom (fst st))
          /\ exists app p, apps !! k = Some app /\ str p = k
                           /\ fst st' !! k = Some (impliedApp app p))
    /\ dom (fst st') = dom (fst st) ∪ list_to_set new
    /\ (forall k, k ∈ dom (fst st) -> fst st' !! k = fst st !! k).

(** The catalog of two technologies that imply each other, and the
    detection of the first. *)
Definition cyclicCatalog : gmap string application :=
  <["A" := withImplies (bareApp "A") (VString "B")]>
    (<["B" := withImplies (bareApp "B") (VString "A")]> ∅).

Definition detectedA : detected :=
  {["A" := {| rName := "A"; rVersion := ""; rCategories := []; rConfidence := 100;
              excludes := VNil; implies := VString "B" |}]}.

(** A scraper with the same methods whose [Init()] reports no error,
    and the environment whose scrapers are such. *)
Definition silence (s : Scraper) : Scraper :=
  {| scraperInit := None; Scrape := Scrape s; EvalJS := EvalJS s;
     CanRenderPage := CanRenderPage s |}.

Definition silenced (env : InitEnv) : InitEnv :=
  {| collyScraper := fun c => silence (collyScraper env c);
     rodScraper := fun c => silence (rodScraper env c);
     Stat := Stat env; ReadFile := ReadFile env; embeddedAsset := embeddedAsset env;
     UnmarshalCatalog := UnmarshalCatalog env; UnmarshalCategory := UnmarshalCategory env;
     UnmarshalApp := UnmarshalApp env |}.

(** What [Init] returns, the scraper kept on the engine left out. *)
Definition loaded (w : Wappalyzer)
  : bool * gmap string application * gmap string category * bool :=
  (bool_decide (wScraper w <> None), wApps w, wCategories w, wJSON w).

Definition initResult (o : outcome (option Wappalyzer * option error))
  : outcome (option (bool * gmap string application * gmap string category * bool)
             * option error) :=
  match o with
  | Ok (w, e) => Ok (option_map loaded w, e)
  | Panic => Panic
  | OutOfFuel => OutOfFuel
  end.

(** A scraper that cannot reach its browser, and an environment with
    an empty embedded catalog. *)
Definition noData : ScrapedData :=
  {| sURLs := []; sHTML := ""; sHeaders := ∅; sCookies := ∅; sScripts := [];
     sMeta := ∅; sDNS := ∅ |}.

Definition brokenScraper : Scraper :=
  {| scraperInit := Some "no browser"; Scrape := fun _ => (noData, Some "no browser");
     EvalJS := fun _ => None; CanRenderPage := true |}.

Definition brokenEnv : InitEnv :=
  {| collyScraper := fun _ => brokenScraper; rodScraper := fun _ => brokenScraper;
     Stat := fun _ => false; ReadFile := fun _ => ("", Some "no such file");
     embeddedAsset := ("{}", None);
     UnmarshalCatalog := fun _ => inr ([], []);
     UnmarshalCategory := fun _ => inl "unexpected end of input";
     UnmarshalApp := fun _ _ => inl "unexpected end of input" |}.

(** Three hits on one technology, and a detection set of two servers. *)
Definition drupalCalls : list call :=
  [(bareApp "Drupal", "", 50); (bareApp "Drupal", "8.1", 100); (bareApp "Drupal", "9", 30)].

Definition serverEntry (name : string) (ex : value) : resultApp :=
  {| rName := name; rVersion := ""; rCategories := []; rConfidence := 100;
     excludes := ex; implies := VNil |}.

Definition twoServers : detected :=
  <["Apache" := serverEntry "Apache" (VString "nginx")]>
    (<["nginx" := serverEntry "nginx" VNil]> ∅).

(** ** Vocabulary of the further properties *)

Definition isString (v : value) : bool :=
  match v with VString _ => true | _ => false end.

(** The strings of a list of values. *)
Fixpoint stringsOf (l : list value) : list string :=
  match l with
  | [] => []
  | VString s :: rest => s :: stringsOf rest
  | _ :: rest => stringsOf rest
  end.

(** A pattern value every list of which holds strings only. *)
Definition listsHoldStrings (v : value) : bool :=
  match v with
  | VList l => forallb isString l
  | VMap m =>
      forallb (fun kv => match snd kv with
                         | VList l => forallb isString l
                         | _ => true
                         end) m
  | _ => true
  end.

(** The pattern strings a map value contributes to its sub-key. *)
Definition fieldStrings (v : value) : list string :=
  match v with
  | VString s => [s]
  | VList l => stringsOf l
  | _ => []
  end.

(** The pattern strings a pattern value holds for a sub-key, in
    catalog order; the flat forms sit under [main]. *)
Definition stringsUnder (k : string) (v : value) : list string :=
  match v with
  | VString s => if String.eqb k "main" then [s] else []
  | VList l => if String.eqb k "main" then stringsOf l else []
  | VMap m => flat_map (fun kv => if String.eqb k (fst kv) then fieldStrings (snd kv) else []) m
  | _ => []
  end.

(** The list a grouped map holds under a key, empty without the key. *)
Fixpoint pm_get {A : Type} (k : string) (m : list (string * list A)) : list A :=
  match m with
  | [] => []
  | (k', xs) :: m' => if String.eqb k k' then xs else pm_get k m'
  end.

(** A grouped map built by [pm_append] keeps one entry per key, and no
    entry without elements. *)
Definition grouped {A : Type} (m : list (string * list A)) : Prop :=
  NoDup (map fst m) /\ Forall (fun kv => snd kv <> []) m.

(** The strings a map value files under its sub-key. *)
Definition fileField (parsed : list (string * list string)) (kv : string * value)
  : list (string * list string) :=
  fold_left (fun parsed s => pm_append (fst kv) s parsed) (fieldStrings (snd kv)) parsed.


(** What a unit of work may do to the detection set: the entries of
    the other technologies stay as they are; an entry of its own
    technology stays in the set with its name, categories and pending
    rules, a confidence that is not lower and, once it has one, its
    version; a new entry of its own technology carries its name. *)
Definition touches (name : string) (d d' : detected) : Prop :=
  (forall k, k <> name -> d' !! k = d !! k)
  /\ (forall r, d !! name = Some r ->
        exists r', d' !! name = Some r'
                   /\ rName r' = rName r /\ rCategories r' = rCategories r
                   /\ excludes r' = excludes r /\ implies r' = implies r
                   /\ rConfidence r <= rConfidence r'
                   /\ (rVersion r <> "" -> rVersion r' = rVersion r))
  /\ (d !! name = None -> forall r', d' !! name = Some r' -> rName r' = name).

(** An html pattern of low confidence for a server that is detected. *)
Definition nginxByHTML : application :=
  withHTML (bareApp "nginx") (VString "nginx\;confidence:50").

Definition nginxPage : ScrapedData :=
  {| sURLs := [("http://example.com/", 200)]; sHTML := "<p>nginx</p>"; sHeaders := ∅;
     sCookies := ∅; sScripts := []; sMeta := ∅; sDNS := ∅ |}.

(** A detection set whose entries carry their key as name, and a
    catalog whose technologies do. *)
Definition keyed (d : detected) : Prop :=
  forall k r, d !! k = Some r -> rName r = k.

Definition wellNamed (apps : gmap string application) : Prop :=
  forall k app, apps !! k = Some app -> Name app = k.

(** For the runs that ask for the structured report: [json.Marshal]
    is then not called. *)
Module StructuredOnly.

Definition lib : JSONLib := {| Marshal := fun _ => inl "not called" |}.

End StructuredOnly.

(** A scraper that has the nginx page, and a catalog in which nginx,
    found in the html, implies [A], which implies [B], which implies [A]. *)
Definition pageScraper : Scraper :=
  {| scraperInit := None; Scrape := fun _ => (nginxPage, None);
     EvalJS := fun _ => None; CanRenderPage := false |}.

Definition nginxCatalog : gmap string application :=
  <["nginx" := withImplies nginxByHTML (VString "A")]> cyclicCatalog.

(** The invariant of the detection set during a run: the entries
    carry their key as name and the keys are catalog keys. *)
Definition catalogued (apps : gmap string application) (d : detected) : Prop :=
  keyed d /\ dom d ⊆ dom apps.


(** The names of the categories with the given ids, when the catalog
    has them all. *)
Fixpoint categoryNames (cats : gmap string category) (ids : list Z) : option (list string) :=
  match ids with
  | [] => Some []
  | id :: rest =>
      match cats !! ItoaZ id, categoryNames cats rest with
      | Some c, Some found => Some (cName c :: found)
      | _, _ => None
      end
  end.

(** A configuration with another catalog path, and without one. *)
Definition withPath (path : string) (config : Config) : Config :=
  {| AppsJSONPath := path; BrowserTimeoutSeconds := BrowserTimeoutSeconds config;
     NetworkTimeoutSeconds := NetworkTimeoutSeconds config;
     PageLoadTimeoutSeconds := PageLoadTimeoutSeconds config;
     JSON := JSON config; cfgScraper := cfgScraper config |}.

Definition withoutPath (config : Config) : Config := withPath "" config.

(** The value of the last cookie of a name. *)
Fixpoint lastCookie (name : string) (cookies : list (string * string)) : option string :=
  match cookies with
  | [] => None
  | c :: rest =>
      match lastCookie name rest with
      | Some v => Some v
      | None => if String.eqb (fst c) name then Some (snd c) else None
      end
  end.

(** The name [Scrape] files a meta element under, before lower-casing. *)
Definition metaKey (meta : metaElement) : option string :=
  match metaName meta with
  | Some n => Some n
  | None => metaProperty meta
  end.


(** Whether some class of an expression accepts the byte, and whether
    an expression is void by its shape. *)
Fixpoint admits (r : URLSyntax.re) (c : ascii) : bool :=
  match r with
  | URLSyntax.Class p => p c
  | URLSyntax.Cat r1 r2 => admits r1 c || admits r2 c
  | URLSyntax.Alt r1 r2 => admits r1 c || admits r2 c
  | URLSyntax.Star r1 => admits r1 c
  | _ => false
  end.

Fixpoint void (r : URLSyntax.re) : bool :=
  match r with
  | URLSyntax.Void => true
  | URLSyntax.Cat r1 r2 => void r1 || void r2
  | URLSyntax.Alt r1 r2 => void r1 && void r2
  | _ => false
  end.

(** Whether a byte occurs in a text. *)
Fixpoint hasByte (c : ascii) (s : string) : bool :=
  match s with
  | EmptyString => false
  | String a rest => Ascii.eqb a c || hasByte c rest
  end.

(** An expression with the dot taken out of its classes, and
    expressions that are void because a class they need is empty. *)
Fixpoint withoutDot (r : URLSyntax.re) : URLSyntax.re :=
  match r with
  | URLSyntax.Class p => URLSyntax.Class (fun c => p c && negb (Ascii.eqb c "."))
  | URLSyntax.Cat r1 r2 => URLSyntax.Cat (withoutDot r1) (withoutDot r2)
  | URLSyntax.Alt r1 r2 => URLSyntax.Alt (withoutDot r1) (withoutDot r2)
  | URLSyntax.Star r1 => URLSyntax.Star (withoutDot r1)
  | other => other
  end.

Definition classEmpty (p : ascii -> bool) : bool :=
  forallb (fun n => negb (p (ascii_of_nat n))) (seq 0 256).

Fixpoint barren (r : URLSyntax.re) : bool :=
  match r with
  | URLSyntax.Void => true
  | URLSyntax.Class p => classEmpty p
  | URLSyntax.Cat r1 r2 => barren r1 || barren r2
  | URLSyntax.Alt r1 r2 => barren r1 && barren r2
  | _ => false
  end.

(** The targets of an implies value that the catalog knows are all
    detected. *)
Definition targetsDetected {RL : RegexpLib} (apps : gmap string application) (v : value)
    (d : detected) : Prop :=
  forall patterns s,
    parsePatterns v = Ok patterns -> s ∈ patternStrs patterns ->
    is_Some (apps !! s) -> s ∈ dom d.

(** [grows], and the targets of every technology that came in are
    detected. *)
Definition closes {RL : RegexpLib} (apps : gmap string application)
    (st st' : detected * list string) : Prop :=
  grows apps st st'
  /\ forall k app,
       k ∈ dom (fst st') -> k ∉ dom (fst st) -> apps !! k = Some app ->
       targetsDetected apps (Implies app) (fst st').


(** ** Vocabulary of the implies pass *)

(** The patterns of a compiled group, in order. *)
Definition patternsOf {RL : RegexpLib} (patterns : list (string * list pattern))
  : list pattern :=
  flat_map snd patterns.

(** [p] is one of the patterns the value [v] compiles to. *)
Definition patternOf {RL : RegexpLib} (v : value) (p : pattern) : Prop :=
  exists patterns, parsePatterns v = Ok patterns /\ p ∈ patternsOf patterns.

(** Where the entries the pass inserted come from: each is the entry
    made from the catalog technology of its key and a pattern of that
    name, and the pattern is one of [Q] (the patterns of the value
    the pass was started on) or one of the implies of a technology
    the pass inserted. *)
Definition sourced {RL : RegexpLib} (apps : gmap string application) (Q : pattern -> Prop)
    (st st' : detected * list string) : Prop :=
  forall k, k ∈ dom (fst st') -> k ∉ dom (fst st) ->
    exists app p,
      apps !! k = Some app /\ str p = k
      /\ fst st' !! k = Some (impliedApp app p)
      /\ (Q p
          \/ exists k' app',
               k' ∈ dom (fst st') /\ (k' ∉ dom (fst st))
               /\ apps !! k' = Some app' /\ patternOf (Implies app') p).

Definition derives {RL : RegexpLib} (apps : gmap string application) (Q : pattern -> Prop)
    (st st' : detected * list string) : Prop :=
  grows apps st st' /\ sourced apps Q st st'.

(** [safe], with the panic excluded as well when [strict] is set. *)
Definition ends {B : Type} (strict : bool) (R : B -> B -> Prop) (b : B) (o : outcome B)
  : Prop :=
  match o with
  | Ok b' => R b b'
  | Panic => strict = false
  | OutOfFuel => False
  end.

(** A catalog whose implies values hold strings only in their lists. *)
Definition typedImplies (apps : gmap string application) : Prop :=
  forall k app, apps !! k = Some app -> listsHoldStrings (Implies app) = true.

(** ** Vocabulary of the matchers *)

(** The three loops of a matcher, over the sub-keys, over the patterns
    of a sub-key and over the evidence values under the sub-key, with
    the test left open. *)
Definition sweep {RL : RegexpLib} (test : pattern -> string -> bool) (app : application)
    (ev : string -> list string) (patterns : list (string * list pattern)) (d : detected)
  : detected :=
  forPatterns patterns
    (fun k pattrn d =>
       fold_left (fun d v => if test pattrn v then hit app pattrn v d else d) (ev k) d) d.

(** The values filed under a key, none without the key; the one value
    of a key that holds one. *)
Definition valuesAt (m : gmap string (list string)) (k : string) : list string :=
  default [] (m !! k).

Definition valueAt (o : option string) : list string :=
  match o with
  | Some v => [v]
  | None => []
  end.

(** The dom patterns of a technology: all their lists hold strings. *)
Definition typedDom (app : application) : Prop :=
  forall sel tvs ty v,
    (sel, tvs) ∈ default [] (Dom app) -> (ty, v) ∈ tvs -> listsHoldStrings v = true.

(** A technology with header patterns under two names, one of them
    with an empty body beside another pattern. *)
Definition serverByHeaders : application :=
  withHeaders (bareApp "Express")
    (VMap [("Server", VList [VString "nginx"; VString "\;confidence:50"]);
           ("X-Powered-By", VString "php")]).

(** ** Vocabulary of the rod scraper *)

(** What a map of lists holds for a key it filed [vs] under: nothing
    when nothing was filed. *)
Definition filed (vs : list string) : option (list string) :=
  match vs with
  | [] => None
  | _ :: _ => Some vs
  end.

(** The values of the response headers whose lower-cased name is [k],
    in the order of the response. *)
Definition headerValues {SL : StringsLib} (k : string) (response : list (string * string))
  : list string :=
  flat_map (fun hv => if String.eqb (ToLower (fst hv)) k then [snd hv] else []) response.

(** The contents of the meta elements whose name, or property without
    a name, is [k] once lower-cased, in the order of the page; an
    element without content files nothing. *)
Definition metaValues {SL : StringsLib} (k : string) (metas : list metaElement)
  : list string :=
  flat_map (fun meta =>
              match metaKey meta, metaContent meta with
              | Some n, Some content => if String.eqb (ToLower n) k then [content] else []
              | _, _ => []
              end) metas.

(** ** Vocabulary of the pattern compiler *)

(** [strings.Join fields "\;"]. *)
Fixpoint joinFields (fields : list string) : string :=
  match fields with
  | [] => ""
  | [f] => f
  | f :: rest => (f ++ "\;" ++ joinFields rest)%string
  end.

(** The value of a field named [name]: the text after [name:], up to
    the next colon. *)
Definition fieldValue (name item : string) : option string :=
  match dropPrefix (name ++ ":") item with
  | Some rest => Some (untilColon rest)
  | None => None
  end.

(** The value of the last field of that name. *)
Fixpoint lastValue (name : string) (fields : list string) : option string :=
  match fields with
  | [] => None
  | f :: rest =>
      match lastValue name rest with
      | Some v => Some v
      | None => fieldValue name f
      end
  end.

(** The sign of a decimal text and the text after it. *)
Definition signOf (s : string) : bool * string :=
  match s with
  | EmptyString => (false, EmptyString)
  | String c rest =>
      if Ascii.eqb c "-" then (true, rest)
      else if Ascii.eqb c "+" then (false, rest)
      else (false, s)
  end.

(** The digits a text begins with, and the number a run of digits
    writes. *)
Fixpoint digitPrefix (s : string) : string :=
  match s with
  | EmptyString => EmptyString
  | String c rest => if isDigit c then String c (digitPrefix rest) else EmptyString
  end.

Fixpoint decimalFrom (n : Z) (ds : string) : Z :=
  match ds with
  | EmptyString => n
  | String c rest => decimalFrom (10 * n + digitVal c) rest
  end.

(** What [strconv.Atoi] returns, said by the kind of the failure.
    After the sign, the digits up to the first byte that is not a
    digit are read.  When they already exceed 64 bits unsigned the
    result is the bound of the signed range on the side of the sign,
    with a range error.  Otherwise a text without a digit, or with a
    byte that is not a digit, gives 0 with a syntax error.  Otherwise
    the text is a number: it is returned when it lies in the signed
    range, and the bound on its side with a range error when not. *)
Definition atoiValue (s : string) : Z * bool :=
  let neg := fst (signOf s) in
  let body := snd (signOf s) in
  let n := decimalFrom 0 (digitPrefix body) in
  if n >? maxUint then (if neg then minInt else maxInt, false)
  else if String.eqb body "" || negb (String.eqb (digitPrefix body) body) then (0, false)
  else if neg then (if n >? 2 ^ 63 then (minInt, false) else (- n, true))
  else (if n >=? 2 ^ 63 then (maxInt, false) else (n, true)).

(** ** Vocabulary of the version templates *)

(** The substitution of the groups of one match into a template,
    group by group: every occurrence of [\i] becomes the text of
    group [i], as it is. *)
Fixpoint literalGroups (i : nat) (groups : list string) (template : string) : string :=
  match groups with
  | [] => template
  | g :: rest => literalGroups (S i) rest (Replace template ("\" ++ Itoa i) g)
  end.

(** The same for the matches of a value, one after the other. *)
Definition literalVersion (template : string) (slices : list (list string)) : string :=
  fold_left (fun template groups => literalGroups 0 groups template) slices template.

(** A technology told by a header whose value holds a dollar sign,
    with the matched text as its version. *)
Definition dollarShop : application :=
  withHeaders (bareApp "Shop") (VMap [("X-Shop", VString "a\$b\;version:\0")]).

(** ** A catalog on which the runtime decides

    [nginx] is found in the page and implies [A]; [A] excludes
    [nginx].  The entry of [A] is made during the post-processing
    loop: when the range produces it, [nginx] is removed. *)
Definition withExcludes (app : application) (v : value) : application :=
  {| Name := Name app; Version := Version app; Categories := Categories app;
     Cats := Cats app; Cookies := Cookies app; Dom := Dom app; Js := Js app;
     Headers := Headers app; HTML := HTML app; Excludes := v;
     Implies := Implies app; Meta := Meta app; Scripts := Scripts app; DNS := DNS app;
     URL := URL app; Website := Website app |}.

Definition rivalCatalog : gmap string application :=
  <["nginx" := withImplies nginxByHTML (VString "A")]>
    (<["A" := withExcludes (bareApp "A") (VString "nginx")]> ∅).

Definition rivalEngine : Wappalyzer :=
  {| wScraper := Some pageScraper; wApps := rivalCatalog; wCategories := ∅; wJSON := false |}.

(** The names of a structured report. *)
Definition reportNames (a : analyzed) : list string :=
  match result a with
  | Some (Structured r) => map tName (technologies r)
  | _ => []
  end.

(** ** The detection set under [addApp] *)

Section AddApp.

Lemma addApp_other (app : application) (d : detected) (v : string) (c : Z) (k : string) :
  k <> Name app -> addApp app d v c !! k = d !! k.
Proof.
  intros Hk. unfold addApp.
  destruct (d !! Name app); rewrite lookup_insert_ne; congruence.
Qed.

Lemma addApp_fresh (app : application) (d : detected) (v : string) (c : Z) :
  d !! Name app = None ->
  addApp app d v c !! Name app =
    Some {| rName := Name app; rVersion := v; rCategories := Categories app;
            rConfidence := c; excludes := Excludes app; implies := Implies app |}.
Proof.
  intros Hd. unfold addApp. rewrite Hd. apply lookup_insert_eq.
Qed.

Lemma addApp_merge (app : application) (d : detected) (v : string) (c : Z) (r : resultApp) :
  d !! Name app = Some r ->
  addApp app d v c !! Name app =
    Some {| rName := rName r;
            rVersion := firstNonEmpty [rVersion r; v];
            rCategories := rCategories r;
            rConfidence := Z.max (rConfidence r) c;
            excludes := excludes r; implies := implies r |}.
Proof.
  intros Hd. unfold addApp. rewrite Hd, lookup_insert_eq. f_equal.
  assert (Hmax : (if c >? rConfidence r then c else rConfidence r) = Z.max (rConfidence r) c).
  { destruct (Z.gtb_spec c (rConfidence r)); lia. }
  rewrite Hmax. simpl.
  destruct (String.eqb_spec (rVersion r) ""); [|reflexivity].
  destruct (String.eqb_spec v ""); congruence.
Qed.

Lemma addApp_dom (app : application) (d : detected) (v : string) (c : Z) :
  dom (addApp app d v c) = {[Name app]} ∪ dom d.
Proof.
  unfold addApp. destruct (d !! Name app); apply dom_insert_L.
Qed.

Lemma firstNonEmpty_merge (v w : string) (vs : list string) :
  firstNonEmpty (firstNonEmpty [v; w] :: vs) = firstNonEmpty (v :: w :: vs).
Proof.
  simpl. destruct (String.eqb_spec v "") as [->|Hv].
  - destruct (String.eqb_spec w "") as [->|Hw]; simpl; [reflexivity|].
    destruct (String.eqb_spec w ""); congruence.
  - destruct (String.eqb_spec v ""); congruence.
Qed.

(** Calls for a technology that is already in the set only merge. *)
Lemma addCall_present (name : string) (cs : list call) :
  forall (d : detected) (r : resultApp),
    d !! name = Some r ->
    Forall (fun c => Name (callApp c) = name) cs ->
    fold_left addCall cs d !! name =
      Some {| rName := rName r;
              rVersion := firstNonEmpty (rVersion r :: map callVersion cs);
              rCategories := rCategories r;
              rConfidence := maxConfidence (rConfidence r) (map callConfidence cs);
              excludes := excludes r; implies := implies r |}.
Proof.
  induction cs as [|c cs IH]; intros d r Hd Hall.
  - simpl. rewrite Hd. f_equal. destruct r as [n v cats cf ex im]. simpl.
    destruct (String.eqb_spec v ""); subst; reflexivity.
  - apply Forall_cons in Hall as [Hc Hcs]. simpl fold_left.
    erewrite IH; [| unfold addCall; rewrite <- Hc in Hd |- *; apply (addApp_merge _ _ _ _ _ Hd) | assumption].
    simpl rName. simpl rCategories. simpl excludes. simpl implies. simpl rConfidence.
    simpl rVersion. f_equal. f_equal.
    apply (firstNonEmpty_merge (rVersion r) (callVersion c) (map callVersion cs)).
Qed.

Lemma addCall_others (name : string) (cs : list call) :
  forall (d : detected) (k : string),
    k <> name ->
    Forall (fun c => Name (callApp c) = name) cs ->
    fold_left addCall cs d !! k = d !! k.
Proof.
  induction cs as [|c cs IH]; intros d k Hk Hall; [reflexivity|].
  apply Forall_cons in Hall as [Hc Hcs]. simpl.
  rewrite (IH _ _ Hk Hcs). apply addApp_other. congruence.
Qed.

(** C1. For every sequence of [addApp] calls for one technology name,
    started on a detection set that does not hold the name, the set
    holds one entry under the name after the calls (whatever their
    number, so after each of them): its confidence is the maximum of
    the confidences passed, its version the first non-empty version
    passed, its categories and pending implies and excludes those of
    the record of the first call; the other entries are untouched. *)
Theorem addApp_sequence (name : string) (d : detected) (c : call) (cs : list call) :
  d !! name = None ->
  Forall (fun c => Name (callApp c) = name) (c :: cs) ->
  fold_left addCall (c :: cs) d !! name =
    Some {| rName := name;
            rVersion := firstNonEmpty (map callVersion (c :: cs));
            rCategories := Categories (callApp c);
            rConfidence := maxConfidence (callConfidence c) (map callConfidence cs);
            excludes := Excludes (callApp c);
            implies := Implies (callApp c) |}
  /\ (forall k, k <> name -> fold_left addCall (c :: cs) d !! k = d !! k)
  /\ dom (fold_left addCall (c :: cs) d) = {[name]} ∪ dom d.
Proof.
  intros Hd Hall. split; [|split].
  - apply Forall_cons in Hall as [Hc Hcs]. simpl fold_left.
    erewrite addCall_present;
      [| unfold addCall; rewrite <- Hc; apply addApp_fresh; rewrite Hc; assumption | assumption].
    cbn [rName rVersion rCategories rConfidence excludes implies map].
    rewrite Hc. reflexivity.
  - intros k Hk. apply (addCall_others name); assumption.
  - apply set_eq. intros k. rewrite elem_of_union, elem_of_singleton, !elem_of_dom.
    destruct (decide (k = name)) as [->|Hk].
    + apply Forall_cons in Hall as [Hc Hcs]. simpl fold_left.
      erewrite addCall_present;
        [| unfold addCall; rewrite <- Hc; apply addApp_fresh; rewrite Hc; assumption | assumption].
      split; [auto | intros _; eexists; reflexivity].
    + rewrite (addCall_others name) by assumption. tauto.
Qed.

End AddApp.

(** ** Splitting *)

Section Splitting.

Lemma split_go_cons (sep : string) (k : nat) (s : string) :
  exists h t, split_go sep k s = h :: t.
Proof.
  revert k. induction s as [|c s IH]; intros k; cbn [split_go].
  - eexists _, _; reflexivity.
  - destruct k as [|k]; [|apply IH].
    destruct (HasPrefix (String c s) sep); [eexists _, _; reflexivity|].
    destruct (IH 0%nat) as (h & t & ->). eexists _, _; reflexivity.
Qed.

Lemma Contains_cons_false (c : ascii) (s sub : string) :
  Contains (String c s) sub = false ->
  HasPrefix (String c s) sub = false /\ Contains s sub = false.
Proof.
  simpl. intros H. apply orb_false_iff in H. exact H.
Qed.

(** A field free of the separator is split off whole. *)
Lemma Split_field (a b : string) :
  Contains a "\;" = false ->
  Split (a ++ "\;" ++ b) "\;" = a :: Split b "\;".
Proof.
  unfold Split. induction a as [|c a IH]; intros Hc.
  - reflexivity.
  - apply Contains_cons_false in Hc as [Hp Hc].
    specialize (IH Hc).
    change ((String c a ++ "\;" ++ b)%string) with (String c (a ++ "\;" ++ b)%string).
    cbn [split_go].
    assert (Hp' : HasPrefix (String c (a ++ "\;" ++ b)) "\;" = false).
    { destruct a as [|c' a]; cbn in Hp |- *.
      - destruct (Ascii.eqb c "\"); reflexivity.
      - exact Hp. }
    rewrite Hp', IH. reflexivity.
Qed.

Lemma Split_last (a : string) :
  Contains a "\;" = false -> Split a "\;" = [a].
Proof.
  unfold Split. induction a as [|c a IH]; intros Hc; [reflexivity|].
  apply Contains_cons_false in Hc as [Hp Hc].
  cbn [split_go]. rewrite Hp, (IH Hc). reflexivity.
Qed.

Lemma Split_colon_head (v : string) :
  exists t, Split v ":" = untilColon v :: t.
Proof.
  unfold Split. induction v as [|c v IH]; [simpl; eauto|].
  cbn [split_go untilColon HasPrefix].
  destruct (Ascii.eqb c ":"); [simpl; eauto|].
  destruct IH as (t & ->). eauto.
Qed.

(** No segment of a split on the colon holds a colon. *)
Lemma Split_colon_segments (v : string) :
  Forall (fun seg => Contains seg ":" = false) (Split v ":").
Proof.
  unfold Split. induction v as [|c v IH]; [repeat constructor|].
  cbn [split_go HasPrefix].
  destruct (Ascii.eqb c ":") eqn:Ec.
  - constructor; [reflexivity | exact IH].
  - destruct (split_go ":" 0 v) as [|h t]; [repeat constructor; simpl; rewrite Ec; reflexivity|].
    apply Forall_cons in IH as [Hh Ht]. constructor; [|exact Ht].
    simpl. rewrite Ec. simpl. exact Hh.
Qed.

Lemma untilColon_no_colon (v : string) : Contains (untilColon v) ":" = false.
Proof.
  destruct (Split_colon_head v) as (t & Ht).
  pose proof (Split_colon_segments v) as H. rewrite Ht in H.
  apply Forall_cons in H as [H _]. exact H.
Qed.

End Splitting.

(** ** The pattern compiler *)

Section CompilerFacts.
Context {RL : RegexpLib}.

Lemma nth_Forall {A : Type} (P : A -> Prop) (l : list A) (n : nat) (d : A) :
  Forall P l -> P d -> P (nth n l d).
Proof.
  intros Hl Hd. revert n. induction Hl as [|x l Hx Hl IH]; intros [|n]; simpl; auto.
Qed.

Lemma parseItem_version_field (i : nat) (v : string) (p : pattern) :
  parseItem (S i) ("version:" ++ v) p =
    {| str := str p; regex := regex p; version := untilColon v; confidence := confidence p |}.
Proof.
  unfold parseItem. destruct (Split_colon_head v) as (t & Ht).
  unfold Split in *. cbv [String.append]. cbn. rewrite Ht. reflexivity.
Qed.

Lemma parseItem_confidence_field (i : nat) (c : string) (p : pattern) :
  parseItem (S i) ("confidence:" ++ c) p =
    {| str := str p; regex := regex p; version := version p;
       confidence := fst (Atoi (untilColon c)) |}.
Proof.
  unfold parseItem. destruct (Split_colon_head c) as (t & Ht).
  unfold Split in *. cbv [String.append]. cbn. rewrite Ht. reflexivity.
Qed.

Lemma parseItem_body (body : string) (p : pattern) :
  body <> "" -> regex p = None ->
  parseItem 0 body p =
    {| str := body; regex := Compile (regexSource body);
       version := version p; confidence := confidence p |}.
Proof.
  intros Hb Hr. unfold parseItem.
  destruct (String.eqb_spec body ""); [contradiction|]. simpl.
  rewrite Hr. destruct (Compile (regexSource body)); reflexivity.
Qed.

(** An empty item is skipped, whatever its position. *)
Lemma parseItem_empty (i : nat) (p : pattern) : parseItem i "" p = p.
Proof. reflexivity. Qed.

(** The fields after the first never touch [str] and [regex]. *)
Lemma parseItem_later_keeps (i : nat) (item : string) (p : pattern) :
  str (parseItem (S i) item p) = str p /\ regex (parseItem (S i) item p) = regex p.
Proof.
  unfold parseItem. destruct (String.eqb item ""); [auto|]. simpl.
  destruct (1 <? length (Split item ":"))%nat; [|auto].
  destruct (String.eqb (nth 0 (Split item ":") "") "version"); [auto|].
  destruct (String.eqb (nth 0 (Split item ":") "") "confidence"); auto.
Qed.

Lemma parseItems_later_keeps (items : list string) :
  forall (i : nat) (p : pattern),
    str (parseItems (S i) items p) = str p /\ regex (parseItems (S i) items p) = regex p.
Proof.
  induction items as [|item items IH]; intros i p; [auto|].
  simpl. destruct (IH (S i) (parseItem (S i) item p)) as [-> ->].
  apply parseItem_later_keeps.
Qed.

(** Every field leaves the version template free of colons. *)
Lemma parseItem_version_colon (i : nat) (item : string) (p : pattern) :
  Contains (version p) ":" = false ->
  Contains (version (parseItem i item p)) ":" = false.
Proof.
  intros Hp. unfold parseItem. destruct (String.eqb item ""); [exact Hp|].
  destruct (0 <? i)%nat; [|exact Hp].
  destruct (1 <? length (Split item ":"))%nat; [|exact Hp].
  destruct (String.eqb (nth 0 (Split item ":") "") "version").
  - simpl. apply (nth_Forall (fun seg => Contains seg ":" = false));
      [apply Split_colon_segments | reflexivity].
  - destruct (String.eqb (nth 0 (Split item ":") "") "confidence"); exact Hp.
Qed.

Lemma parseItems_version_colon (items : list string) :
  forall (i : nat) (p : pattern),
    Contains (version p) ":" = false ->
    Contains (version (parseItems i items p)) ":" = false.
Proof.
  induction items as [|item items IH]; intros i p Hp; [exact Hp|].
  simpl. apply IH, parseItem_version_colon, Hp.
Qed.

Lemma parsePattern_version_colon (s : string) :
  Contains (version (parsePattern s)) ":" = false.
Proof. apply parseItems_version_colon. reflexivity. Qed.

End CompilerFacts.

Section CompiledFields.
Context {RL : RegexpLib}.






(** The ternary expression matches at most once in any text: its
    result never has the three elements [detectVersion] waits for. *)
Lemma ternaryFindAll_length (i : nat) (s : string) :
  (length (ternaryFindAll i s) <= 1)%nat.
Proof.
  induction s as [|c s IH]; [simpl; lia|].
  cbn [ternaryFindAll]. destruct (ternaryAt i (String c s)); [simpl; lia | exact IH].
Qed.


End CompiledFields.

(** A confidence value that is no integer compiles to 0, not to 100. *)
Lemma confidence_parse_failure :
  snd (Atoi "high") = false
  /\ confidence (parsePattern (RL := LiteralRegexp.lib) "abc\;confidence:high") = 0
  /\ confidence (parsePattern (RL := LiteralRegexp.lib) "abc\;confidence:high") <> 100.
Proof. repeat split. discriminate. Qed.


(** ** Excludes *)

Section Excludes.
Context {RL : RegexpLib}.

Lemma forPatterns_flat {S : Type} (f : pattern -> S -> S) (patterns : list (string * list pattern)) :
  forall s : S,
    forPatterns patterns (fun _ p s => f p s) s
    = fold_left (fun s p => f p s) (flat_map snd patterns) s.
Proof.
  unfold forPatterns.
  induction patterns as [|kv patterns IH]; intros s; [reflexivity|].
  cbn [fold_left flat_map]. rewrite fold_left_app. apply IH.
Qed.

Lemma fold_delete_lookup (names : list string) :
  forall (d : detected) (k : string),
    fold_left (fun d n => delete n d) names d !! k
    = if decide (k ∈ names) then None else d !! k.
Proof.
  induction names as [|n names IH]; intros d k; cbn [fold_left].
  - rewrite decide_False by apply not_elem_of_nil. reflexivity.
  - rewrite IH. destruct (decide (k ∈ names)) as [Hin|Hin].
    + rewrite decide_True by (right; exact Hin). reflexivity.
    + destruct (decide (k = n)) as [->|Hne].
      * rewrite decide_True by left. apply lookup_delete_eq.
      * rewrite decide_False by (rewrite elem_of_cons; tauto).
        apply lookup_delete_ne. congruence.
Qed.

Lemma excludes_lookup (patterns : list (string * list pattern)) (d : detected) (k : string) :
  forPatterns patterns (fun _ excluded d => delete (str excluded) d) d !! k
  = if decide (k ∈ patternStrs patterns) then None else d !! k.
Proof.
  rewrite (forPatterns_flat (fun p d => delete (str p) d)).
  assert (Hfold : forall (ps : list pattern) (d : detected),
             fold_left (fun d p => delete (str p) d) ps d
             = fold_left (fun d n => delete n d) (map str ps) d).
  { induction ps as [|p ps IH]; intros d0; [reflexivity|]. simpl. apply IH. }
  rewrite Hfold, fold_delete_lookup.
  assert (Hstrs : map str (flat_map snd patterns) = patternStrs patterns).
  { unfold patternStrs. induction patterns as [|kv ps IH]; [reflexivity|].
    cbn [flat_map]. rewrite map_app, IH. reflexivity. }
  rewrite Hstrs. reflexivity.
Qed.

(** C8. For every detection set and every excludes value that
    compiles to patterns, the excludes pass returns the set without
    exactly the entries whose key is the [str] of one of the patterns,
    and the pass applied to its own result returns that result. *)
Theorem resolveExcludes_exact_idempotent (d : detected) (v : value)
    (patterns : list (string * list pattern)) :
  parsePatterns v = Ok patterns ->
  exists d' : detected,
    resolveExcludes d v = Ok d'
    /\ (forall k, d' !! k = if decide (k ∈ patternStrs patterns) then None else d !! k)
    /\ resolveExcludes d' v = Ok d'.
Proof.
  intros Hp. unfold resolveExcludes. rewrite Hp. cbn.
  eexists. split; [reflexivity|]. split.
  - intros k. apply excludes_lookup.
  - f_equal. apply map_eq. intros k. rewrite !excludes_lookup.
    destruct (decide (k ∈ patternStrs patterns)); reflexivity.
Qed.

End Excludes.

(** ** Patterns with an empty body *)

Section EmptyBody.
Context {RL : RegexpLib} {SL : StringsLib} {QL : QueryLib}.

(** An empty body is skipped by the compiler: no [str], no [regex]. *)
Lemma parsePattern_empty_body (s : string) :
  patternBody s = "" -> str (parsePattern s) = "" /\ regex (parsePattern s) = None.
Proof.
  unfold patternBody, parsePattern. intros Hb.
  destruct (split_go_cons "\;" 0 s) as (h & t & Hs). unfold Split in *.
  rewrite Hs in *. simpl in Hb. subst h. cbn [parseItems].
  rewrite parseItem_empty.
  destruct (parseItems_later_keeps t 0
              {| str := ""; regex := None; version := ""; confidence := 100 |}) as [-> ->].
  auto.
Qed.

Lemma hit_dom (app : application) (p : pattern) (v : string) (d : detected) :
  dom (hit app p v d) = {[Name app]} ∪ dom d.
Proof. apply addApp_dom. Qed.

Lemma keyedMatches_empty (p : pattern) (v : string) :
  str p = "" -> keyedMatches p v = true.
Proof. unfold keyedMatches. intros ->. reflexivity. Qed.

Lemma regexMatches_nil (p : pattern) (v : string) :
  regex p = None -> regexMatches p v = false.
Proof. unfold regexMatches. intros ->. reflexivity. Qed.

Lemma parsePatterns_keyed_single (key s : string) :
  parsePatterns (VMap [(key, VString s)]) = Ok [(key, [parsePattern s])].
Proof. reflexivity. Qed.

Lemma parsePatterns_string (s : string) :
  parsePatterns (VString s) = Ok [("main", [parsePattern s])].
Proof. reflexivity. Qed.

End EmptyBody.

(** An empty body under html, with the html there: nothing is detected. *)
Lemma empty_body_html_undetected :
  patternBody "" = ""
  /\ analyzeHTML (RL := LiteralRegexp.lib)
       (withHTML (bareApp "Example") (VString "")) "<html></html>" ∅ = Ok ∅.
Proof. split; reflexivity. Qed.

(** ** Version resolution *)

Section VersionFacts.
Context {RL : RegexpLib}.

(** The ternary branch of [detectVersion] is never taken. *)
Lemma versionStep_backref (i : nat) (m v : string) :
  versionStep i m v = replaceAllBackref i v m.
Proof.
  unfold versionStep. pose proof (ternaryFindAll_length i v) as Hlen.
  destruct (Nat.eqb_spec (length (ternaryFindAll i v)) 3); [lia | reflexivity].
Qed.

End VersionFacts.

(** ** Malformed pattern values *)

(** C5. A pattern list with an element that is not a string makes
    [parsePatterns] panic, at the top level and under a sub-key, and
    the matcher that compiles it panics with it; a value of an
    unexpected type in the other positions is only logged. *)
Theorem parsePatterns_panics_on_non_string (RL : RegexpLib) (d : detected) (html : string) :
  parsePatterns (VList [VString "abc"; VNumber]) = Panic
  /\ parsePatterns (VMap [("Server", VList [VString "abc"; VNumber])]) = Panic
  /\ analyzeHTML (withHTML (bareApp "Example") (VList [VString "abc"; VNumber])) html d = Panic
  /\ parsePatterns VNumber = Ok []
  /\ parsePatterns (VMap [("Server", VNumber)]) = Ok [].
Proof. repeat split. Qed.

(** ** Implies *)

Section Implies.
Context {RL : RegexpLib}.

Lemma foldM_safe {A B : Type} (R : B -> B -> Prop) (f : B -> A -> outcome B) (l : list A)
    (b0 : B) :
  (forall a b c, R a b -> R b c -> R a c) ->
  (forall b a, R b0 b -> safe R b (f b a)) ->
  forall b, R b0 b -> safe R b0 (foldM f l b).
Proof.
  intros Htrans Hf. induction l as [|a l IH]; intros b Hb; [exact Hb|].
  cbn [foldM]. specialize (Hf b a Hb).
  destruct (f b a) as [b'| |]; cbn in Hf |- *; [|exact I|exact Hf].
  apply IH. exact (Htrans _ _ _ Hb Hf).
Qed.

Lemma safe_after {B : Type} (R : B -> B -> Prop) (a b : B) (o : outcome B) :
  (forall a b c, R a b -> R b c -> R a c) -> R a b -> safe R b o -> safe R a o.
Proof.
  intros Htrans Hab. destruct o; cbn; [|auto|auto]. intros Hbc. exact (Htrans _ _ _ Hab Hbc).
Qed.

(** Neither half of [parsePatterns] recurses: it returns or panics. *)
Lemma foldM_fuel_free {A B : Type} (f : B -> A -> outcome B) (l : list A) :
  (forall b a, f b a <> OutOfFuel) -> forall b, foldM f l b <> OutOfFuel.
Proof.
  intros Hf. induction l as [|a l IH]; intros b; [discriminate|].
  cbn [foldM]. specialize (Hf b a). destruct (f b a); cbn; [apply IH | discriminate | congruence].
Qed.

Lemma assertString_append_fuel_free {B : Type} (g : B -> string -> B) (b : B) (v : value) :
  (s ← assertString v; Ok (g b s)) <> OutOfFuel.
Proof. destruct v; discriminate. Qed.

Lemma parsePatterns_fuel_free (v : value) : parsePatterns v <> OutOfFuel.
Proof.
  unfold parsePatterns.
  assert (Hs : parseStrings v <> OutOfFuel).
  { destruct v as [| | |s|l|m]; try discriminate.
    - cbn [parseStrings].
      pose proof (foldM_fuel_free (fun slice v => s ← assertString v; Ok (slice ++ [s])) l
                    (fun b a => assertString_append_fuel_free (fun b s => b ++ [s]) b a) [])
        as Hl.
      destruct (foldM _ l []); cbn; congruence.
    - cbn [parseStrings]. apply foldM_fuel_free. intros parsed [k x]. cbn [fst snd].
      destruct x as [| | |s|content|m']; try discriminate.
      apply foldM_fuel_free. intros b a.
      apply (assertString_append_fuel_free (fun b s => pm_append k s b)). }
  destruct (parseStrings v); cbn; congruence.
Qed.

Lemma grows_refl (apps : gmap string application) (st : detected * list string) :
  grows apps st st.
Proof.
  exists []. split; [rewrite app_nil_r; reflexivity|].
  split; [constructor|]. split; [|split].
  - intros k Hk. apply elem_of_nil in Hk. contradiction.
  - cbn. rewrite union_empty_r_L. reflexivity.
  - reflexivity.
Qed.

Lemma grows_dom (apps : gmap string application) (st st' : detected * list string) :
  grows apps st st' -> dom (fst st) ⊆ dom (fst st').
Proof.
  intros (new & _ & _ & _ & Hdom & _). rewrite Hdom. apply union_subseteq_l.
Qed.

Lemma grows_trans (apps : gmap string application) (a b c : detected * list string) :
  grows apps a b -> grows apps b c -> grows apps a c.
Proof.
  intros (n1 & Hl1 & Hnd1 & Hn1 & Hd1 & Hk1) (n2 & Hl2 & Hnd2 & Hn2 & Hd2 & Hk2).
  exists (n1 ++ n2). split; [rewrite Hl2, Hl1, app_assoc; reflexivity|].
  assert (Hin1 : forall k, k ∈ n1 -> k ∈ dom (fst b)).
  { intros k Hk. rewrite Hd1. apply elem_of_union_r, elem_of_list_to_set, Hk. }
  split; [|split; [|split]].
  - apply NoDup_app. split; [exact Hnd1|]. split; [|exact Hnd2].
    intros k Hk1' Hk2'. destruct (Hn2 k Hk2') as [Hnot _]. exact (Hnot (Hin1 k Hk1')).
  - intros k Hk. apply elem_of_app in Hk as [Hk|Hk].
    + destruct (Hn1 k Hk) as (Hnot & app & p & Ha & Hp & Hb). split; [exact Hnot|].
      exists app, p. rewrite (Hk2 k (Hin1 k Hk)). auto.
    + destruct (Hn2 k Hk) as (Hnot & app & p & Ha & Hp & Hb). split.
      * intros Hka. apply Hnot. rewrite Hd1. apply elem_of_union_l, Hka.
      * exists app, p. auto.
  - rewrite Hd2, Hd1, list_to_set_app_L, union_assoc_L. reflexivity.
  - intros k Hk. rewrite Hk2, Hk1; [reflexivity | exact Hk |].
    rewrite Hd1. apply elem_of_union_l, Hk.
Qed.

(** The insertion of an implied technology. *)
Lemma grows_insert (apps : gmap string application) (st : detected * list string)
    (app : application) (p : pattern) :
  apps !! str p = Some app ->
  fst st !! str p = None ->
  grows apps st (<[str p := impliedApp app p]> (fst st), snd st ++ [str p]).
Proof.
  intros Ha Hd. exists [str p]. cbn [fst snd]. split; [reflexivity|].
  split; [apply NoDup_singleton|]. split; [|split].
  - intros k Hk. apply list_elem_of_singleton in Hk. subst k.
    split; [apply not_elem_of_dom, Hd|].
    exists app, p. rewrite lookup_insert_eq. auto.
  - rewrite dom_insert_L. cbn. rewrite union_empty_r_L. apply union_comm_L.
  - intros k Hk. apply lookup_insert_ne. intros <-.
    apply elem_of_dom in Hk. rewrite Hd in Hk. destruct Hk; discriminate.
Qed.

Lemma undetected_le (apps : gmap string application) (st st' : detected * list string) :
  grows apps st st' ->
  (size (dom apps ∖ dom (fst st')) <= size (dom apps ∖ dom (fst st)))%nat.
Proof.
  intros Hg. apply subseteq_size. pose proof (grows_dom _ _ _ Hg) as Hsub.
  intros k Hk. apply elem_of_difference in Hk as [Hk Hn].
  apply elem_of_difference. split; [exact Hk|]. intros Hd. apply Hn, Hsub, Hd.
Qed.

Lemma undetected_insert (apps : gmap string application) (d : detected) (k : string)
    (app : application) (r : resultApp) :
  apps !! k = Some app -> d !! k = None ->
  (size (dom apps ∖ dom (<[k := r]> d)) < size (dom apps ∖ dom d))%nat.
Proof.
  intros Ha Hd. apply subset_size. split.
  - intros x Hx. apply elem_of_difference in Hx as [Hx Hn].
    apply elem_of_difference. split; [exact Hx|]. intros Hxd. apply Hn.
    rewrite dom_insert_L. apply elem_of_union_r, Hxd.
  - intros Hsub.
    assert (Hk : k ∈ dom apps ∖ dom d).
    { apply elem_of_difference. split; [apply elem_of_dom; eauto | apply not_elem_of_dom, Hd]. }
    apply Hsub, elem_of_difference in Hk as [_ Hn]. apply Hn.
    rewrite dom_insert_L. apply elem_of_union_l, elem_of_singleton. reflexivity.
Qed.

(** With fuel above the number of catalog technologies not yet
    detected, the pass returns or panics, and its state grows. *)
Lemma resolveImplies_safe (apps : gmap string application) (fuel : nat) :
  forall (st : detected * list string) (v : value),
    (size (dom apps ∖ dom (fst st)) < fuel)%nat ->
    safe (grows apps) st (resolveImplies fuel apps st v).
Proof.
  induction fuel as [|fuel IH]; intros st v Hm; [lia|].
  cbn [resolveImplies]. pose proof (parsePatterns_fuel_free v) as Hp.
  destruct (parsePatterns v) as [patterns| |]; cbn; [|exact I|congruence].
  apply foldM_safe; [apply grows_trans| |apply grows_refl].
  intros st1 kv Hst1.
  apply foldM_safe; [apply grows_trans| |apply grows_refl].
  intros st2 implied Hst2.
  pose proof (grows_trans _ _ _ _ Hst1 Hst2) as Hst.
  destruct (apps !! str implied) as [app|] eqn:Ha; [|apply grows_refl].
  destruct (fst st2 !! str implied) as [found|] eqn:Hd; [apply grows_refl|].
  pose proof (grows_insert apps st2 app implied Ha Hd) as Hins.
  destruct (isNil (Implies app)); [exact Hins|].
  apply (safe_after _ _ _ _ (grows_trans apps) Hins).
  apply IH. cbn [fst].
  pose proof (undetected_insert apps (fst st2) (str implied) app (impliedApp app implied) Ha Hd).
  pose proof (undetected_le apps st st2 Hst). lia.
Qed.

End Implies.

(** ** [Analyze] and [Init] *)

Section EngineFacts.
Context {RL : RegexpLib} {SL : StringsLib} {QL : QueryLib} {JL : JSONLib} {MR : MapRange}.

Lemma bind_fuel_free {A B : Type} (m : outcome A) (f : A -> outcome B) :
  m <> OutOfFuel -> (forall a, f a <> OutOfFuel) -> (m ≫= f) <> OutOfFuel.
Proof.
  intros Hm Hf. destruct m; cbn; [apply Hf | discriminate | congruence].
Qed.

Lemma compiled_fuel_free {B : Type} (v : value) (f : list (string * list pattern) -> B) :
  (patterns ← parsePatterns v; Ok (f patterns)) <> OutOfFuel.
Proof.
  apply bind_fuel_free; [apply parsePatterns_fuel_free | discriminate].
Qed.

Lemma when_fuel_free (b : bool) (f : detected -> outcome detected) (d : detected) :
  (forall d, f d <> OutOfFuel) -> when b f d <> OutOfFuel.
Proof. intros Hf. unfold when. destruct b; [apply Hf | discriminate]. Qed.

Lemma analyseDom_fuel_free (app : application) (html : string) (d : detected) :
  analyseDom app html d <> OutOfFuel.
Proof.
  unfold analyseDom. apply foldM_fuel_free. intros d1 sel.
  destruct (FindFirst html (fst sel)); [|discriminate].
  apply foldM_fuel_free. intros d2 tv. apply compiled_fuel_free.
Qed.

Lemma analyzeApp_fuel_free (scraper : Scraper) (canRenderPage : bool) (paramURL : string)
    (scraped : ScrapedData) (d : detected) (app : application) :
  analyzeApp scraper canRenderPage paramURL scraped d app <> OutOfFuel.
Proof.
  unfold analyzeApp.
  apply bind_fuel_free; [apply compiled_fuel_free | intros d1].
  apply bind_fuel_free; [apply when_fuel_free; intros; apply compiled_fuel_free | intros d2].
  apply bind_fuel_free; [apply when_fuel_free; intros; apply analyseDom_fuel_free | intros d3].
  apply bind_fuel_free; [apply when_fuel_free; intros; apply compiled_fuel_free | intros d4].
  apply bind_fuel_free; [apply when_fuel_free; intros; apply compiled_fuel_free | intros d5].
  apply bind_fuel_free; [apply when_fuel_free; intros; apply compiled_fuel_free | intros d6].
  apply bind_fuel_free; [apply when_fuel_free; intros; apply compiled_fuel_free | intros d7].
  apply bind_fuel_free; [apply when_fuel_free; intros; apply compiled_fuel_free | intros d8].
  apply when_fuel_free; intros; apply compiled_fuel_free.
Qed.

Lemma resolveImplies_fuel_suffices (apps : gmap string application) (d : detected) (v : value) :
  resolveImplies (S (size apps)) apps (d, []) v <> OutOfFuel.
Proof.
  assert (Hm : (size (dom apps ∖ dom d) < S (size apps))%nat).
  { rewrite <- (size_dom apps). apply Nat.lt_succ_r, subseteq_size.
    intros k Hk. apply elem_of_difference in Hk as [Hk _]. exact Hk. }
  pose proof (resolveImplies_safe apps _ (d, []) v Hm) as Hsafe.
  intros Hout. rewrite Hout in Hsafe. exact Hsafe.
Qed.

Lemma postProcess_fuel_free (apps : gmap string application) (d : detected) :
  postProcess apps d <> OutOfFuel.
Proof.
  unfold postProcess. apply foldM_fuel_free. intros d1 k. unfold postStep.
  destruct (d1 !! k) as [app|]; [|discriminate].
  apply bind_fuel_free.
  - destruct (isNil (excludes app)); [discriminate|]. apply compiled_fuel_free.
  - intros d2. destruct (isNil (implies app)); [discriminate|].
    apply bind_fuel_free; [apply resolveImplies_fuel_suffices | discriminate].
Qed.

(** The fuel [Analyze] gives the implies pass is enough: a call of
    [Analyze] returns or panics. *)
Lemma Analyze_fuel_free (wapp : Wappalyzer) (paramURL : string) :
  Analyze wapp paramURL <> OutOfFuel.
Proof.
  unfold Analyze. destruct (wScraper wapp) as [scraper|]; [|discriminate].
  destruct (validateURL paramURL); cbn [negb]; [|discriminate].
  apply bind_fuel_free.
  - apply foldM_fuel_free. intros d kv. apply analyzeApp_fuel_free.
  - intros d. apply bind_fuel_free; [apply postProcess_fuel_free|].
    intros d'. destruct (wJSON wapp); [|discriminate].
    destruct (Marshal _); discriminate.
Qed.

(** An input that fails validation is scraped all the same: the call
    of [Scrape] comes first. *)
Lemma Analyze_invalid_url (wapp : Wappalyzer) (scraper : Scraper) (url : string) :
  wScraper wapp = Some scraper ->
  validateURL url = false ->
  Analyze wapp url =
    Ok {| scrapes := [url];
          result := Some (Structured {| urls := []; technologies := [] |});
          err := Some "UrlNotValid" |}.
Proof.
  intros Hs Hv. unfold Analyze. rewrite Hs, Hv. reflexivity.
Qed.

(** C4. On the input [not a url], which fails validation, [Analyze]
    returns the error [UrlNotValid] with an empty result, and has
    invoked [Scrape] on the input. *)
Theorem Analyze_scrapes_invalid_url (scraper : Scraper) (apps : gmap string application)
    (cats : gmap string category) (json : bool) :
  validateURL "not a url" = false
  /\ Analyze {| wScraper := Some scraper; wApps := apps; wCategories := cats; wJSON := json |}
       "not a url"
     = Ok {| scrapes := ["not a url"];
             result := Some (Structured {| urls := []; technologies := [] |});
             err := Some "UrlNotValid" |}.
Proof.
  split; [reflexivity|]. apply (Analyze_invalid_url _ scraper); reflexivity.
Qed.

End EngineFacts.

Section InitFacts.

Lemma loadCatalog_scraper (env : InitEnv) (config : Config) (s1 s2 : Scraper)
    (appsFile : string) :
  initResult (loadCatalog env config s1 appsFile)
  = initResult (loadCatalog env config s2 appsFile).
Proof.
  unfold loadCatalog.
  destruct (UnmarshalCatalog env appsFile) as [e|[rawCategories rawApps]]; [reflexivity|].
  destruct (loadCategories env rawCategories ∅) as [e|cats]; [reflexivity|].
  destruct (loadApps env rawApps cats ∅) as [[e|apps]| |]; reflexivity.
Qed.

Lemma loadCategories_silenced (env : InitEnv) (raw : list (string * string)) :
  forall cats, loadCategories (silenced env) raw cats = loadCategories env raw cats.
Proof.
  induction raw as [|[k v] raw IH]; intros cats; [reflexivity|].
  cbn. destruct (UnmarshalCategory env v); [reflexivity | apply IH].
Qed.

Lemma loadApps_silenced (env : InitEnv) (raw : list (string * string))
    (cats : gmap string category) :
  forall apps, loadApps (silenced env) raw cats apps = loadApps env raw cats apps.
Proof.
  induction raw as [|[k v] raw IH]; intros apps; [reflexivity|].
  cbn. destruct (UnmarshalApp env k v) as [e|app]; [reflexivity|].
  destruct (parseCategories app cats); cbn; [apply IH | reflexivity | reflexivity].
Qed.

Lemma loadCatalog_silenced (env : InitEnv) (config : Config) (s : Scraper) (appsFile : string) :
  loadCatalog (silenced env) config s appsFile = loadCatalog env config s appsFile.
Proof.
  unfold loadCatalog. cbn [UnmarshalCatalog silenced].
  destruct (UnmarshalCatalog env appsFile) as [e|[rawCategories rawApps]]; [reflexivity|].
  rewrite loadCategories_silenced.
  destruct (loadCategories env rawCategories ∅) as [e|cats]; [reflexivity|].
  rewrite loadApps_silenced. reflexivity.
Qed.

(** C9. The error of the scraper's [Init()] does not reach the caller
    of the core's [Init]: what [Init] returns is the same, the stored
    scraper apart, as in the environment whose scrapers report no
    error.  With a scraper that cannot reach its browser and a catalog
    that loads, [Init] returns an engine and a nil error. *)
Theorem Init_drops_scraper_error (env : InitEnv) (config : Config) :
  initResult (Init env config) = initResult (Init (silenced env) config)
  /\ scraperInit (rodScraper brokenEnv NewConfig) = Some "no browser"
  /\ Init brokenEnv NewConfig =
       Ok (Some {| wScraper := Some brokenScraper; wApps := ∅; wCategories := ∅;
                   wJSON := true |}, None).
Proof.
  split; [|split; reflexivity].
  unfold Init. cbn [collyScraper rodScraper silenced Stat ReadFile embeddedAsset].
  destruct (String.eqb (cfgScraper config) "colly");
    [|destruct (String.eqb (cfgScraper config) "rod"); [|reflexivity]].
  all: cbv zeta;
    match goal with
    | |- context [if ?c then _ else _] => destruct c
    end;
    [ destruct (embeddedAsset env) as [appsFile [e|]]; [reflexivity|] | ];
    rewrite loadCatalog_silenced; apply loadCatalog_scraper.
Qed.

End InitFacts.

(** ** Worked examples *)

(** Two patterns of different confidence and a late version: one
    entry, the higher confidence, the first version that is not empty. *)
Lemma addApp_sequence_example :
  fold_left addCall drupalCalls ∅ !! "Drupal" =
    Some {| rName := "Drupal"; rVersion := "8.1"; rCategories := [];
            rConfidence := 100; excludes := VNil; implies := VNil |}.
Proof.
  exact (proj1 (addApp_sequence "Drupal" ∅ (bareApp "Drupal", "", 50)
                  [(bareApp "Drupal", "8.1", 100); (bareApp "Drupal", "9", 30)]
                  (lookup_empty _)
                  ltac:(repeat constructor))).
Defined.

(** Apache excludes nginx: nginx leaves the set, and a second pass
    changes nothing. *)
Lemma resolveExcludes_example :
  exists d',
    resolveExcludes (RL := LiteralRegexp.lib) twoServers (VString "nginx") = Ok d'
    /\ d' !! "nginx" = None
    /\ d' !! "Apache" = Some (serverEntry "Apache" (VString "nginx"))
    /\ resolveExcludes (RL := LiteralRegexp.lib) d' (VString "nginx") = Ok d'.
Proof.
  destruct (resolveExcludes_exact_idempotent (RL := LiteralRegexp.lib) twoServers
              (VString "nginx") _ eq_refl) as (d' & Hd & Hk & Hi).
  exists d'. split; [exact Hd|]. split; [|split; [|exact Hi]].
  - rewrite Hk. reflexivity.
  - rewrite Hk. reflexivity.
Defined.

(** * Further properties of the engine *)

(** ** What [parsePatterns] returns *)

Section Grouping.
Context {RL : RegexpLib}.

Lemma foldM_assert {B : Type} (g : B -> string -> B) (l : list value) :
  forall b : B,
    foldM (fun b v => s ← assertString v; Ok (g b s)) l b
    = if forallb isString l then Ok (fold_left g (stringsOf l) b) else Panic.
Proof.
  induction l as [|v l IH]; intros b; [reflexivity|].
  cbn [foldM forallb]. destruct v; cbn; try reflexivity. apply IH.
Qed.

Lemma pm_get_append {A : Type} (k k' : string) (x : A) (m : list (string * list A)) :
  pm_get k (pm_append k' x m)
  = if String.eqb k k' then pm_get k m ++ [x] else pm_get k m.
Proof.
  induction m as [|[k0 xs] m IH]; cbn.
  - destruct (String.eqb k k'); reflexivity.
  - destruct (String.eqb_spec k' k0) as [->|Hne]; cbn.
    + destruct (String.eqb k k0); reflexivity.
    + destruct (String.eqb_spec k k0) as [->|Hk].
      * destruct (String.eqb_spec k0 k'); [congruence | reflexivity].
      * exact IH.
Qed.

Lemma pm_append_keys {A : Type} (k : string) (x : A) (m : list (string * list A)) :
  map fst (pm_append k x m) = if bool_decide (k ∈ map fst m) then map fst m
                              else map fst m ++ [k].
Proof.
  induction m as [|[k0 xs] m IH]; [reflexivity|]. cbn [pm_append map fst].
  destruct (String.eqb_spec k k0) as [->|Hne].
  - rewrite bool_decide_eq_true_2 by left. reflexivity.
  - cbn [map fst]. rewrite IH. destruct (bool_decide_reflect (k ∈ map fst m)) as [Hin|Hin].
    + rewrite bool_decide_eq_true_2 by (right; exact Hin). reflexivity.
    + rewrite bool_decide_eq_false_2; [reflexivity|].
      rewrite elem_of_cons. tauto.
Qed.

Lemma grouped_nil {A : Type} : grouped (@nil (string * list A)).
Proof. split; constructor. Qed.

Lemma grouped_append {A : Type} (k : string) (x : A) (m : list (string * list A)) :
  grouped m -> grouped (pm_append k x m).
Proof.
  intros [Hnd Hne]. split.
  - rewrite pm_append_keys. destruct (bool_decide_reflect (k ∈ map fst m)) as [Hin|Hin];
      [exact Hnd|].
    apply NoDup_app. split; [exact Hnd|]. split; [|apply NoDup_singleton].
    intros y Hy Hy'. apply list_elem_of_singleton in Hy'. subst y. exact (Hin Hy).
  - clear Hnd. induction m as [|[k0 xs] m IH]; cbn.
    + repeat constructor. discriminate.
    + apply Forall_cons in Hne as [H0 Hne].
      destruct (String.eqb k k0); constructor; cbn in *; auto.
      intros Happ. apply app_eq_nil in Happ as [_ Hx]. discriminate.
Qed.

Lemma grouped_fold {A B : Type} (key : B -> string) (val : B -> A) (l : list B) :
  forall m : list (string * list A),
    grouped m -> grouped (fold_left (fun m b => pm_append (key b) (val b) m) l m).
Proof.
  induction l as [|b l IH]; intros m Hm; [exact Hm|].
  cbn. apply IH, grouped_append, Hm.
Qed.

Lemma pm_get_fold {A B : Type} (k k' : string) (val : B -> A) (l : list B) :
  forall m : list (string * list A),
    pm_get k (fold_left (fun m b => pm_append k' (val b) m) l m)
    = if String.eqb k k' then pm_get k m ++ map val l else pm_get k m.
Proof.
  induction l as [|b l IH]; intros m; cbn.
  - destruct (String.eqb k k'); [rewrite app_nil_r|]; reflexivity.
  - rewrite IH, pm_get_append. destruct (String.eqb k k'); [|reflexivity].
    rewrite <- app_assoc. reflexivity.
Qed.

Lemma fold_snoc {A : Type} (l : list A) :
  forall acc : list A, fold_left (fun slice s => slice ++ [s]) l acc = acc ++ l.
Proof.
  induction l as [|x l IH]; intros acc; cbn; [rewrite app_nil_r; reflexivity|].
  rewrite IH, <- app_assoc. reflexivity.
Qed.

Lemma parseStrings_map (m : list (string * value)) :
  forallb (fun kv => match snd kv with
                     | VList l => forallb isString l
                     | _ => true
                     end) m = true ->
  forall parsed,
    foldM (fun parsed kv =>
             match snd kv with
             | VString content => Ok (pm_append (fst kv) content parsed)
             | VList content =>
                 foldM (fun parsed v1 => s ← assertString v1; Ok (pm_append (fst kv) s parsed))
                       content parsed
             | _ => Ok parsed
             end) m parsed
    = Ok (fold_left fileField m parsed).
Proof.
  induction m as [|[k v] m IH]; intros Hm parsed; [reflexivity|].
  cbn [forallb] in Hm. apply andb_true_iff in Hm as [Hv Hm]. cbn [snd] in Hv.
  cbn [foldM fold_left fst snd]. unfold fileField at 2. cbn [fst snd].
  destruct v as [| | |s|l|m']; cbn [fieldStrings fold_left mbind outcome_bind];
    try (apply IH; exact Hm).
  rewrite (foldM_assert (fun parsed s => pm_append k s parsed)), Hv. cbn.
  apply IH, Hm.
Qed.

Lemma fileField_grouped (kv : string * value) (parsed : list (string * list string)) :
  grouped parsed -> grouped (fileField parsed kv).
Proof. apply (grouped_fold (fun _ => fst kv) (fun s => s)). Qed.

Lemma fileField_get (k : string) (kv : string * value) (parsed : list (string * list string)) :
  pm_get k (fileField parsed kv)
  = pm_get k parsed ++ (if String.eqb k (fst kv) then fieldStrings (snd kv) else []).
Proof.
  unfold fileField. rewrite (pm_get_fold k (fst kv) (fun s => s)).
  destruct (String.eqb k (fst kv)); [rewrite map_id|rewrite app_nil_r]; reflexivity.
Qed.

Lemma fold_fileField (m : list (string * value)) :
  forall parsed,
    grouped parsed ->
    grouped (fold_left fileField m parsed)
    /\ forall k, pm_get k (fold_left fileField m parsed)
                 = pm_get k parsed
                   ++ flat_map (fun kv => if String.eqb k (fst kv)
                                          then fieldStrings (snd kv) else []) m.
Proof.
  induction m as [|kv m IH]; intros parsed Hp; cbn [fold_left flat_map].
  - split; [exact Hp|]. intros k. rewrite app_nil_r. reflexivity.
  - destruct (IH (fileField parsed kv) (fileField_grouped kv parsed Hp)) as [Hg Hk].
    split; [exact Hg|]. intros k. rewrite Hk, fileField_get, <- app_assoc. reflexivity.
Qed.

(** The strings of a well-formed pattern value, grouped. *)
Lemma parseStrings_grouped (v : value) :
  listsHoldStrings v = true ->
  exists parsed,
    parseStrings v = Ok parsed
    /\ NoDup (map fst parsed)
    /\ (forall k, pm_get k parsed = stringsUnder k v).
Proof.
  destruct v as [| | |s|l|m]; cbn [listsHoldStrings parseStrings]; intros Hv.
  - exists []. repeat split; constructor.
  - exists []. repeat split; constructor.
  - exists []. repeat split; constructor.
  - eexists. split; [reflexivity|]. split; [repeat constructor; apply not_elem_of_nil|].
    intros k. cbn. destruct (String.eqb k "main"); reflexivity.
  - rewrite (foldM_assert (fun slice s => slice ++ [s])), Hv. cbn.
    eexists. split; [reflexivity|]. split; [repeat constructor; apply not_elem_of_nil|].
    intros k. cbn. rewrite fold_snoc. reflexivity.
  - rewrite (parseStrings_map m Hv).
    destruct (fold_fileField m [] grouped_nil) as [[Hnd _] Hk].
    eexists. split; [reflexivity|]. split; [exact Hnd|].
    intros k. rewrite Hk. reflexivity.
Qed.

Lemma parseStrings_map_panics (m : list (string * value)) :
  forallb (fun kv => match snd kv with
                     | VList l => forallb isString l
                     | _ => true
                     end) m = false ->
  forall parsed,
    foldM (fun parsed kv =>
             match snd kv with
             | VString content => Ok (pm_append (fst kv) content parsed)
             | VList content =>
                 foldM (fun parsed v1 => s ← assertString v1; Ok (pm_append (fst kv) s parsed))
                       content parsed
             | _ => Ok parsed
             end) m parsed
    = Panic.
Proof.
  induction m as [|[k v] m IH]; intros Hm parsed; [discriminate|].
  cbn [forallb snd] in Hm. cbn [foldM fst snd].
  destruct v as [| | |s|l|m']; cbn [mbind outcome_bind]; try (apply IH; exact Hm).
  rewrite (foldM_assert (fun parsed s => pm_append k s parsed)).
  destruct (forallb isString l); cbn; [apply IH; exact Hm | reflexivity].
Qed.

Lemma pm_get_unique {A : Type} (k : string) (m : list (string * list A)) :
  NoDup (map fst m) ->
  flat_map (fun kv => if String.eqb k (fst kv) then snd kv else []) m = pm_get k m.
Proof.
  induction m as [|[k0 xs] m IH]; intros Hnd; [reflexivity|].
  cbn [map fst] in Hnd. apply NoDup_cons in Hnd as [Hk0 Hnd].
  cbn [flat_map pm_get fst snd]. rewrite (IH Hnd).
  destruct (String.eqb_spec k k0) as [->|Hne]; [|reflexivity].
  assert (Hget : pm_get k0 m = []).
  { clear IH Hnd. induction m as [|[k1 ys] m IH]; [reflexivity|].
    cbn [map fst] in Hk0. apply not_elem_of_cons in Hk0 as [Hne Hk0].
    cbn. destruct (String.eqb_spec k0 k1); [congruence | exact (IH Hk0)]. }
  rewrite Hget, app_nil_r. reflexivity.
Qed.

(** The second half of [parsePatterns] keeps the grouping. *)
Lemma compileStrings_get (parsed : list (string * list string)) :
  grouped (compileStrings parsed)
  /\ forall k, pm_get k (compileStrings parsed)
               = map parsePattern
                     (flat_map (fun kv => if String.eqb k (fst kv) then snd kv else []) parsed).
Proof.
  unfold compileStrings.
  assert (H : forall result,
             grouped result ->
             grouped (fold_left (fun result kv =>
                         fold_left (fun result s => pm_append (fst kv) (parsePattern s) result)
                                   (snd kv) result) parsed result)
             /\ forall k,
                 pm_get k (fold_left (fun result kv =>
                         fold_left (fun result s => pm_append (fst kv) (parsePattern s) result)
                                   (snd kv) result) parsed result)
                 = pm_get k result
                   ++ map parsePattern
                        (flat_map (fun kv => if String.eqb k (fst kv) then snd kv else [])
                                  parsed)).
  { induction parsed as [|kv parsed IH]; intros result Hr; cbn [fold_left flat_map].
    - split; [exact Hr|]. intros k. rewrite app_nil_r. reflexivity.
    - destruct (IH _ (grouped_fold (fun _ => fst kv) parsePattern (snd kv) result Hr))
        as [Hg Hk].
      split; [exact Hg|]. intros k.
      rewrite Hk, (pm_get_fold k (fst kv) parsePattern), map_app.
      destruct (String.eqb k (fst kv)); [rewrite <- app_assoc|]; reflexivity. }
  destruct (H [] grouped_nil) as [Hg Hk]. split; [exact Hg|]. exact Hk.
Qed.

(** X1. [parsePatterns] panics exactly on the pattern values that
    hold a list with an element that is not a string; on every other
    value it returns. *)
Theorem parsePatterns_panics_iff (v : value) :
  (parsePatterns v = Panic <-> listsHoldStrings v = false)
  /\ (listsHoldStrings v = true <-> exists result, parsePatterns v = Ok result).
Proof.
  assert (Hok : listsHoldStrings v = true -> exists result, parsePatterns v = Ok result).
  { intros Hv. destruct (parseStrings_grouped v Hv) as (parsed & Hp & _).
    unfold parsePatterns. rewrite Hp. eexists. reflexivity. }
  assert (Hpanic : listsHoldStrings v = false -> parsePatterns v = Panic).
  { intros Hv. unfold parsePatterns.
    destruct v as [| | |s|l|m]; try discriminate; cbn [listsHoldStrings parseStrings] in *.
    - rewrite (foldM_assert (fun slice s => slice ++ [s])), Hv. reflexivity.
    - rewrite (parseStrings_map_panics m Hv). reflexivity. }
  split; split.
  - intros Hp. destruct (listsHoldStrings v) eqn:Hv; [|reflexivity].
    destruct (Hok eq_refl) as (result & Hr). congruence.
  - exact Hpanic.
  - exact Hok.
  - intros (result & Hr). destruct (listsHoldStrings v) eqn:Hv; [reflexivity|].
    rewrite (Hpanic eq_refl) in Hr. discriminate.
Qed.

(** X2. On a pattern value whose lists hold strings only,
    [parsePatterns] returns one entry per sub-key, none of them empty,
    and the patterns under a sub-key are the compiled pattern strings
    the value holds for it, in catalog order, the flat forms under
    [main]. *)
Theorem parsePatterns_grouped (v : value) :
  listsHoldStrings v = true ->
  exists result,
    parsePatterns v = Ok result
    /\ NoDup (map fst result)
    /\ Forall (fun kv => snd kv <> []) result
    /\ (forall k, pm_get k result = map parsePattern (stringsUnder k v)).
Proof.
  intros Hv. destruct (parseStrings_grouped v Hv) as (parsed & Hp & Hnd & Hget).
  unfold parsePatterns. rewrite Hp. cbn.
  destruct (compileStrings_get parsed) as [[Hnd' Hne] Hk].
  eexists. split; [reflexivity|]. split; [exact Hnd'|]. split; [exact Hne|].
  intros k. rewrite Hk, (pm_get_unique k parsed Hnd), Hget. reflexivity.
Qed.

End Grouping.

(** A headers group in the three shapes a catalog uses. *)
Lemma parsePatterns_grouped_example :
  exists result,
    parsePatterns (RL := LiteralRegexp.lib)
      (VMap [("Server", VString "nginx"); ("X-Powered-By", VList [VString "php"; VString "asp"]);
             ("Via", VList [])]) = Ok result
    /\ pm_get "X-Powered-By" result
       = [parsePattern (RL := LiteralRegexp.lib) "php"; parsePattern (RL := LiteralRegexp.lib) "asp"]
    /\ pm_get "Via" result = [].
Proof.
  destruct (parsePatterns_grouped (RL := LiteralRegexp.lib)
              (VMap [("Server", VString "nginx");
                     ("X-Powered-By", VList [VString "php"; VString "asp"]);
                     ("Via", VList [])]) eq_refl) as (result & Hr & _ & _ & Hk).
  exists result. split; [exact Hr|]. split; [exact (Hk "X-Powered-By") | exact (Hk "Via")].
Defined.

(** ** Fields and bodies of a pattern string *)

Section FieldFacts.
Context {RL : RegexpLib}.

Lemma Split_colon_whole (f : string) :
  Contains f ":" = false -> Split f ":" = [f].
Proof.
  unfold Split. induction f as [|c f IH]; intros Hc; [reflexivity|].
  apply Contains_cons_false in Hc as [Hp Hc].
  cbn [split_go]. rewrite Hp, (IH Hc). reflexivity.
Qed.

Lemma parseItem_ignored (i : nat) (f : string) (p : pattern) :
  Contains f ":" = false \/ (untilColon f <> "version" /\ untilColon f <> "confidence") ->
  parseItem (S i) f p = p.
Proof.
  intros Hf. unfold parseItem. destruct (String.eqb f ""); [reflexivity|].
  change (0 <? S i)%nat with true. cbv iota. destruct Hf as [Hc|[Hv Hc]].
  - rewrite (Split_colon_whole f Hc). reflexivity.
  - destruct (Split_colon_head f) as (t & ->). cbn [nth].
    destruct (1 <? length (untilColon f :: t))%nat; [|reflexivity].
    destruct (String.eqb_spec (untilColon f) "version"); [contradiction|].
    destruct (String.eqb_spec (untilColon f) "confidence"); [contradiction|].
    reflexivity.
Qed.


(** The first field is the body: it gives [str] and [regex]. *)
Lemma parsePattern_body (s : string) :
  patternBody s <> "" ->
  str (parsePattern s) = patternBody s
  /\ regex (parsePattern s) = Compile (regexSource (patternBody s)).
Proof.
  unfold patternBody, parsePattern. intros Hb.
  destruct (split_go_cons "\;" 0 s) as (h & t & Hs). unfold Split in *.
  rewrite Hs in *. cbn [nth] in Hb. cbn [parseItems nth].
  rewrite (parseItem_body h {| str := ""; regex := None; version := ""; confidence := 100 |}
             Hb eq_refl).
  cbn [version confidence].
  destruct (parseItems_later_keeps t 0
              {| str := h; regex := Compile (regexSource h); version := "";
                 confidence := 100 |}) as [-> ->].
  auto.
Qed.

End FieldFacts.

Section Inert.
Context {RL : RegexpLib} {SL : StringsLib} {QL : QueryLib}.

Lemma keyed_fold_misses (app : application) (p : pattern) (values : list string) :
  (forall v, keyedMatches p v = false) ->
  forall d : detected,
    fold_left (fun d v => if keyedMatches p v then hit app p v d else d) values d = d.
Proof.
  intros Hp. induction values as [|v values IH]; intros d; [reflexivity|].
  cbn [fold_left]. rewrite Hp. apply IH.
Qed.

(** X4. A pattern whose body the regexp compiler rejects is inert but
    no error: it keeps its [str], has no [regex], and alone under its
    sub-key it leaves the detection set as it was under every evidence
    kind, whatever the evidence. *)
Theorem malformed_pattern_inert (s key : string) (app : application) (d : detected) :
  patternBody s <> "" ->
  Compile (regexSource (patternBody s)) = None ->
  str (parsePattern s) = patternBody s
  /\ regex (parsePattern s) = None
  /\ (forall url, URL app = s -> analyzeURL app url d = Ok d)
  /\ (forall html, HTML app = VString s -> analyzeHTML app html d = Ok d)
  /\ (forall scripts, Scripts app = VString s -> analyzeScripts app scripts d = Ok d)
  /\ (forall headers, Headers app = VMap [(key, VString s)] ->
        analyzeHeaders app headers d = Ok d)
  /\ (forall cookies, Cookies app = VMap [(key, VString s)] ->
        analyzeCookies app cookies d = Ok d)
  /\ (forall metas, Meta app = VMap [(key, VString s)] -> analyzeMeta app metas d = Ok d)
  /\ (forall dns, DNS app = VMap [(key, VString s)] -> analyseDNS app dns d = Ok d)
  /\ (forall evalJS, Js app = VMap [(key, VString s)] -> analyseJS app evalJS d = Ok d)
  /\ (forall html domType, Dom app = Some [(key, [(domType, VString s)])] ->
        analyseDom app html d = Ok d).
Proof.
  intros Hb Hc. destruct (parsePattern_body s Hb) as [Hstr Hre]. rewrite Hc in Hre.
  assert (Hr : forall v, regexMatches (parsePattern s) v = false).
  { intros v. apply regexMatches_nil, Hre. }
  assert (Hk : forall v, keyedMatches (parsePattern s) v = false).
  { intros v. unfold keyedMatches. rewrite Hr, Hstr.
    destruct (String.eqb_spec (patternBody s) ""); [contradiction | reflexivity]. }
  split; [exact Hstr|]. split; [exact Hre|]. repeat apply conj.
  - intros url Hu. unfold analyzeURL. rewrite Hu, parsePatterns_string. cbn.
    rewrite Hr. reflexivity.
  - intros html Hh. unfold analyzeHTML. rewrite Hh, parsePatterns_string. cbn.
    rewrite Hr. reflexivity.
  - intros scripts Hs. unfold analyzeScripts. rewrite Hs, parsePatterns_string. cbn.
    rewrite Hre. reflexivity.
  - intros headers Hh. unfold analyzeHeaders. rewrite Hh, parsePatterns_keyed_single. cbn.
    destruct (headers !! ToLower key); [|reflexivity].
    rewrite (keyed_fold_misses app _ _ Hk). reflexivity.
  - intros cookies Hh. unfold analyzeCookies. rewrite Hh, parsePatterns_keyed_single. cbn.
    destruct (cookies !! ToLower key); [|reflexivity]. rewrite Hk. reflexivity.
  - intros metas Hh. unfold analyzeMeta. rewrite Hh, parsePatterns_keyed_single. cbn.
    destruct (metas !! ToLower key); [|reflexivity].
    rewrite (keyed_fold_misses app _ _ Hk). reflexivity.
  - intros dns Hh. unfold analyseDNS. rewrite Hh, parsePatterns_keyed_single. cbn.
    destruct (dns !! ToUpper key); [|reflexivity].
    rewrite (keyed_fold_misses app _ _ Hk). reflexivity.
  - intros evalJS Hh. unfold analyseJS. rewrite Hh, parsePatterns_keyed_single. cbn.
    destruct (evalJS key); [|reflexivity]. rewrite Hk. reflexivity.
  - intros html domType Hh. unfold analyseDom. rewrite Hh. cbn.
    destruct (FindFirst html key); cbn; [|reflexivity]. rewrite Hk. reflexivity.
Qed.

End Inert.


(** An unbalanced parenthesis under html. *)
Lemma malformed_pattern_inert_example :
  regex (parsePattern (RL := LiteralRegexp.lib) "a(b\;confidence:50") = None
  /\ analyzeHTML (RL := LiteralRegexp.lib)
       (withHTML (bareApp "Example") (VString "a(b\;confidence:50")) "<p>a(b</p>" ∅ = Ok ∅.
Proof.
  destruct (malformed_pattern_inert (RL := LiteralRegexp.lib) (SL := AsciiStrings.lib)
              (QL := EmptyDocument.lib) "a(b\;confidence:50" "main"
              (withHTML (bareApp "Example") (VString "a(b\;confidence:50")) ∅
              ltac:(discriminate) eq_refl) as (_ & Hre & _ & Hh & _).
  split; [exact Hre | exact (Hh "<p>a(b</p>" eq_refl)].
Defined.

(** ** The expression compiled for a body *)

Section Escaping.

Lemma Replace_absent (s old new : string) :
  Contains s old = false -> Replace s old new = s.
Proof.
  unfold Replace. induction s as [|c s IH]; intros Hc; [reflexivity|].
  apply Contains_cons_false in Hc as [Hp Hc].
  cbn [replace_go]. rewrite Hp, (IH Hc). reflexivity.
Qed.

Lemma HasPrefix_first (s p : string) (c : ascii) :
  HasPrefix s (String c p) = true -> HasPrefix s (String c "") = true.
Proof.
  destruct s as [|a s]; cbn; [discriminate|].
  destruct (Ascii.eqb a c); [reflexivity | discriminate].
Qed.

(** A text without the first byte of [p] does not contain [p]. *)
Lemma Contains_first (s p : string) (c : ascii) :
  Contains s (String c "") = false -> Contains s (String c p) = false.
Proof.
  induction s as [|a s IH]; intros Hc.
  - reflexivity.
  - apply Contains_cons_false in Hc as [Hp Hc]. cbn [Contains].
    rewrite (IH Hc), orb_false_r.
    destruct (HasPrefix (String a s) (String c p)) eqn:H; [|reflexivity].
    apply HasPrefix_first in H. congruence.
Qed.

Lemma unescape_slashes (b : string) :
  Contains b "\" = false -> Replace (Replace b "/" "\/") "\/" "/" = b.
Proof.
  unfold Replace. induction b as [|c b IH]; intros Hc; [reflexivity|].
  apply Contains_cons_false in Hc as [Hp Hc]. specialize (IH Hc).
  cbn in Hp. cbn [replace_go HasPrefix].
  destruct (Ascii.eqb_spec c "/") as [->|Hne].
  - cbn. cbv [String.append]. cbn. rewrite IH. reflexivity.
  - cbn [replace_go HasPrefix]. destruct (Ascii.eqb c "\"); [discriminate|].
    rewrite IH. reflexivity.
Qed.

(** X5. For a body without a backslash, the expression handed to the
    regexp compiler is [(?i)] followed by the body with every slash
    escaped; the body with its slashes already escaped gives the same
    expression. *)
Theorem regexSource_slashes (b : string) :
  Contains b "\" = false ->
  regexSource b = ("(?i)" ++ Replace b "/" "\/")%string
  /\ regexSource (Replace b "/" "\/") = regexSource b.
Proof.
  intros Hb.
  assert (H1 : regexSource b = ("(?i)" ++ Replace b "/" "\/")%string).
  { unfold regexSource. cbv zeta.
    rewrite (Replace_absent b "\/" "/") by (apply Contains_first, Hb).
    rewrite (Replace_absent b "\\" "\") by (apply Contains_first, Hb).
    reflexivity. }
  split; [exact H1|]. rewrite H1. unfold regexSource. cbv zeta.
  rewrite (unescape_slashes b Hb).
  rewrite (Replace_absent b "\\" "\") by (apply Contains_first, Hb).
  reflexivity.
Qed.

End Escaping.

(** A path with two slashes. *)
Lemma regexSource_slashes_example :
  regexSource "wp-content/themes/" = "(?i)wp-content\/themes\/"
  /\ regexSource "wp-content\/themes\/" = regexSource "wp-content/themes/".
Proof.
  exact (regexSource_slashes "wp-content/themes/" eq_refl).
Defined.

(** ** Version templates *)

Section Templates.
Context {RL : RegexpLib}.

Lemma versionStep_plain (i : nat) (m v : string) :
  Contains v "\" = false -> versionStep i m v = v.
Proof.
  intros Hv. rewrite versionStep_backref. unfold replaceAllBackref. cbv zeta.
  apply Replace_absent. apply (Contains_first v (Itoa i) "\"), Hv.
Qed.

Lemma versionSlice_plain (slice : list string) :
  forall (i : nat) (v : string), Contains v "\" = false -> versionSlice i slice v = v.
Proof.
  induction slice as [|m slice IH]; intros i v Hv; [reflexivity|].
  cbn [versionSlice]. rewrite (versionStep_plain i m v Hv). apply IH, Hv.
Qed.

Lemma versionSlices_plain (slices : list (list string)) (v : string) :
  Contains v "\" = false ->
  fold_left (fun version slice => versionSlice 0 slice version) slices v = v.
Proof.
  intros Hv. induction slices as [|slice slices IH]; [reflexivity|].
  cbn [fold_left]. rewrite (versionSlice_plain slice 0 v Hv). exact IH.
Qed.

(** What [detectVersion] returns on a match: the template after the
    substitutions (the one-element set and its maximum are the
    template itself). *)
Lemma detectVersion_matched (pattrn : pattern) (re : Regexp) (value : string)
    (slice : list string) (slices : list (list string)) :
  regex pattrn = Some re ->
  FindAllStringSubmatch re value = slice :: slices ->
  detectVersion pattrn value
  = fold_left (fun version slice => versionSlice 0 slice version)
              (slice :: slices) (version pattrn).
Proof.
  intros Hre Hf. unfold detectVersion. rewrite Hre, Hf. cbv zeta.
  destruct (fold_left _ (slice :: slices) (version pattrn)) as [|c v]; reflexivity.
Qed.

(** X6. With a version template that holds no backslash, the version
    of a hit is the template itself when the expression matches the
    value, and empty when it does not (or when the pattern has no
    expression): a pattern without a version field gives an
    unversioned detection. *)
Theorem detectVersion_plain_template (pattrn : pattern) (value : string) :
  Contains (version pattrn) "\" = false ->
  detectVersion pattrn value =
    match regex pattrn with
    | Some re =>
        match FindAllStringSubmatch re value with
        | [] => ""
        | _ :: _ => version pattrn
        end
    | None => ""
    end.
Proof.
  intros Hv. destruct (regex pattrn) as [re|] eqn:Hre;
    [|unfold detectVersion; rewrite Hre; reflexivity].
  destruct (FindAllStringSubmatch re value) as [|slice slices] eqn:Hf;
    [unfold detectVersion; rewrite Hre, Hf; reflexivity|].
  rewrite (detectVersion_matched pattrn re value slice slices Hre Hf).
  apply versionSlices_plain, Hv.
Qed.

End Templates.

(** The template [2] on a match of [jquery]. *)
Lemma detectVersion_plain_template_example :
  detectVersion (RL := LiteralRegexp.lib)
    (parsePattern (RL := LiteralRegexp.lib) "jquery\;version:2") "jQuery.min.js" = "2"
  /\ detectVersion (RL := LiteralRegexp.lib)
       (parsePattern (RL := LiteralRegexp.lib) "jquery\;version:2") "react.js" = "".
Proof.
  split.
  - exact (detectVersion_plain_template (RL := LiteralRegexp.lib)
             (parsePattern (RL := LiteralRegexp.lib) "jquery\;version:2") "jQuery.min.js"
             eq_refl).
  - exact (detectVersion_plain_template (RL := LiteralRegexp.lib)
             (parsePattern (RL := LiteralRegexp.lib) "jquery\;version:2") "react.js"
             eq_refl).
Defined.

Section Backreference.
Context {RL : RegexpLib}.

Lemma replace_go_skipped (old new : string) (s : string) :
  forall k, (String.length s <= k)%nat -> replace_go old new k s = "".
Proof.
  induction s as [|c s IH]; intros k Hk; [reflexivity|].
  cbn in Hk. destruct k as [|k]; [lia|]. cbn. apply IH. lia.
Qed.

Lemma HasPrefix_refl (s : string) : HasPrefix s s = true.
Proof.
  induction s as [|c s IH]; [reflexivity|]. cbn. rewrite Ascii.eqb_refl. exact IH.
Qed.

Lemma append_empty (s : string) : (s ++ "")%string = s.
Proof.
  induction s as [|c s IH]; [reflexivity|].
  change (String c s ++ "")%string with (String c (s ++ "")%string).
  rewrite IH. reflexivity.
Qed.

Lemma Replace_whole (t new : string) :
  t <> "" -> Replace t t new = new.
Proof.
  intros Ht. destruct t as [|c t]; [contradiction|].
  unfold Replace. cbn [replace_go]. rewrite HasPrefix_refl.
  rewrite replace_go_skipped by (cbn; lia). apply append_empty.
Qed.

(** Two backreferences with different single digits do not overlap. *)
Lemma backref_distinct (i j : nat) :
  (i <= 9)%nat -> (j <= 9)%nat -> i <> j ->
  Contains ("\" ++ Itoa i) ("\" ++ Itoa j) = false.
Proof.
  intros Hi Hj Hij.
  do 10 (destruct i as [|i];
         [do 10 (destruct j as [|j]; [first [contradiction | reflexivity]|]); lia|]).
  lia.
Qed.

Lemma versionSlice_backref (i : nat) (gs : list string) :
  (i <= 9)%nat ->
  forall j : nat,
    (j <= i)%nat -> (i - j < length gs)%nat ->
    Contains (nth (i - j) gs "") "$" = false ->
    Contains (nth (i - j) gs "") "\" = false ->
    versionSlice j gs ("\" ++ Itoa i) = nth (i - j) gs "".
Proof.
  intros Hi. induction gs as [|m gs IH]; intros j Hji Hlen Hd Hb; [cbn in Hlen; lia|].
  cbn [versionSlice]. rewrite versionStep_backref. unfold replaceAllBackref. cbv zeta.
  destruct (Nat.eq_dec j i) as [->|Hne].
  - rewrite Nat.sub_diag in *. cbn [nth] in *.
    rewrite Replace_whole by discriminate.
    unfold expandTemplate. rewrite Hd. apply versionSlice_plain, Hb.
  - rewrite Replace_absent by (apply backref_distinct; lia).
    assert (Hs : (i - j = S (i - S j))%nat) by lia. rewrite Hs in *. cbn [nth] in *.
    apply IH; [lia | cbn in Hlen; lia | exact Hd | exact Hb].
Qed.

(** X7. A version template that is one backreference [\i], [i] at most
    9, resolves to the text of group [i] of the first match, for a
    group text without [$] and without a backslash; further matches
    of the expression change nothing. *)
Theorem detectVersion_backreference (pattrn : pattern) (re : Regexp) (value : string)
    (i : nat) (groups : list string) (more : list (list string)) :
  regex pattrn = Some re ->
  version pattrn = ("\" ++ Itoa i)%string ->
  (i <= 9)%nat ->
  FindAllStringSubmatch re value = groups :: more ->
  (i < length groups)%nat ->
  Contains (nth i groups "") "$" = false ->
  Contains (nth i groups "") "\" = false ->
  detectVersion pattrn value = nth i groups "".
Proof.
  intros Hre Hv Hi Hf Hlen Hd Hb.
  rewrite (detectVersion_matched pattrn re value groups more Hre Hf), Hv.
  cbn [fold_left].
  rewrite (versionSlice_backref i groups Hi 0); rewrite ?Nat.sub_0_r; try assumption; [|lia].
  apply versionSlices_plain, Hb.
Qed.

End Backreference.

(** The whole match as the version. *)
Lemma detectVersion_backreference_example :
  detectVersion (RL := LiteralRegexp.lib)
    (parsePattern (RL := LiteralRegexp.lib) "nginx\;version:\0") "NGINX and nginx" = "NGINX".
Proof.
  exact (detectVersion_backreference (RL := LiteralRegexp.lib)
           (parsePattern (RL := LiteralRegexp.lib) "nginx\;version:\0")
           "nginx" "NGINX and nginx" 0 ["NGINX"] [["nginx"]]
           eq_refl eq_refl ltac:(lia) eq_refl ltac:(cbn; lia) eq_refl eq_refl).
Defined.

(** ** Order of the hits *)

Section HitOrder.

Lemma fold_max_spec (cs : list Z) :
  forall c : Z,
    (fold_left Z.max cs c = c \/ In (fold_left Z.max cs c) cs)
    /\ c <= fold_left Z.max cs c
    /\ Forall (fun x => x <= fold_left Z.max cs c) cs.
Proof.
  induction cs as [|x cs IH]; intros c; cbn [fold_left].
  - split; [left; reflexivity|]. split; [lia | constructor].
  - destruct (IH (Z.max c x)) as (Hin & Hle & Hall). split; [|split].
    + destruct Hin as [Heq|Hin]; [|right; right; exact Hin].
      rewrite Heq. destruct (Z.max_spec c x) as [[_ ->]|[_ ->]]; [right; left|left]; reflexivity.
    + lia.
    + constructor; [lia | exact Hall].
Qed.

Lemma maxConfidence_permutation (c c' : Z) (cs cs' : list Z) :
  Permutation (c :: cs) (c' :: cs') -> maxConfidence c cs = maxConfidence c' cs'.
Proof.
  intros Hp. unfold maxConfidence.
  destruct (fold_max_spec cs c) as (Hin & Hle & Hall).
  destruct (fold_max_spec cs' c') as (Hin' & Hle' & Hall').
  assert (Hm : In (fold_left Z.max cs c) (c :: cs)).
  { destruct Hin as [->|Hin]; [left; reflexivity | right; exact Hin]. }
  assert (Hm' : In (fold_left Z.max cs' c') (c' :: cs')).
  { destruct Hin' as [->|Hin']; [left; reflexivity | right; exact Hin']. }
  assert (Hb : Forall (fun x => x <= fold_left Z.max cs c) (c :: cs))
    by (constructor; assumption).
  assert (Hb' : Forall (fun x => x <= fold_left Z.max cs' c') (c' :: cs'))
    by (constructor; assumption).
  apply (Permutation_in _ Hp) in Hm. apply (Permutation_in _ (Permutation_sym Hp)) in Hm'.
  rewrite Forall_forall in Hb, Hb'.
  apply list_elem_of_In in Hm, Hm'.
  specialize (Hb _ Hm'). specialize (Hb' _ Hm). lia.
Qed.

Lemma firstNonEmpty_empty (vs : list string) :
  firstNonEmpty vs = "" <-> Forall (fun v => v = "") vs.
Proof.
  induction vs as [|v vs IH]; cbn; [split; [constructor | reflexivity]|].
  destruct (String.eqb_spec v "") as [->|Hne].
  - rewrite IH. split; [constructor; auto | intros H; apply Forall_cons in H as [_ H]; exact H].
  - split; [contradiction | intros H; apply Forall_cons in H as [H _]; contradiction].
Qed.

Lemma addCall_first_sequence (app : application) (d : detected) (c : call) (cs : list call) :
  d !! Name app = None ->
  Forall (fun c => callApp c = app) (c :: cs) ->
  fold_left addCall (c :: cs) d !! Name app =
    Some {| rName := Name app;
            rVersion := firstNonEmpty (map callVersion (c :: cs));
            rCategories := Categories app;
            rConfidence := maxConfidence (callConfidence c) (map callConfidence cs);
            excludes := Excludes app; implies := Implies app |}.
Proof.
  intros Hd Hall. apply Forall_cons in Hall as [Hc Hcs]. cbn [fold_left].
  erewrite (addCall_present (Name app));
    [| unfold addCall; rewrite Hc; apply addApp_fresh, Hd
     | eapply Forall_impl; [exact Hcs | intros x ->; reflexivity] ].
  reflexivity.
Qed.

(** X8. The hits of one technology may come in any order: on a
    detection set without the technology, two runs of the same calls
    of [addApp] in different orders leave entries with the same
    confidence, categories and pending rules, and the version of the
    one is empty exactly when the version of the other is, which is
    when no call passed a version. *)
Theorem addApp_order_independent (app : application) (d : detected) (cs cs' : list call) :
  d !! Name app = None ->
  cs <> [] ->
  Forall (fun c => callApp c = app) cs ->
  Permutation cs cs' ->
  exists r r',
    fold_left addCall cs d !! Name app = Some r
    /\ fold_left addCall cs' d !! Name app = Some r'
    /\ rName r = rName r' /\ rConfidence r = rConfidence r'
    /\ rCategories r = rCategories r'
    /\ excludes r = excludes r' /\ implies r = implies r'
    /\ (rVersion r = "" <-> rVersion r' = "")
    /\ (rVersion r = "" <-> Forall (fun c => callVersion c = "") cs).
Proof.
  intros Hd Hne Hall Hp.
  assert (Hall' : Forall (fun c => callApp c = app) cs').
  { rewrite Forall_forall in Hall |- *. intros x Hx. apply Hall.
    rewrite Hp. exact Hx. }
  destruct cs as [|c cs]; [contradiction|].
  destruct cs' as [|c' cs'];
    [apply Permutation_sym, Permutation_nil_cons in Hp; contradiction|].
  rewrite (addCall_first_sequence app d c cs Hd Hall).
  rewrite (addCall_first_sequence app d c' cs' Hd Hall').
  eexists _, _. split; [reflexivity|]. split; [reflexivity|].
  cbn [rName rConfidence rCategories excludes implies rVersion].
  assert (Hv : forall l : list call,
             Forall (fun v => v = "") (map callVersion l)
             <-> Forall (fun c => callVersion c = "") l).
  { intros l. rewrite Forall_fmap. reflexivity. }
  repeat split; try reflexivity.
  - apply (maxConfidence_permutation _ _ (map callConfidence cs) (map callConfidence cs')).
    exact (Permutation_map callConfidence Hp).
  - rewrite !firstNonEmpty_empty, !Hv. intros H. rewrite <- Hp. exact H.
  - rewrite !firstNonEmpty_empty, !Hv. intros H. rewrite Hp. exact H.
  - rewrite firstNonEmpty_empty, Hv. auto.
  - rewrite firstNonEmpty_empty, Hv. auto.
Qed.

End HitOrder.

(** The three hits on Drupal, last first. *)
Lemma addApp_order_independent_example :
  exists r r',
    fold_left addCall drupalCalls ∅ !! "Drupal" = Some r
    /\ fold_left addCall (rev drupalCalls) ∅ !! "Drupal" = Some r'
    /\ rConfidence r = rConfidence r'
    /\ (rVersion r = "" <-> rVersion r' = "").
Proof.
  destruct (addApp_order_independent (bareApp "Drupal") ∅ drupalCalls (rev drupalCalls)
              (lookup_empty _) ltac:(discriminate) ltac:(repeat constructor)
              (Permutation_rev drupalCalls))
    as (r & r' & H1 & H2 & _ & Hc & _ & _ & _ & Hv & _).
  exists r, r'. auto.
Defined.

(** ** What a unit of work does to the detection set *)

Section Isolation.
Context {RL : RegexpLib} {SL : StringsLib} {QL : QueryLib}.

Lemma touches_refl (name : string) (d : detected) : touches name d d.
Proof.
  split; [reflexivity|]. split.
  - intros r Hr. exists r. repeat split; [exact Hr | lia].
  - intros Hn r' Hr'. congruence.
Qed.

Lemma touches_trans (name : string) (a b c : detected) :
  touches name a b -> touches name b c -> touches name a c.
Proof.
  intros (Ho1 & Hk1 & Hn1) (Ho2 & Hk2 & Hn2). split; [|split].
  - intros k Hk. rewrite (Ho2 k Hk). apply Ho1, Hk.
  - intros r Hr. destruct (Hk1 r Hr) as (r1 & Hr1 & Hname1 & Hcat1 & Hex1 & Him1 & Hc1 & Hv1).
    destruct (Hk2 r1 Hr1) as (r2 & Hr2 & Hname2 & Hcat2 & Hex2 & Him2 & Hc2 & Hv2).
    exists r2. split; [exact Hr2|]. repeat split; try congruence; [lia|].
    intros Hv. rewrite Hv2; [apply Hv1, Hv|]. rewrite (Hv1 Hv). exact Hv.
  - intros Ha r2 Hr2. destruct (b !! name) as [r1|] eqn:Hb.
    + destruct (Hk2 r1 eq_refl) as (r2' & Hr2' & Hname & _).
      rewrite Hr2 in Hr2'. injection Hr2' as <-. rewrite Hname. apply (Hn1 Ha r1 eq_refl).
    + apply (Hn2 eq_refl r2 Hr2).
Qed.

Lemma touches_addApp (app : application) (d : detected) (v : string) (c : Z) :
  touches (Name app) d (addApp app d v c).
Proof.
  split; [|split].
  - intros k Hk. apply addApp_other, Hk.
  - intros r Hr. rewrite (addApp_merge app d v c r Hr). eexists. split; [reflexivity|].
    cbn. repeat split; [lia|]. intros Hv.
    destruct (String.eqb_spec (rVersion r) ""); [contradiction | reflexivity].
  - intros Hn r' Hr'. rewrite (addApp_fresh app d v c Hn) in Hr'.
    injection Hr' as <-. reflexivity.
Qed.

Lemma touches_fold_left {A : Type} (name : string) (f : detected -> A -> detected)
    (l : list A) :
  (forall d a, touches name d (f d a)) ->
  forall d, touches name d (fold_left f l d).
Proof.
  intros Hf. induction l as [|a l IH]; intros d; [apply touches_refl|].
  cbn. exact (touches_trans _ _ _ _ (Hf d a) (IH (f d a))).
Qed.

Lemma touches_forPatterns (name : string) (patterns : list (string * list pattern))
    (body : string -> pattern -> detected -> detected) :
  (forall k p d, touches name d (body k p d)) ->
  forall d, touches name d (forPatterns patterns body d).
Proof.
  intros Hb. unfold forPatterns. apply touches_fold_left.
  intros d kv. apply touches_fold_left. intros d' p. apply Hb.
Qed.

Lemma touches_foldM {A : Type} (name : string) (f : detected -> A -> outcome detected)
    (l : list A) :
  (forall d a d', f d a = Ok d' -> touches name d d') ->
  forall d d', foldM f l d = Ok d' -> touches name d d'.
Proof.
  intros Hf. induction l as [|a l IH]; intros d d' H; cbn in H.
  - injection H as <-. apply touches_refl.
  - destruct (f d a) as [d1| |] eqn:Hfa; cbn in H; try discriminate.
    exact (touches_trans _ _ _ _ (Hf _ _ _ Hfa) (IH _ _ H)).
Qed.

Lemma bind_Ok {A B : Type} (m : outcome A) (f : A -> outcome B) (b : B) :
  (m ≫= f) = Ok b -> exists a, m = Ok a /\ f a = Ok b.
Proof. destruct m; cbn; intros H; try discriminate. eauto. Qed.

Ltac touch_body :=
  intros;
  repeat match goal with
         | |- touches _ _ (if ?c then _ else _) => destruct c
         | |- touches _ _ (match ?x with _ => _ end) => destruct x
         end;
  first [ apply touches_refl
        | apply touches_addApp
        | apply touches_fold_left; touch_body ].

Ltac touch_compiled H :=
  apply bind_Ok in H as (? & _ & H); injection H as <-;
  first [ apply touches_forPatterns; unfold hit; touch_body
        | apply touches_fold_left; unfold hit; touch_body ].

Lemma touches_analyzeURL (app : application) (url : string) (d d' : detected) :
  analyzeURL app url d = Ok d' -> touches (Name app) d d'.
Proof. unfold analyzeURL. intros H. touch_compiled H. Qed.

Lemma touches_analyzeScripts (app : application) (scripts : list string) (d d' : detected) :
  analyzeScripts app scripts d = Ok d' -> touches (Name app) d d'.
Proof. unfold analyzeScripts. intros H. touch_compiled H. Qed.

Lemma touches_analyzeHeaders (app : application) (headers : gmap string (list string))
    (d d' : detected) :
  analyzeHeaders app headers d = Ok d' -> touches (Name app) d d'.
Proof. unfold analyzeHeaders. intros H. touch_compiled H. Qed.

Lemma touches_analyzeCookies (app : application) (cookies : gmap string string)
    (d d' : detected) :
  analyzeCookies app cookies d = Ok d' -> touches (Name app) d d'.
Proof. unfold analyzeCookies. intros H. touch_compiled H. Qed.

Lemma touches_analyzeHTML (app : application) (html : string) (d d' : detected) :
  analyzeHTML app html d = Ok d' -> touches (Name app) d d'.
Proof. unfold analyzeHTML. intros H. touch_compiled H. Qed.

Lemma touches_analyzeMeta (app : application) (metas : gmap string (list string))
    (d d' : detected) :
  analyzeMeta app metas d = Ok d' -> touches (Name app) d d'.
Proof. unfold analyzeMeta. intros H. touch_compiled H. Qed.

Lemma touches_analyseJS (app : application) (evalJS : string -> option string)
    (d d' : detected) :
  analyseJS app evalJS d = Ok d' -> touches (Name app) d d'.
Proof. unfold analyseJS. intros H. touch_compiled H. Qed.

Lemma touches_analyseDNS (app : application) (dns : gmap string (list string))
    (d d' : detected) :
  analyseDNS app dns d = Ok d' -> touches (Name app) d d'.
Proof. unfold analyseDNS. intros H. touch_compiled H. Qed.

Lemma touches_analyseDom (app : application) (html : string) (d d' : detected) :
  analyseDom app html d = Ok d' -> touches (Name app) d d'.
Proof.
  unfold analyseDom. apply touches_foldM. intros d1 sel d2.
  destruct (FindFirst html (fst sel)); [|intros H; injection H as <-; apply touches_refl].
  apply touches_foldM. intros d3 tv d4 H. touch_compiled H.
Qed.

Lemma touches_when (name : string) (b : bool) (f : detected -> outcome detected)
    (d d' : detected) :
  (forall d d', f d = Ok d' -> touches name d d') ->
  when b f d = Ok d' -> touches name d d'.
Proof.
  intros Hf. unfold when. destruct b; [apply Hf|].
  intros H. injection H as <-. apply touches_refl.
Qed.

Lemma analyzeApp_touches (scraper : Scraper) (canRenderPage : bool)
    (paramURL : string) (scraped : ScrapedData) (d d' : detected) (app : application) :
  analyzeApp scraper canRenderPage paramURL scraped d app = Ok d' ->
  touches (Name app) d d'.
Proof.
  unfold analyzeApp. intros H.
  apply bind_Ok in H as (d1 & H1 & H). apply touches_analyzeURL in H1.
  apply bind_Ok in H as (d2 & H2 & H).
  apply (touches_when (Name app)) in H2; [|apply touches_analyseJS].
  apply bind_Ok in H as (d3 & H3 & H).
  apply (touches_when (Name app)) in H3; [|apply touches_analyseDom].
  apply bind_Ok in H as (d4 & H4 & H).
  apply (touches_when (Name app)) in H4; [|apply touches_analyzeHTML].
  apply bind_Ok in H as (d5 & H5 & H).
  apply (touches_when (Name app)) in H5; [|apply touches_analyzeHeaders].
  apply bind_Ok in H as (d6 & H6 & H).
  apply (touches_when (Name app)) in H6; [|apply touches_analyzeCookies].
  apply bind_Ok in H as (d7 & H7 & H).
  apply (touches_when (Name app)) in H7; [|apply touches_analyzeScripts].
  apply bind_Ok in H as (d8 & H8 & H).
  apply (touches_when (Name app)) in H8; [|apply touches_analyzeMeta].
  apply (touches_when (Name app)) in H; [|apply touches_analyseDNS].
  repeat (eapply touches_trans; [eassumption|]). apply touches_refl.
Qed.


(** X9. A unit of work of [Analyze] that returns has only touched the
    entry of its own technology: every other entry is as it was, and
    an entry of the technology that was there is still there, with a
    confidence that is not lower and, if it had a version, the same
    version. *)
Theorem analyzeApp_touches_own_entry (scraper : Scraper) (canRenderPage : bool)
    (paramURL : string) (scraped : ScrapedData) (d d' : detected) (app : application) :
  analyzeApp scraper canRenderPage paramURL scraped d app = Ok d' ->
  touches (Name app) d d'.
Proof. apply analyzeApp_touches. Qed.

End Isolation.

(** A hit of confidence 50 on a server detected with confidence 100. *)
Lemma analyzeApp_touches_own_entry_example :
  analyzeApp (RL := LiteralRegexp.lib) (SL := AsciiStrings.lib) (QL := EmptyDocument.lib)
    brokenScraper true "http://example.com/" nginxPage twoServers nginxByHTML = Ok twoServers
  /\ touches "nginx" twoServers twoServers.
Proof.
  assert (H : analyzeApp (RL := LiteralRegexp.lib) (SL := AsciiStrings.lib)
                (QL := EmptyDocument.lib)
                brokenScraper true "http://example.com/" nginxPage twoServers nginxByHTML
              = Ok twoServers) by (vm_compute; reflexivity).
  split; [exact H|].
  exact (analyzeApp_touches_own_entry (RL := LiteralRegexp.lib) (SL := AsciiStrings.lib)
           (QL := EmptyDocument.lib) _ _ _ _ _ _ _ H).
Defined.

(** ** The report of [Analyze] *)

Section Report.
Context {RL : RegexpLib} {SL : StringsLib} {QL : QueryLib} {JL : JSONLib} {MR : MapRange}.

Lemma foldM_invariant {A B : Type} (I : B -> Prop) (f : B -> A -> outcome B) (l : list A) :
  (forall b a b', a ∈ l -> I b -> f b a = Ok b' -> I b') ->
  forall b b', I b -> foldM f l b = Ok b' -> I b'.
Proof.
  induction l as [|a l IH]; intros Hf b b' Hb H; cbn in H.
  - injection H as <-. exact Hb.
  - destruct (f b a) as [b1| |] eqn:Hfa; cbn in H; try discriminate.
    apply (IH (fun b a b' Ha => Hf b a b' (list_elem_of_further _ _ _ Ha)) b1 b');
      [|exact H].
    apply (Hf b a b1); [left | exact Hb | exact Hfa].
Qed.

Lemma touches_catalogued (apps : gmap string application) (k : string) (app : application)
    (d d' : detected) :
  apps !! k = Some app -> Name app = k ->
  touches (Name app) d d' -> catalogued apps d -> catalogued apps d'.
Proof.
  intros Ha Hn (Ho & Hk & Hnew) [Hkeyed Hdom]. rewrite Hn in *. split.
  - intros k' r' Hr'. destruct (decide (k' = k)) as [->|Hne].
    + destruct (d !! k) as [r|] eqn:Hd.
      * destruct (Hk r eq_refl) as (r1 & Hr1 & Hname & _).
        rewrite Hr' in Hr1. injection Hr1 as <-. rewrite Hname. apply (Hkeyed k r Hd).
      * apply (Hnew eq_refl r' Hr').
    + rewrite (Ho k' Hne) in Hr'. apply (Hkeyed k' r' Hr').
  - intros k' Hk'. destruct (decide (k' = k)) as [->|Hne].
    + apply elem_of_dom. eauto.
    + apply Hdom. apply elem_of_dom. rewrite <- (Ho k' Hne). apply elem_of_dom, Hk'.
Qed.

Lemma excludes_catalogued (apps : gmap string application) (d d' : detected) (v : value) :
  resolveExcludes d v = Ok d' -> catalogued apps d -> catalogued apps d'.
Proof.
  unfold resolveExcludes. intros H [Hkeyed Hdom].
  apply bind_Ok in H as (patterns & _ & H). injection H as <-.
  assert (Hl : forall k r,
             forPatterns patterns (fun _ excluded d => delete (str excluded) d) d !! k = Some r ->
             d !! k = Some r).
  { intros k r. rewrite excludes_lookup.
    destruct (decide (k ∈ patternStrs patterns)); [discriminate | auto]. }
  split.
  - intros k r Hr. apply (Hkeyed k r), Hl, Hr.
  - intros k Hk. apply elem_of_dom in Hk as [r Hr]. apply Hdom, elem_of_dom.
    exists r. apply Hl, Hr.
Qed.

Lemma grows_catalogued (apps : gmap string application) (st st' : detected * list string) :
  wellNamed apps -> grows apps st st' ->
  catalogued apps (fst st) -> catalogued apps (fst st').
Proof.
  intros Hw (new & _ & _ & Hn & Hdom & Hold) [Hkeyed Hsub]. split.
  - intros k r Hr. destruct (decide (k ∈ dom (fst st))) as [Hin|Hin].
    + rewrite (Hold k Hin) in Hr. apply (Hkeyed k r Hr).
    + assert (Hk : k ∈ new).
      { assert (Hd : k ∈ dom (fst st')) by (apply elem_of_dom; eauto).
        rewrite Hdom in Hd. apply elem_of_union in Hd as [Hd|Hd]; [contradiction|].
        apply elem_of_list_to_set in Hd. exact Hd. }
      destruct (Hn k Hk) as (_ & app & p & Ha & Hp & Hs).
      rewrite Hr in Hs. injection Hs as ->. cbn. apply (Hw k app Ha).
  - rewrite Hdom. intros k Hk. apply elem_of_union in Hk as [Hk|Hk]; [apply Hsub, Hk|].
    apply elem_of_list_to_set in Hk. destruct (Hn k Hk) as (_ & app & p & Ha & _).
    apply elem_of_dom. eauto.
Qed.

Lemma postProcess_catalogued (apps : gmap string application) (d d' : detected) :
  wellNamed apps -> postProcess apps d = Ok d' ->
  catalogued apps d -> catalogued apps d'.
Proof.
  intros Hw H Hd. unfold postProcess in H.
  apply (foldM_invariant (catalogued apps) _ _) with (b := d) (b' := d') in H;
    [exact H| |exact Hd].
  intros d1 key d2 _ Hd1 Hstep. unfold postStep in Hstep.
  destruct (d1 !! key) as [app|]; [|injection Hstep as <-; exact Hd1].
  apply bind_Ok in Hstep as (d3 & Hex & Hstep).
  assert (Hd3 : catalogued apps d3).
  { destruct (isNil (excludes app)); [injection Hex as <-; exact Hd1|].
    exact (excludes_catalogued apps d1 d3 _ Hex Hd1). }
  destruct (isNil (implies app)); [injection Hstep as <-; exact Hd3|].
  apply bind_Ok in Hstep as (st & Him & Hstep). injection Hstep as <-.
  assert (Hm : (size (dom apps ∖ dom d3) < S (size apps))%nat).
  { rewrite <- (size_dom apps). apply Nat.lt_succ_r, subseteq_size.
    intros k Hk. apply elem_of_difference in Hk as [Hk _]. exact Hk. }
  pose proof (resolveImplies_safe apps _ (d3, []) (implies app) Hm) as Hsafe.
  rewrite Him in Hsafe. exact (grows_catalogued apps (d3, []) st Hw Hsafe Hd3).
Qed.

Lemma report_names (d : detected) :
  keyed d ->
  map (fun kv : string * resultApp => tName (technologyOf (snd kv))) (map_to_list d)
  = map fst (map_to_list d).
Proof.
  intros Hk. apply map_ext_in. intros [k r] Hin. cbn.
  apply Hk. apply elem_of_map_to_list, list_elem_of_In, Hin.
Qed.

(** X10. With a catalog whose technologies carry their key as name,
    the structured report of [Analyze] names no technology twice, and
    names catalog technologies only, whatever entries the range of
    the post-processing loop produces and in whatever order. *)
Theorem Analyze_reports_catalog_names (wapp : Wappalyzer) (paramURL : string)
    (a : analyzed) (r : report) :
  wellNamed (wApps wapp) ->
  Analyze wapp paramURL = Ok a ->
  result a = Some (Structured r) ->
  NoDup (map tName (technologies r))
  /\ (forall name, name ∈ map tName (technologies r) -> name ∈ dom (wApps wapp)).
Proof.
  intros Hw Ha Hr. unfold Analyze in Ha.
  destruct (wScraper wapp) as [scraper|]; [|discriminate].
  destruct (validateURL paramURL); cbn [negb] in Ha.
  - apply bind_Ok in Ha as (d1 & Hd1 & Ha). apply bind_Ok in Ha as (d2 & Hd2 & Ha).
    assert (H1 : catalogued (wApps wapp) d1).
    { apply (foldM_invariant (catalogued (wApps wapp)) _ _) with (b := ∅) (b' := d1) in Hd1;
        [exact Hd1| |].
      - intros d kv d' Hkv Hd Hstep. destruct kv as [k app].
        apply elem_of_map_to_list in Hkv. cbn [snd] in Hstep.
        apply (touches_catalogued (wApps wapp) k app d d' Hkv (Hw k app Hkv));
          [|exact Hd].
        exact (analyzeApp_touches _ _ _ _ _ _ _ Hstep).
      - split; [intros k r0 H0; rewrite lookup_empty in H0; discriminate|].
        rewrite dom_empty_L. apply empty_subseteq. }
    destruct (postProcess_catalogued _ _ _ Hw Hd2 H1) as [Hkeyed Hdom].
    assert (Hres : result a = Some (Structured
                     {| urls := sURLs (fst (Scrape scraper paramURL));
                        technologies := map (fun kv => technologyOf (snd kv))
                                            (map_to_list d2) |})
                   \/ (exists j, result a = Some (Marshalled j)) \/ result a = None).
    { destruct (wJSON wapp); [|injection Ha as <-; left; reflexivity].
      destruct (Marshal _); injection Ha as <-; right; [right | left; eexists]; reflexivity. }
    destruct Hres as [Hres|[[j Hres]|Hres]]; rewrite Hres in Hr; try discriminate.
    injection Hr as <-. cbn [technologies]. rewrite map_map, (report_names d2 Hkeyed).
    split; [apply NoDup_fst_map_to_list|].
    intros name Hname. apply Hdom, elem_of_dom.
    apply list_elem_of_fmap in Hname as ([k r0] & -> & Hin).
    apply elem_of_map_to_list in Hin. eauto.
  - injection Ha as <-. cbn in Hr. injection Hr as <-. cbn.
    split; [constructor | intros name Hn; apply elem_of_nil in Hn; contradiction].
Qed.

(** X11. [Analyze] calls [Scrape] once, and hands back one of two
    errors only: [UrlNotValid], exactly for the inputs [validateURL]
    rejects, or the error of [json.Marshal] when the JSON text is
    asked for.  The error [Scrape] reports is not among them: for a
    valid URL the report is returned with a nil error, whatever the
    scraper said. *)
Theorem Analyze_errors (wapp : Wappalyzer) (paramURL : string) (a : analyzed) :
  Analyze wapp paramURL = Ok a ->
  scrapes a = [paramURL]
  /\ ((validateURL paramURL = false /\ err a = Some "UrlNotValid")
      \/ (validateURL paramURL = true /\ err a = None /\ result a <> None)
      \/ (validateURL paramURL = true /\ wJSON wapp = true /\ result a = None
          /\ exists res e, Marshal res = inl e /\ err a = Some e)).
Proof.
  unfold Analyze. destruct (wScraper wapp) as [scraper|]; [|discriminate].
  destruct (validateURL paramURL); cbn [negb].
  - cbv zeta.
    destruct (foldM _ (map_to_list (wApps wapp)) ∅) as [d| |]; [|discriminate..].
    cbn. destruct (postProcess (wApps wapp) d) as [d'| |]; [|discriminate..].
    cbn. destruct (wJSON wapp) eqn:Hj.
    + destruct (Marshal _) as [e|j] eqn:Hm; intros [= <-]; (split; [reflexivity|]).
      * right. right. cbn. repeat (split; [reflexivity|]). eauto.
      * right. left. cbn. split; [reflexivity|]. split; [reflexivity | discriminate].
    + intros [= <-]. split; [reflexivity|].
      right. left. cbn. split; [reflexivity|]. split; [reflexivity | discriminate].
  - intros [= <-]. split; [reflexivity|]. left. split; reflexivity.
Qed.

End Report.

(** [nginx] is found in the page and implies [A], which excludes
    [nginx].  The runtime that skips the entry made during the loop
    reports both; the runtime that produces it reports [A] alone. *)
Lemma Analyze_reports_catalog_names_example :
  exists a r a' r',
    Analyze (RL := LiteralRegexp.lib) (SL := AsciiStrings.lib) (QL := EmptyDocument.lib)
      (JL := StructuredOnly.lib) (MR := SnapshotRange.lib) rivalEngine "http://example.com/"
      = Ok a
    /\ result a = Some (Structured r)
    /\ map tName (technologies r) = ["A"; "nginx"]
    /\ Analyze (RL := LiteralRegexp.lib) (SL := AsciiStrings.lib) (QL := EmptyDocument.lib)
         (JL := StructuredOnly.lib) (MR := EagerRange.lib ["A"]) rivalEngine
         "http://example.com/" = Ok a'
    /\ result a' = Some (Structured r')
    /\ map tName (technologies r') = ["A"]
    /\ NoDup (map tName (technologies r))
    /\ NoDup (map tName (technologies r')).
Proof.
  assert (Hw : wellNamed (wApps rivalEngine)).
  { intros k app H. cbn in H. unfold rivalCatalog in H.
    repeat (apply lookup_insert_Some in H as [[<- <-]|[_ H]]; [reflexivity|]).
    rewrite lookup_empty in H. discriminate. }
  assert (Ha : exists a r,
             Analyze (RL := LiteralRegexp.lib) (SL := AsciiStrings.lib)
               (QL := EmptyDocument.lib) (JL := StructuredOnly.lib)
               (MR := SnapshotRange.lib) rivalEngine "http://example.com/" = Ok a
             /\ result a = Some (Structured r)
             /\ map tName (technologies r) = ["A"; "nginx"]).
  { eexists _, _. split; [vm_compute; reflexivity|]. split; reflexivity. }
  assert (Ha' : exists a r,
             Analyze (RL := LiteralRegexp.lib) (SL := AsciiStrings.lib)
               (QL := EmptyDocument.lib) (JL := StructuredOnly.lib)
               (MR := EagerRange.lib ["A"]) rivalEngine "http://example.com/" = Ok a
             /\ result a = Some (Structured r)
             /\ map tName (technologies r) = ["A"]).
  { eexists _, _. split; [vm_compute; reflexivity|]. split; reflexivity. }
  destruct Ha as (a & r & Ha & Hr & Hn). destruct Ha' as (a' & r' & Ha' & Hr' & Hn').
  exists a, r, a', r'.
  split; [exact Ha|]. split; [exact Hr|]. split; [exact Hn|].
  split; [exact Ha'|]. split; [exact Hr'|]. split; [exact Hn'|]. split.
  - exact (proj1 (Analyze_reports_catalog_names (RL := LiteralRegexp.lib)
                    (SL := AsciiStrings.lib) (QL := EmptyDocument.lib)
                    (JL := StructuredOnly.lib) (MR := SnapshotRange.lib)
                    rivalEngine "http://example.com/" a r Hw Ha Hr)).
  - exact (proj1 (Analyze_reports_catalog_names (RL := LiteralRegexp.lib)
                    (SL := AsciiStrings.lib) (QL := EmptyDocument.lib)
                    (JL := StructuredOnly.lib) (MR := EagerRange.lib ["A"])
                    rivalEngine "http://example.com/" a' r' Hw Ha' Hr')).
Defined.

(** A scraper that reports an error beside an empty page. *)
Lemma Analyze_errors_example :
  exists a,
    Analyze (RL := LiteralRegexp.lib) (SL := AsciiStrings.lib) (QL := EmptyDocument.lib)
      (JL := StructuredOnly.lib) (MR := SnapshotRange.lib)
      {| wScraper := Some brokenScraper; wApps := nginxCatalog; wCategories := ∅;
         wJSON := false |} "http://example.com/" = Ok a
    /\ scrapes a = ["http://example.com/"] /\ err a = None.
Proof.
  assert (Ha : exists a,
             Analyze (RL := LiteralRegexp.lib) (SL := AsciiStrings.lib)
               (QL := EmptyDocument.lib) (JL := StructuredOnly.lib) (MR := SnapshotRange.lib)
               {| wScraper := Some brokenScraper; wApps := nginxCatalog; wCategories := ∅;
                  wJSON := false |} "http://example.com/" = Ok a
             /\ validateURL "http://example.com/" = true
             /\ wJSON {| wScraper := Some brokenScraper; wApps := nginxCatalog;
                         wCategories := ∅; wJSON := false |} = false).
  { eexists. split; [vm_compute; reflexivity|]. split; [vm_compute|]; reflexivity. }
  destruct Ha as (a & Ha & Hv & Hj). exists a. split; [exact Ha|].
  destruct (Analyze_errors (RL := LiteralRegexp.lib) (SL := AsciiStrings.lib)
              (QL := EmptyDocument.lib) (JL := StructuredOnly.lib) (MR := SnapshotRange.lib) _ _ a Ha)
    as [Hs [[Hf _]|[(_ & He & _)|(_ & Hj' & _)]]].
  - rewrite Hv in Hf. discriminate Hf.
  - split; [exact Hs | exact He].
  - rewrite Hj in Hj'. discriminate Hj'.
Defined.

(** ** Loading the catalog *)

Section Loading.

Lemma categories_fold (cats : gmap string category) (ids : list Z) :
  forall names : list string,
    foldM (fun names categoryID =>
             match cats !! ItoaZ categoryID with
             | Some c => Ok (names ++ [cName c])
             | None => Panic
             end) ids names
    = match categoryNames cats ids with
      | Some found => Ok (names ++ found)
      | None => Panic
      end.
Proof.
  induction ids as [|id ids IH]; intros names; cbn [foldM categoryNames].
  - rewrite app_nil_r. reflexivity.
  - destruct (cats !! ItoaZ id) as [c|]; cbn; [|reflexivity].
    rewrite IH. destruct (categoryNames cats ids); cbn; [|reflexivity].
    rewrite <- app_assoc. reflexivity.
Qed.

Lemma categoryNames_None (cats : gmap string category) (ids : list Z) :
  categoryNames cats ids = None <-> exists id, id ∈ ids /\ cats !! ItoaZ id = None.
Proof.
  induction ids as [|id ids IH]; cbn [categoryNames].
  - split; [discriminate | intros (id & Hin & _); apply elem_of_nil in Hin; contradiction].
  - destruct (cats !! ItoaZ id) as [c|] eqn:Hc.
    + destruct (categoryNames cats ids) as [found|]; cbn.
      * split; [discriminate|]. intros (id' & Hin & Hn).
        apply elem_of_cons in Hin as [->|Hin]; [congruence|].
        assert (Hx : Some found = None) by (apply IH; eauto).
        discriminate.
      * split; [|reflexivity]. intros _. destruct (proj1 IH eq_refl) as (id' & Hin & Hn).
        exists id'. split; [right; exact Hin | exact Hn].
    + split; [|reflexivity]. intros _. exists id. split; [left | exact Hc].
Qed.

(** X12. [parseCategories] panics exactly when the technology lists a
    category id the catalog has no category for; otherwise it returns
    the technology with the names of its categories, in the order of
    the ids, after the categories it already had, and every other
    field as it was. *)
Theorem parseCategories_names (app : application) (cats : gmap string category) :
  (parseCategories app cats = Panic
   <-> exists id, id ∈ Cats app /\ cats !! ItoaZ id = None)
  /\ (forall app', parseCategories app cats = Ok app' ->
        exists found,
          categoryNames cats (Cats app) = Some found
          /\ Categories app' = Categories app ++ found
          /\ length found = length (Cats app)
          /\ app' = {| Name := Name app; Version := Version app;
                       Categories := Categories app ++ found; Cats := Cats app;
                       Cookies := Cookies app; Dom := Dom app; Js := Js app;
                       Headers := Headers app; HTML := HTML app;
                       Excludes := Excludes app; Implies := Implies app;
                       Meta := Meta app; Scripts := Scripts app; DNS := DNS app;
                       URL := URL app; Website := Website app |}).
Proof.
  unfold parseCategories. rewrite categories_fold.
  split.
  - rewrite <- categoryNames_None.
    destruct (categoryNames cats (Cats app)); cbn; split; congruence.
  - intros app' H. destruct (categoryNames cats (Cats app)) as [found|] eqn:Hc;
      cbn in H; [|discriminate].
    injection H as <-. exists found. cbn [Categories].
    split; [reflexivity|]. split; [reflexivity|]. split; [|reflexivity].
    clear -Hc. revert found Hc. induction (Cats app) as [|id ids IH]; intros found Hc;
      cbn [categoryNames] in Hc.
    + injection Hc as <-. reflexivity.
    + destruct (cats !! ItoaZ id); [|discriminate].
      destruct (categoryNames cats ids) as [f|]; cbn in Hc; [|discriminate].
      injection Hc as <-. cbn. rewrite (IH f eq_refl). reflexivity.
Qed.

(** What [Init] hands back: a nil error with an engine that has its
    scraper and the configured output format, or an error with no
    engine, or, for an unknown scraper, the error with the empty
    engine. *)
Lemma loadCatalog_engine (env : InitEnv) (config : Config) (scraper : Scraper)
    (appsFile : string) (w : option Wappalyzer) (e : option error) :
  loadCatalog env config scraper appsFile = Ok (w, e) ->
  (e = None /\ exists apps cats,
       w = Some {| wScraper := Some scraper; wApps := apps; wCategories := cats;
                   wJSON := JSON config |})
  \/ (e <> None /\ w = None).
Proof.
  unfold loadCatalog.
  destruct (UnmarshalCatalog env appsFile) as [e0|[rawCategories rawApps]];
    [intros H; injection H as <- <-; right; split; [discriminate | reflexivity]|].
  destruct (loadCategories env rawCategories ∅) as [e0|cats];
    [intros H; injection H as <- <-; right; split; [discriminate | reflexivity]|].
  destruct (loadApps env rawApps cats ∅) as [[e0|apps]| |]; cbn; try discriminate.
  - intros H; injection H as <- <-; right; split; [discriminate | reflexivity].
  - intros H; injection H as <- <-. left. split; [reflexivity|]. eauto.
Qed.

(** X13. When [Init] returns, a nil error comes with an engine that
    holds the scraper the configuration names, the colly scraper for
    [colly] and the rod scraper for [rod], and the configured output
    format; an error comes with no engine, except for an unknown
    scraper name, where it comes with the empty engine. *)
Theorem Init_engine_or_error (env : InitEnv) (config : Config)
    (w : option Wappalyzer) (e : option error) :
  Init env config = Ok (w, e) ->
  (e = None
   /\ exists scraper apps cats,
        w = Some {| wScraper := Some scraper; wApps := apps; wCategories := cats;
                    wJSON := JSON config |}
        /\ ((cfgScraper config = "colly" /\ scraper = collyScraper env config)
            \/ (cfgScraper config = "rod" /\ scraper = rodScraper env config)))
  \/ (e <> None /\ w = None)
  \/ (e = Some "UnknownScraper"
      /\ cfgScraper config <> "colly" /\ cfgScraper config <> "rod"
      /\ w = Some {| wScraper := None; wApps := ∅; wCategories := ∅; wJSON := false |}).
Proof.
  unfold Init.
  assert (Hload : forall scraper appsFile,
             (cfgScraper config = "colly" /\ scraper = collyScraper env config)
             \/ (cfgScraper config = "rod" /\ scraper = rodScraper env config) ->
             loadCatalog env config scraper appsFile = Ok (w, e) ->
             (e = None
              /\ exists scraper apps cats,
                   w = Some {| wScraper := Some scraper; wApps := apps; wCategories := cats;
                               wJSON := JSON config |}
                   /\ ((cfgScraper config = "colly" /\ scraper = collyScraper env config)
            \/ (cfgScraper config = "rod" /\ scraper = rodScraper env config)))
             \/ (e <> None /\ w = None)
             \/ (e = Some "UnknownScraper"
                 /\ cfgScraper config <> "colly" /\ cfgScraper config <> "rod"
                 /\ w = Some {| wScraper := None; wApps := ∅; wCategories := ∅;
                                wJSON := false |})).
  { intros scraper appsFile Hs H.
    destruct (loadCatalog_engine env config scraper appsFile w e H)
      as [(He & apps & cats & Hw)|Herr]; [left | right; left; exact Herr].
    split; [exact He|]. exists scraper, apps, cats. auto. }
  assert (Hrest : forall scraper,
             (cfgScraper config = "colly" /\ scraper = collyScraper env config)
             \/ (cfgScraper config = "rod" /\ scraper = rodScraper env config) ->
             (let err := scraperInit scraper in
              let appsFile :=
                if negb (String.eqb (AppsJSONPath config) "") then
                  if Stat env (AppsJSONPath config)
                  then fst (ReadFile env (AppsJSONPath config)) else ""
                else "" in
              if String.eqb (AppsJSONPath config) "" || (String.length appsFile =? 0)%nat then
                match embeddedAsset env with
                | (_, Some e) => Ok (None, Some e)
                | (appsFile, None) => loadCatalog env config scraper appsFile
                end
              else loadCatalog env config scraper appsFile) = Ok (w, e) ->
             (e = None
              /\ exists scraper apps cats,
                   w = Some {| wScraper := Some scraper; wApps := apps; wCategories := cats;
                               wJSON := JSON config |}
                   /\ ((cfgScraper config = "colly" /\ scraper = collyScraper env config)
            \/ (cfgScraper config = "rod" /\ scraper = rodScraper env config)))
             \/ (e <> None /\ w = None)
             \/ (e = Some "UnknownScraper"
                 /\ cfgScraper config <> "colly" /\ cfgScraper config <> "rod"
                 /\ w = Some {| wScraper := None; wApps := ∅; wCategories := ∅;
                                wJSON := false |})).
  { intros scraper Hs. cbv zeta.
    match goal with |- context [if ?c then _ else _] => destruct c end.
    - destruct (embeddedAsset env) as [appsFile [e0|]]; [|apply Hload, Hs].
      intros H. injection H as <- <-. right. left. split; [discriminate | reflexivity].
    - apply Hload, Hs. }
  destruct (String.eqb_spec (cfgScraper config) "colly") as [Hc|Hc];
    [apply Hrest; left; split; [exact Hc | reflexivity]|].
  destruct (String.eqb_spec (cfgScraper config) "rod") as [Hr|Hr];
    [apply Hrest; right; split; [exact Hr | reflexivity]|].
  intros H. injection H as <- <-. right. right. auto.
Qed.

Lemma Init_embedded (env : InitEnv) (config : Config) :
  AppsJSONPath config = ""
  \/ Stat env (AppsJSONPath config) = false
  \/ fst (ReadFile env (AppsJSONPath config)) = "" ->
  Init env config =
    match (if String.eqb (cfgScraper config) "colly" then Some (collyScraper env config)
           else if String.eqb (cfgScraper config) "rod" then Some (rodScraper env config)
           else None) with
    | None =>
        Ok (Some {| wScraper := None; wApps := ∅; wCategories := ∅; wJSON := false |},
            Some "UnknownScraper")
    | Some scraper =>
        match embeddedAsset env with
        | (_, Some e) => Ok (None, Some e)
        | (appsFile, None) => loadCatalog env config scraper appsFile
        end
    end.
Proof.
  intros Hfile. unfold Init.
  destruct (if String.eqb (cfgScraper config) "colly" then Some (collyScraper env config)
            else if String.eqb (cfgScraper config) "rod" then Some (rodScraper env config)
            else None) as [scraper|]; [|reflexivity].
  cbv zeta.
  assert (Hempty : (String.eqb (AppsJSONPath config) ""
                    || (String.length
                          (if negb (String.eqb (AppsJSONPath config) "") then
                             if Stat env (AppsJSONPath config)
                             then fst (ReadFile env (AppsJSONPath config)) else ""
                           else "") =? 0)%nat) = true).
  { destruct (String.eqb_spec (AppsJSONPath config) "") as [|Hne]; [reflexivity|].
    cbn [negb orb]. destruct Hfile as [Hp|[-> | ->]]; [contradiction | reflexivity|].
    destruct (Stat env (AppsJSONPath config)); reflexivity. }
  rewrite Hempty. reflexivity.
Qed.

Lemma loadCatalog_format (env : InitEnv) (c1 c2 : Config) (s : Scraper) (appsFile : string) :
  JSON c1 = JSON c2 -> loadCatalog env c1 s appsFile = loadCatalog env c2 s appsFile.
Proof. intros Hj. unfold loadCatalog. rewrite Hj. reflexivity. Qed.

(** X14. A catalog path that names no file, or a file that reads as
    empty, is no error: [Init] loads the embedded catalog, as it does
    without a path. *)
Theorem Init_falls_back_to_embedded (env : InitEnv) (config : Config) :
  Stat env (AppsJSONPath config) = false
  \/ fst (ReadFile env (AppsJSONPath config)) = "" ->
  initResult (Init env config) = initResult (Init env (withoutPath config)).
Proof.
  intros Hfile.
  rewrite (Init_embedded env config (or_intror Hfile)).
  rewrite (Init_embedded env (withoutPath config) (or_introl eq_refl)).
  change (cfgScraper (withoutPath config)) with (cfgScraper config).
  destruct (String.eqb (cfgScraper config) "colly");
    [|destruct (String.eqb (cfgScraper config) "rod"); [|reflexivity]].
  all: destruct (embeddedAsset env) as [appsFile [e0|]]; [reflexivity|];
    rewrite (loadCatalog_format env (withoutPath config) config) by reflexivity;
    apply loadCatalog_scraper.
Qed.

End Loading.

(** The engine of the default configuration. *)
Lemma Init_engine_or_error_example :
  exists w, Init brokenEnv NewConfig = Ok (Some w, None) /\ wJSON w = true.
Proof.
  destruct (Init_engine_or_error brokenEnv NewConfig _ _ eq_refl)
    as [(_ & scraper & apps & cats & Hw & _)|[[He _]|(He & _)]];
    [|contradiction He; reflexivity | discriminate].
  eexists. split; reflexivity.
Defined.

(** A path to a file that does not exist. *)
Lemma Init_falls_back_to_embedded_example :
  initResult (Init brokenEnv (withPath "/etc/gowap/technologies.json" NewConfig))
  = initResult (Init brokenEnv NewConfig).
Proof.
  exact (Init_falls_back_to_embedded brokenEnv
           (withPath "/etc/gowap/technologies.json" NewConfig) (or_introl eq_refl)).
Defined.

(** ** URL validation *)

Section Validation.
Import URLSyntax.

Lemma void_not_nullable (r : re) : void r = true -> nullable r = false.
Proof.
  induction r as [| |p|r1 IH1 r2 IH2|r1 IH1 r2 IH2|r IH]; cbn; intros H;
    try discriminate; try reflexivity.
  - apply orb_true_iff in H as [H|H]; [rewrite (IH1 H) | rewrite (IH2 H), andb_false_r];
      reflexivity.
  - apply andb_true_iff in H as [H1 H2]. rewrite (IH1 H1), (IH2 H2). reflexivity.
Qed.

Lemma void_deriv (c : ascii) (r : re) : void r = true -> void (deriv c r) = true.
Proof.
  induction r as [| |p|r1 IH1 r2 IH2|r1 IH1 r2 IH2|r IH]; cbn; intros H;
    try discriminate; try reflexivity.
  - apply orb_true_iff in H as [H|H].
    + rewrite (void_not_nullable r1 H). cbn. rewrite (IH1 H). reflexivity.
    + destruct (nullable r1); cbn; rewrite ?(IH2 H), H, ?orb_true_r; reflexivity.
  - apply andb_true_iff in H as [H1 H2]. rewrite (IH1 H1), (IH2 H2). reflexivity.
Qed.

Lemma void_matches (s : string) : forall r, void r = true -> matches r s = false.
Proof.
  induction s as [|c s IH]; intros r H; cbn.
  - apply void_not_nullable, H.
  - apply IH, void_deriv, H.
Qed.

Lemma deriv_rejected (c : ascii) (r : re) : admits r c = false -> void (deriv c r) = true.
Proof.
  induction r as [| |p|r1 IH1 r2 IH2|r1 IH1 r2 IH2|r IH]; cbn; intros H;
    try reflexivity.
  - rewrite H. reflexivity.
  - apply orb_false_iff in H as [H1 H2].
    destruct (nullable r1); cbn; rewrite (IH1 H1), ?(IH2 H2); reflexivity.
  - apply orb_false_iff in H as [H1 H2]. rewrite (IH1 H1), (IH2 H2). reflexivity.
  - rewrite (IH H). reflexivity.
Qed.

Lemma deriv_admits (a c : ascii) (r : re) :
  admits r c = false -> admits (deriv a r) c = false.
Proof.
  induction r as [| |p|r1 IH1 r2 IH2|r1 IH1 r2 IH2|r IH]; cbn; intros H;
    try reflexivity.
  - destruct (p a); reflexivity.
  - apply orb_false_iff in H as [H1 H2].
    destruct (nullable r1); cbn; rewrite (IH1 H1), H2, ?(IH2 H2); reflexivity.
  - apply orb_false_iff in H as [H1 H2]. rewrite (IH1 H1), (IH2 H2). reflexivity.
  - rewrite (IH H), H. reflexivity.
Qed.

Lemma rejected_byte (s : string) (c : ascii) :
  hasByte c s = true -> forall r, admits r c = false -> matches r s = false.
Proof.
  induction s as [|a s IH]; intros Hc r Hr; [discriminate|].
  cbn in Hc |- *. destruct (Ascii.eqb_spec a c) as [->|Hne].
  - apply void_matches, deriv_rejected, Hr.
  - apply IH; [exact Hc | apply deriv_admits, Hr].
Qed.

(** Every byte a class of the expression accepts is in its last class. *)
Lemma urlRe_admits (c : ascii) : tailChar c = false -> admits urlRe c = false.
Proof.
  destruct c as [[] [] [] [] [] [] [] []]; vm_compute; intros H;
    first [reflexivity | discriminate H].
Qed.

(** X19. [validateURL] rejects every input that holds a byte outside
    the last class of its expression (the word characters and the
    punctuation of URLs): a space, a quote, an angle bracket or a byte
    of a non-ASCII character anywhere in the input makes it invalid. *)
Theorem validateURL_rejects_byte (url : string) (c : ascii) :
  hasByte c url = true ->
  tailChar c = false ->
  validateURL url = false.
Proof.
  intros Hc Ht. unfold validateURL.
  apply (rejected_byte url c Hc), urlRe_admits, Ht.
Qed.

End Validation.

(** A URL with a space in its path. *)
Lemma validateURL_rejects_byte_example :
  validateURL "http://example.com/a b" = false.
Proof.
  exact (validateURL_rejects_byte "http://example.com/a b" " " eq_refl eq_refl).
Defined.

Section Dots.
Import URLSyntax.

Lemma classEmpty_spec (p : ascii -> bool) (c : ascii) :
  classEmpty p = true -> p c = false.
Proof.
  unfold classEmpty. rewrite forallb_forall. intros H.
  specialize (H (nat_of_ascii c)). rewrite ascii_nat_embedding in H.
  apply negb_true_iff, H, in_seq. pose proof (nat_ascii_bounded c). lia.
Qed.

Lemma barren_not_nullable (r : re) : barren r = true -> nullable r = false.
Proof.
  induction r as [| |p|r1 IH1 r2 IH2|r1 IH1 r2 IH2|r IH]; cbn [barren nullable]; intros H;
    try discriminate; try reflexivity.
  - apply orb_true_iff in H as [H|H]; [rewrite (IH1 H) | rewrite (IH2 H), andb_false_r];
      reflexivity.
  - apply andb_true_iff in H as [H1 H2]. rewrite (IH1 H1), (IH2 H2). reflexivity.
Qed.

Lemma barren_deriv (c : ascii) (r : re) : barren r = true -> barren (deriv c r) = true.
Proof.
  induction r as [| |p|r1 IH1 r2 IH2|r1 IH1 r2 IH2|r IH]; cbn [barren deriv]; intros H;
    try discriminate; try reflexivity.
  - rewrite (classEmpty_spec p c H). reflexivity.
  - apply orb_true_iff in H as [H|H].
    + rewrite (barren_not_nullable r1 H). cbn [barren]. rewrite (IH1 H). reflexivity.
    + destruct (nullable r1); cbn [barren]; rewrite ?(IH2 H), H, ?orb_true_r; reflexivity.
  - apply andb_true_iff in H as [H1 H2]. rewrite (IH1 H1), (IH2 H2). reflexivity.
Qed.

Lemma barren_matches (s : string) : forall r, barren r = true -> matches r s = false.
Proof.
  induction s as [|c s IH]; intros r H; cbn [matches].
  - apply barren_not_nullable, H.
  - apply IH, barren_deriv, H.
Qed.

Lemma withoutDot_nullable (r : re) : nullable (withoutDot r) = nullable r.
Proof.
  induction r as [| |p|r1 IH1 r2 IH2|r1 IH1 r2 IH2|r IH]; cbn; try reflexivity;
    rewrite IH1, IH2; reflexivity.
Qed.

Lemma withoutDot_deriv (c : ascii) (r : re) :
  Ascii.eqb c "." = false -> withoutDot (deriv c r) = deriv c (withoutDot r).
Proof.
  intros Hc. induction r as [| |p|r1 IH1 r2 IH2|r1 IH1 r2 IH2|r IH];
    cbn [withoutDot deriv]; try reflexivity.
  - rewrite Hc, andb_true_r. destruct (p c); reflexivity.
  - rewrite withoutDot_nullable. destruct (nullable r1); cbn [withoutDot];
      rewrite IH1, ?IH2; reflexivity.
  - rewrite IH1, IH2. reflexivity.
  - rewrite IH. reflexivity.
Qed.

(** On a text without a dot, an expression matches as it does with
    the dot taken out of its classes. *)
Lemma withoutDot_matches (s : string) :
  hasByte "." s = false -> forall r, matches r s = matches (withoutDot r) s.
Proof.
  induction s as [|c s IH]; intros Hs r; cbn [matches].
  - symmetry. apply withoutDot_nullable.
  - cbn [hasByte] in Hs. apply orb_false_iff in Hs as [Hc Hs].
    rewrite (IH Hs), (withoutDot_deriv c r Hc). reflexivity.
Qed.

(** X20. Every input [validateURL] accepts holds a dot: a host
    without one, [localhost] for instance, is not a valid URL for
    [Analyze], with or without a scheme, a port or a path. *)
Theorem validateURL_needs_dot (url : string) :
  hasByte "." url = false -> validateURL url = false.
Proof.
  intros Hs. unfold validateURL. rewrite (withoutDot_matches url Hs).
  apply barren_matches. vm_compute. reflexivity.
Qed.

End Dots.

(** A local development server. *)
Lemma validateURL_needs_dot_example :
  validateURL "http://localhost:8080/" = false.
Proof. exact (validateURL_needs_dot "http://localhost:8080/" eq_refl). Defined.

(** ** The closure under implies *)

Section Closure.
Context {RL : RegexpLib}.

Lemma targets_mono (apps : gmap string application) (v : value) (d d' : detected) :
  dom d ⊆ dom d' -> targetsDetected apps v d -> targetsDetected apps v d'.
Proof. intros Hsub Ht patterns s Hp Hs Hk. apply Hsub, (Ht patterns s Hp Hs Hk). Qed.

Lemma closes_refl (apps : gmap string application) (st : detected * list string) :
  closes apps st st.
Proof. split; [apply grows_refl|]. intros k app Hin Hnot. contradiction. Qed.

Lemma closes_trans (apps : gmap string application) (a b c : detected * list string) :
  closes apps a b -> closes apps b c -> closes apps a c.
Proof.
  intros [Hg1 Hc1] [Hg2 Hc2]. split; [exact (grows_trans _ _ _ _ Hg1 Hg2)|].
  intros k app Hin Hnot Ha. destruct (decide (k ∈ dom (fst b))) as [Hb|Hb].
  - apply (targets_mono apps _ (fst b) (fst c) (grows_dom _ _ _ Hg2)).
    exact (Hc1 k app Hb Hnot Ha).
  - exact (Hc2 k app Hin Hb Ha).
Qed.

Lemma foldM_each {A B : Type} (R : B -> B -> Prop) (Q : A -> B -> Prop) (P : B -> Prop)
    (f : B -> A -> outcome B) (l : list A) :
  (forall b, R b b) ->
  (forall a b c, R a b -> R b c -> R a c) ->
  (forall a b b', R b b' -> Q a b -> Q a b') ->
  (forall b b', P b -> R b b' -> P b') ->
  (forall b a, a ∈ l -> P b ->
     match f b a with
     | Ok b' => R b b' /\ Q a b'
     | Panic => True
     | OutOfFuel => False
     end) ->
  forall b, P b ->
    match foldM f l b with
    | Ok b' => R b b' /\ (forall a, a ∈ l -> Q a b')
    | Panic => True
    | OutOfFuel => False
    end.
Proof.
  intros Hrefl Htrans Hmono HP. induction l as [|a l IH]; intros Hf b Hb; cbn [foldM].
  - split; [apply Hrefl|]. intros a Ha. apply elem_of_nil in Ha. contradiction.
  - pose proof (Hf b a ltac:(left) Hb) as Hstep.
    destruct (f b a) as [b1| |]; cbn; [|exact I|exact Hstep].
    destruct Hstep as [Hr Hq].
    specialize (IH (fun b a Ha => Hf b a (list_elem_of_further _ _ _ Ha)) b1 (HP b b1 Hb Hr)).
    destruct (foldM f l b1) as [b2| |]; [|exact I|exact IH].
    destruct IH as [Hr2 Hq2]. split; [exact (Htrans _ _ _ Hr Hr2)|].
    intros x Hx. apply elem_of_cons in Hx as [->|Hx]; [|apply Hq2, Hx].
    exact (Hmono a b1 b2 Hr2 Hq).
Qed.

Lemma parsePatterns_nil_targets (apps : gmap string application) (v : value) (d : detected) :
  isNil v = true -> targetsDetected apps v d.
Proof.
  destruct v; try discriminate. intros _ patterns s Hp Hs.
  cbv in Hp. injection Hp as <-. apply elem_of_nil in Hs. contradiction.
Qed.

(** The pass, with fuel enough, leaves the detection set closed. *)
Lemma resolveImplies_closes (apps : gmap string application) (fuel : nat) :
  forall (st : detected * list string) (v : value),
    (size (dom apps ∖ dom (fst st)) < fuel)%nat ->
    match resolveImplies fuel apps st v with
    | Ok st' => closes apps st st' /\ targetsDetected apps v (fst st')
    | Panic => True
    | OutOfFuel => False
    end.
Proof.
  induction fuel as [|fuel IH]; intros st v Hm; [lia|].
  cbn [resolveImplies]. pose proof (parsePatterns_fuel_free v) as Hp.
  destruct (parsePatterns v) as [patterns| |] eqn:Hpat; cbn; [|exact I|congruence].
  pose proof (foldM_each (closes apps)
                (fun (kv : string * list pattern) (st' : detected * list string) =>
                   forall p, p ∈ snd kv -> is_Some (apps !! str p) -> str p ∈ dom (fst st'))
                (fun st1 => closes apps st st1)) as Houter.
  match goal with
  | |- match foldM ?f patterns st with _ => _ end =>
      specialize (Houter f patterns (closes_refl apps)
                    (closes_trans apps))
  end.
  assert (Hmono : forall (s : string) (b b' : detected * list string),
             closes apps b b' -> s ∈ dom (fst b) -> s ∈ dom (fst b')).
  { intros s b b' [Hg _] Hs. exact (grows_dom _ _ _ Hg s Hs). }
  lapply Houter; [clear Houter; intros Houter|intros kv b b' Hr Hq p Hin Hk; eauto].
  lapply Houter;
    [clear Houter; intros Houter|intros b b' Hb Hr; exact (closes_trans _ _ _ _ Hb Hr)].
  lapply Houter; [clear Houter; intros Houter|].
  - specialize (Houter st (closes_refl apps st)).
    destruct (foldM _ patterns st) as [st'| |]; [|exact I|exact Houter].
    destruct Houter as [Hc Hq]. split; [exact Hc|].
    intros patterns' s Hp' Hs Hk. rewrite Hpat in Hp'. injection Hp' as <-.
    unfold patternStrs in Hs. apply list_elem_of_In, in_flat_map in Hs as (kv & Hkv & Hs).
    apply in_map_iff in Hs as (p & <- & Hin).
    apply (Hq kv); [apply list_elem_of_In, Hkv | apply list_elem_of_In, Hin | exact Hk].
  - intros st1 kv _ Hst1.
    pose proof (foldM_each (closes apps)
                  (fun (p : pattern) (st' : detected * list string) =>
                     is_Some (apps !! str p) -> str p ∈ dom (fst st'))
                  (fun st2 => closes apps st st2)) as Hinner.
    match goal with
    | |- match foldM ?f (snd kv) st1 with _ => _ end =>
        specialize (Hinner f (snd kv) (closes_refl apps) (closes_trans apps))
    end.
    lapply Hinner; [clear Hinner; intros Hinner|intros p b b' Hr Hq Hk; eauto].
    lapply Hinner;
      [clear Hinner; intros Hinner|intros b b' Hb Hr; exact (closes_trans _ _ _ _ Hb Hr)].
    lapply Hinner; [clear Hinner; intros Hinner|].
    + specialize (Hinner st1 Hst1).
      destruct (foldM _ (snd kv) st1) as [st'| |]; [|exact I|exact Hinner].
      exact Hinner.
    + intros st2 implied _ Hst2.
      destruct (apps !! str implied) as [app|] eqn:Ha;
        [|split; [apply closes_refl | intros [x Hx]; discriminate]].
      destruct (fst st2 !! str implied) as [found|] eqn:Hd;
        [split; [apply closes_refl | intros _; apply elem_of_dom; eauto]|].
      pose proof (grows_insert apps st2 app implied Ha Hd) as Hins.
      set (st_ins := (<[str implied := impliedApp app implied]> (fst st2),
                      snd st2 ++ [str implied])) in *.
      assert (Hin : str implied ∈ dom (fst st_ins)).
      { cbn. rewrite dom_insert_L. apply elem_of_union_l, elem_of_singleton. reflexivity. }
      assert (Hnew : forall k, k ∈ dom (fst st_ins) -> k ∉ dom (fst st2) -> k = str implied).
      { intros k Hk Hn. cbn in Hk. rewrite dom_insert_L in Hk.
        apply elem_of_union in Hk as [Hk|Hk]; [apply elem_of_singleton in Hk; exact Hk|].
        contradiction. }
      destruct (isNil (Implies app)) eqn:Hnil.
      * split; [|intros _; exact Hin]. split; [exact Hins|].
        intros k app' Hk Hn Ha'. rewrite (Hnew k Hk Hn), Ha in Ha'. injection Ha' as <-.
        apply parsePatterns_nil_targets, Hnil.
      * assert (Hfuel : (size (dom apps ∖ dom (fst st_ins)) < fuel)%nat).
        { pose proof (undetected_insert apps (fst st2) (str implied) app
                        (impliedApp app implied) Ha Hd).
          pose proof (undetected_le apps st st2 (proj1 Hst2)). cbn [fst st_ins]. lia. }
        specialize (IH st_ins (Implies app) Hfuel).
        destruct (resolveImplies fuel apps st_ins (Implies app)) as [st3| |];
          [|exact I|exact IH].
        destruct IH as [[Hg3 Hc3] Ht3]. split; [|intros _; exact (grows_dom _ _ _ Hg3 _ Hin)].
        split; [exact (grows_trans _ _ _ _ Hins Hg3)|].
        intros k app' Hk Hn Ha'. destruct (decide (k ∈ dom (fst st_ins))) as [Hki|Hki].
        -- rewrite (Hnew k Hki Hn), Ha in Ha'. injection Ha' as <-. exact Ht3.
        -- exact (Hc3 k app' Hk Hki Ha').
Qed.

Lemma foldM_unchanged {A B : Type} (f : B -> A -> outcome B) (l : list A) (b : B) :
  (forall a, a ∈ l -> f b a = Ok b) -> foldM f l b = Ok b.
Proof.
  induction l as [|a l IH]; intros Hf; [reflexivity|].
  cbn [foldM]. rewrite (Hf a) by left. cbn. apply IH.
  intros x Hx. apply Hf. right. exact Hx.
Qed.

(** On a set that holds the known targets of a value, the pass does
    nothing. *)
Lemma resolveImplies_nothing_to_do (apps : gmap string application) (fuel : nat)
    (st : detected * list string) (v : value) (patterns : list (string * list pattern)) :
  parsePatterns v = Ok patterns ->
  targetsDetected apps v (fst st) ->
  resolveImplies (S fuel) apps st v = Ok st.
Proof.
  intros Hp Ht. cbn [resolveImplies]. rewrite Hp. cbn.
  apply foldM_unchanged. intros kv Hkv. apply foldM_unchanged. intros p Hin.
  destruct (apps !! str p) as [app|] eqn:Ha; [|reflexivity].
  assert (Hd : str p ∈ dom (fst st)).
  { apply (Ht patterns (str p) Hp); [|rewrite Ha; eauto].
    unfold patternStrs. apply list_elem_of_In, in_flat_map.
    exists kv. split; [apply list_elem_of_In, Hkv|].
    apply in_map, list_elem_of_In, Hin. }
  apply elem_of_dom in Hd as [found ->]. reflexivity.
Qed.

(** X21. When the implies pass returns, the detection set is closed
    under implies as far as the pass went: every target of the value
    that the catalog knows is detected, and so is every known target
    of every technology the pass inserted. *)
Theorem resolveImplies_closed (apps : gmap string application) (d d' : detected)
    (v : value) (fuel : nat) (visited : list string) :
  (size (dom apps ∖ dom d) < fuel)%nat ->
  resolveImplies fuel apps (d, []) v = Ok (d', visited) ->
  (forall patterns s,
      parsePatterns v = Ok patterns -> s ∈ patternStrs patterns ->
      is_Some (apps !! s) -> s ∈ dom d')
  /\ (forall k app patterns s,
        k ∈ visited -> apps !! k = Some app ->
        parsePatterns (Implies app) = Ok patterns -> s ∈ patternStrs patterns ->
        is_Some (apps !! s) -> s ∈ dom d').
Proof.
  intros Hm Hok. pose proof (resolveImplies_closes apps fuel (d, []) v Hm) as H.
  rewrite Hok in H. destruct H as [[Hg Hc] Ht]. split; [exact Ht|].
  intros k app patterns s Hk Ha Hp Hs Hknown.
  destruct Hg as (new & Hl & _ & Hn & Hdom & _). cbn [fst snd] in *. subst visited.
  destruct (Hn k Hk) as (Hnot & _).
  assert (Hin : k ∈ dom d').
  { rewrite Hdom. apply elem_of_union_r, elem_of_list_to_set, Hk. }
  exact (Hc k app Hin Hnot Ha patterns s Hp Hs Hknown).
Qed.

(** X22. The implies pass is idempotent: run again on its own result,
    with the same value, it returns that result and inserts nothing. *)
Theorem resolveImplies_idempotent (apps : gmap string application) (d d' : detected)
    (v : value) (fuel fuel' : nat) (visited : list string) :
  (size (dom apps ∖ dom d) < fuel)%nat ->
  resolveImplies fuel apps (d, []) v = Ok (d', visited) ->
  resolveImplies (S fuel') apps (d', []) v = Ok (d', []).
Proof.
  intros Hm Hok. pose proof (resolveImplies_closes apps fuel (d, []) v Hm) as H.
  rewrite Hok in H. destruct H as [_ Ht].
  destruct fuel as [|fuel]; [discriminate|]. cbn [resolveImplies] in Hok.
  apply bind_Ok in Hok as (patterns & Hp & _).
  exact (resolveImplies_nothing_to_do apps fuel' (d', []) v patterns Hp Ht).
Qed.

End Closure.

(** [A] is detected and implies [B], which implies [A]: after the
    pass both are there, and a second pass inserts nothing. *)
Lemma resolveImplies_closed_example :
  exists d',
    resolveImplies (RL := LiteralRegexp.lib) 3 cyclicCatalog (detectedA, []) (VString "B")
      = Ok (d', ["B"])
    /\ "B" ∈ dom d' /\ "A" ∈ dom d'.
Proof.
  assert (Hm : (size (dom cyclicCatalog ∖ dom detectedA) < 3)%nat) by (vm_compute; lia).
  assert (Hrun : exists d',
             resolveImplies (RL := LiteralRegexp.lib) 3 cyclicCatalog (detectedA, [])
               (VString "B") = Ok (d', ["B"])).
  { eexists. vm_compute. reflexivity. }
  destruct Hrun as (d' & Hrun). exists d'. split; [exact Hrun|].
  destruct (resolveImplies_closed (RL := LiteralRegexp.lib) cyclicCatalog detectedA d'
              (VString "B") 3 ["B"] Hm Hrun) as [Hv Hk].
  split.
  - apply (Hv [("main", [parsePattern (RL := LiteralRegexp.lib) "B"])] "B" eq_refl).
    + left.
    + eexists. vm_compute. reflexivity.
  - apply (Hk "B" (withImplies (bareApp "B") (VString "A"))
              [("main", [parsePattern (RL := LiteralRegexp.lib) "A"])] "A").
    + left.
    + vm_compute. reflexivity.
    + reflexivity.
    + left.
    + eexists. vm_compute. reflexivity.
Defined.

Lemma resolveImplies_idempotent_example :
  exists d',
    resolveImplies (RL := LiteralRegexp.lib) 3 cyclicCatalog (detectedA, []) (VString "B")
      = Ok (d', ["B"])
    /\ resolveImplies (RL := LiteralRegexp.lib) 1 cyclicCatalog (d', []) (VString "B")
       = Ok (d', []).
Proof.
  assert (Hm : (size (dom cyclicCatalog ∖ dom detectedA) < 3)%nat) by (vm_compute; lia).
  assert (Hrun : exists d',
             resolveImplies (RL := LiteralRegexp.lib) 3 cyclicCatalog (detectedA, [])
               (VString "B") = Ok (d', ["B"])).
  { eexists. vm_compute. reflexivity. }
  destruct Hrun as (d' & Hrun). exists d'. split; [exact Hrun|].
  exact (resolveImplies_idempotent (RL := LiteralRegexp.lib) cyclicCatalog detectedA d'
           (VString "B") 3 0 ["B"] Hm Hrun).
Defined.

(** ** The gates of a unit of work *)

Section Gates.
Context {RL : RegexpLib} {SL : StringsLib} {QL : QueryLib} {JL : JSONLib} {MR : MapRange}.








End Gates.


(** ** The confidence field *)

Section Confidence.
Context {RL : RegexpLib}.












End Confidence.


(** * The implies pass, entry by entry *)

Section ImpliesPass.
Context {RL : RegexpLib}.

Lemma parsePatterns_typed (v : value) :
  listsHoldStrings v = true ->
  exists result,
    parsePatterns v = Ok result
    /\ grouped result
    /\ (forall k, pm_get k result = map parsePattern (stringsUnder k v)).
Proof.
  intros Hv. destruct (parseStrings_grouped v Hv) as (parsed & Hp & Hnd & Hget).
  unfold parsePatterns. rewrite Hp. cbn.
  destruct (compileStrings_get parsed) as [Hg Hk].
  eexists. split; [reflexivity|]. split; [exact Hg|].
  intros k. rewrite Hk, (pm_get_unique k parsed Hnd), Hget. reflexivity.
Qed.

Lemma ends_after {B : Type} (strict : bool) (R R' : B -> B -> Prop) (a b : B)
    (o : outcome B) :
  (forall c, R' b c -> R a c) -> ends strict R' b o -> ends strict R a o.
Proof. intros H. destruct o; cbn; auto. Qed.

Lemma foldM_ends {A B : Type} (strict : bool) (R : B -> B -> Prop)
    (f : B -> A -> outcome B) (l : list A) (b0 : B) :
  (forall a b c, R a b -> R b c -> R a c) ->
  (forall b a, a ∈ l -> R b0 b -> ends strict R b (f b a)) ->
  forall b, R b0 b -> ends strict R b0 (foldM f l b).
Proof.
  intros Htrans. induction l as [|a l IH]; intros Hf b Hb; [exact Hb|].
  cbn [foldM]. pose proof (Hf b a ltac:(left) Hb) as Hstep.
  destruct (f b a) as [b'| |]; cbn in Hstep |- *; [|exact Hstep|exact Hstep].
  apply IH; [|exact (Htrans _ _ _ Hb Hstep)].
  intros b1 a1 Ha1. apply Hf. right. exact Ha1.
Qed.

Lemma derives_refl (apps : gmap string application) (Q : pattern -> Prop)
    (st : detected * list string) :
  derives apps Q st st.
Proof. split; [apply grows_refl|]. intros k Hin Hnot. contradiction. Qed.

(** The pass started inside another one: its own patterns are the
    implies of a technology the outer pass inserted. *)
Lemma derives_rebase (apps : gmap string application) (Q Q' : pattern -> Prop)
    (a b c : detected * list string) :
  derives apps Q a b ->
  derives apps Q' b c ->
  (forall p, Q' p ->
     Q p \/ exists k' app',
              k' ∈ dom (fst b) /\ (k' ∉ dom (fst a))
              /\ apps !! k' = Some app' /\ patternOf (Implies app') p) ->
  derives apps Q a c.
Proof.
  intros [Hg1 Hs1] [Hg2 Hs2] HQ. split; [exact (grows_trans _ _ _ _ Hg1 Hg2)|].
  pose proof (grows_dom _ _ _ Hg1) as Hab. pose proof (grows_dom _ _ _ Hg2) as Hbc.
  destruct Hg2 as (_ & _ & _ & _ & _ & Hkeep).
  intros k Hin Hnot. destruct (decide (k ∈ dom (fst b))) as [Hb|Hb].
  - destruct (Hs1 k Hb Hnot) as (app & p & Ha & Hp & Hl & Hsrc).
    exists app, p. split; [exact Ha|]. split; [exact Hp|].
    split; [rewrite (Hkeep k Hb); exact Hl|].
    destruct Hsrc as [Hq|(k' & app' & Hk' & Hn' & Ha' & Hp')]; [left; exact Hq|].
    right. exists k', app'. auto.
  - destruct (Hs2 k Hin Hb) as (app & p & Ha & Hp & Hl & Hsrc).
    exists app, p. split; [exact Ha|]. split; [exact Hp|]. split; [exact Hl|].
    destruct Hsrc as [Hq|(k' & app' & Hk' & Hn' & Ha' & Hp')].
    + destruct (HQ p Hq) as [Hq'|(k' & app' & Hk' & Hn' & Ha' & Hp')]; [left; exact Hq'|].
      right. exists k', app'. auto.
    + right. exists k', app'. split; [exact Hk'|]. split; [|auto].
      intros Hka. apply Hn', Hab, Hka.
Qed.

Lemma derives_trans (apps : gmap string application) (Q : pattern -> Prop)
    (a b c : detected * list string) :
  derives apps Q a b -> derives apps Q b c -> derives apps Q a c.
Proof. intros H1 H2. apply (derives_rebase apps Q Q a b c H1 H2). auto. Qed.

Lemma derives_insert (apps : gmap string application) (Q : pattern -> Prop)
    (st : detected * list string) (app : application) (p : pattern) :
  apps !! str p = Some app ->
  fst st !! str p = None ->
  Q p ->
  derives apps Q st (<[str p := impliedApp app p]> (fst st), snd st ++ [str p]).
Proof.
  intros Ha Hd Hq. split; [exact (grows_insert apps st app p Ha Hd)|].
  intros k Hin Hnot. cbn [fst] in Hin. rewrite dom_insert_L in Hin.
  apply elem_of_union in Hin as [Hin|Hin]; [|contradiction].
  apply elem_of_singleton in Hin. subst k.
  exists app, p. cbn [fst]. rewrite lookup_insert_eq. auto.
Qed.

(** With fuel above the number of catalog technologies not yet
    detected the pass returns or panics, and it returns when the
    implies values hold strings only; every entry it made is the one
    of a pattern it met. *)
Lemma resolveImplies_ends (apps : gmap string application) (strict : bool) (fuel : nat) :
  (strict = true -> typedImplies apps) ->
  forall (st : detected * list string) (v : value),
    (strict = true -> listsHoldStrings v = true) ->
    (size (dom apps ∖ dom (fst st)) < fuel)%nat ->
    ends strict (derives apps (patternOf v)) st (resolveImplies fuel apps st v).
Proof.
  intros Htyped. induction fuel as [|fuel IH]; intros st v Hv Hm; [lia|].
  cbn [resolveImplies]. pose proof (parsePatterns_fuel_free v) as Hfree.
  destruct (parsePatterns v) as [patterns| |] eqn:Hpat; cbn; [| |congruence].
  2: { destruct strict; [|reflexivity].
       destruct (parsePatterns_typed v (Hv eq_refl)) as (r & Hr & _). congruence. }
  apply foldM_ends; [apply derives_trans| |apply derives_refl].
  intros st1 kv Hkv Hst1.
  apply foldM_ends; [apply derives_trans| |apply derives_refl].
  intros st2 implied Himplied Hst2.
  pose proof (derives_trans _ _ _ _ _ Hst1 Hst2) as Hst.
  destruct (apps !! str implied) as [app|] eqn:Ha; [|apply derives_refl].
  destruct (fst st2 !! str implied) as [found|] eqn:Hd; [apply derives_refl|].
  assert (Hq : patternOf v implied).
  { exists patterns. split; [exact Hpat|]. unfold patternsOf.
    apply list_elem_of_In, in_flat_map. exists kv.
    split; apply list_elem_of_In; assumption. }
  pose proof (derives_insert apps (patternOf v) st2 app implied Ha Hd Hq) as Hins.
  destruct (isNil (Implies app)); [exact Hins|].
  apply (ends_after strict (derives apps (patternOf v))
           (derives apps (patternOf (Implies app))) st2
           (<[str implied := impliedApp app implied]> (fst st2), snd st2 ++ [str implied])).
  - intros st3 H3. apply (derives_rebase apps _ _ _ _ _ Hins H3).
    intros p Hp. right. exists (str implied), app. cbn [fst].
    split; [rewrite dom_insert_L; apply elem_of_union_l, elem_of_singleton; reflexivity|].
    split; [apply not_elem_of_dom, Hd|]. auto.
  - apply IH; [intros Hs; exact (Htyped Hs _ _ Ha)|]. cbn [fst].
    pose proof (undetected_insert apps (fst st2) (str implied) app (impliedApp app implied)
                  Ha Hd).
    pose proof (undetected_le apps st st2 (proj1 Hst)). lia.
Qed.

(** C7. For every catalog, cyclic or not, every detection set and
    every implies value of any shape, the implies pass run with fuel
    above the number of catalog technologies that are not detected
    does not run out of it, and it returns when the implies values
    hold strings only: the recursion terminates.  When the pass
    returns, the keys it inserted are pairwise distinct (a technology
    is visited at most once); each names a catalog technology that was
    not detected and holds the entry with the name, the categories
    and the rules of that technology and the version and the
    confidence of a pattern [p] of that name, where [p] is a pattern
    of the value or of the implies of a technology the pass inserted;
    nothing else is inserted and the entries detected before are
    unchanged.  Every pattern of the value whose target the catalog
    knows has its target detected afterwards, and so has every pattern
    of the implies of every technology that was inserted. *)
Theorem resolveImplies_terminates (apps : gmap string application) (d : detected)
    (v : value) (fuel : nat) :
  (size (dom apps ∖ dom d) < fuel)%nat ->
  resolveImplies fuel apps (d, []) v <> OutOfFuel
  /\ (typedImplies apps -> listsHoldStrings v = true ->
      exists d' visited, resolveImplies fuel apps (d, []) v = Ok (d', visited))
  /\ (forall d' visited,
        resolveImplies fuel apps (d, []) v = Ok (d', visited) ->
        NoDup visited
        /\ (forall k, k ∈ visited ->
              (k ∉ dom d)
              /\ exists app p,
                   apps !! k = Some app /\ str p = k
                   /\ d' !! k = Some {| rName := Name app; rVersion := version p;
                                        rCategories := Categories app;
                                        rConfidence := confidence p;
                                        excludes := Excludes app; implies := Implies app |}
                   /\ (patternOf v p
                       \/ exists k' app',
                            k' ∈ visited /\ apps !! k' = Some app'
                            /\ patternOf (Implies app') p))
        /\ dom d' = dom d ∪ list_to_set visited
        /\ (forall k, k ∈ dom d -> d' !! k = d !! k)
        /\ (forall p, patternOf v p -> is_Some (apps !! str p) -> str p ∈ dom d')
        /\ (forall k app p,
              k ∈ visited -> apps !! k = Some app -> patternOf (Implies app) p ->
              is_Some (apps !! str p) -> str p ∈ dom d')).
Proof.
  intros Hm. split; [|split].
  - pose proof (resolveImplies_ends apps false fuel ltac:(discriminate) (d, []) v
                  ltac:(discriminate) Hm) as H.
    intros Hout. rewrite Hout in H. exact H.
  - intros Htyped Hv.
    pose proof (resolveImplies_ends apps true fuel (fun _ => Htyped) (d, []) v
                  (fun _ => Hv) Hm) as H.
    destruct (resolveImplies fuel apps (d, []) v) as [[d' visited]| |];
      [eauto | discriminate H | contradiction].
  - intros d' visited Hok.
    pose proof (resolveImplies_ends apps false fuel ltac:(discriminate) (d, []) v
                  ltac:(discriminate) Hm) as H.
    pose proof (resolveImplies_closes apps fuel (d, []) v Hm) as Hc.
    rewrite Hok in H, Hc. destruct H as [Hg Hs]. destruct Hc as [[_ Hc] Ht].
    destruct Hg as (new & Hl & Hnd & Hn & Hdom & Hkeep). cbn [fst snd] in *. subst visited.
    assert (Hvisited : forall k, k ∈ dom d' -> k ∉ dom d -> k ∈ new).
    { intros k Hin Hnot. rewrite Hdom in Hin. apply elem_of_union in Hin as [Hin|Hin];
        [contradiction | apply elem_of_list_to_set in Hin; exact Hin]. }
    assert (Hin : forall k, k ∈ new -> k ∈ dom d' /\ k ∉ dom d).
    { intros k Hk. split; [|exact (proj1 (Hn k Hk))].
      rewrite Hdom. apply elem_of_union_r, elem_of_list_to_set, Hk. }
    assert (Hstrs : forall w p, patternOf w p ->
               exists patterns, parsePatterns w = Ok patterns /\ str p ∈ patternStrs patterns).
    { intros w p (patterns & Hp & Hmem). exists patterns. split; [exact Hp|].
      unfold patternsOf in Hmem. unfold patternStrs.
      apply list_elem_of_In, in_flat_map in Hmem as (kv & Hkv & Hmem).
      apply list_elem_of_In, in_flat_map. exists kv. split; [exact Hkv|].
      apply in_map, Hmem. }
    split; [exact Hnd|]. split; [|split; [exact Hdom|split; [exact Hkeep|split]]].
    + intros k Hk. destruct (Hin k Hk) as [Hkd Hnot]. split; [exact Hnot|].
      destruct (Hs k Hkd Hnot) as (app & p & Ha & Hp & Hl & Hsrc).
      exists app, p. split; [exact Ha|]. split; [exact Hp|]. split; [exact Hl|].
      destruct Hsrc as [Hq|(k' & app' & Hk' & Hn' & Ha' & Hp')]; [left; exact Hq|].
      right. exists k', app'. split; [exact (Hvisited k' Hk' Hn')|]. auto.
    + intros p Hp Hknown. destruct (Hstrs v p Hp) as (patterns & Hpat & Hmem).
      exact (Ht patterns (str p) Hpat Hmem Hknown).
    + intros k app p Hk Ha Hp Hknown. destruct (Hin k Hk) as [Hkd Hnot].
      destruct (Hstrs _ p Hp) as (patterns & Hpat & Hmem).
      exact (Hc k app Hkd Hnot Ha patterns (str p) Hpat Hmem Hknown).
Qed.

End ImpliesPass.

(** The cyclic catalog: [A] implies [B] and [B] implies [A], [A] is
    detected.  On a list that names [B] with a confidence and then
    [A], the pass inserts [B] with that confidence, meets [A] again
    under the implies of [B] and stops. *)
Lemma resolveImplies_cycle :
  resolveImplies (RL := LiteralRegexp.lib) 3 cyclicCatalog (detectedA, [])
    (VList [VString "B\;confidence:50"; VString "A"]) <> OutOfFuel
  /\ exists d',
       resolveImplies (RL := LiteralRegexp.lib) 3 cyclicCatalog (detectedA, [])
         (VList [VString "B\;confidence:50"; VString "A"]) = Ok (d', ["B"])
       /\ d' !! "B" = Some {| rName := "B"; rVersion := ""; rCategories := [];
                              rConfidence := 50; excludes := VNil; implies := VString "A" |}
       /\ dom d' = dom detectedA ∪ list_to_set ["B"].
Proof.
  assert (Hm : (size (dom cyclicCatalog ∖ dom detectedA) < 3)%nat).
  { vm_compute. lia. }
  destruct (resolveImplies_terminates (RL := LiteralRegexp.lib)
              cyclicCatalog detectedA (VList [VString "B\;confidence:50"; VString "A"]) 3 Hm)
    as (Hfuel & _ & Hspec).
  split; [exact Hfuel|].
  assert (Hrun : exists d',
             resolveImplies (RL := LiteralRegexp.lib) 3 cyclicCatalog (detectedA, [])
               (VList [VString "B\;confidence:50"; VString "A"]) = Ok (d', ["B"])
             /\ d' !! "B" = Some {| rName := "B"; rVersion := ""; rCategories := [];
                                    rConfidence := 50; excludes := VNil;
                                    implies := VString "A" |}).
  { eexists. split; vm_compute; reflexivity. }
  destruct Hrun as (d' & Hrun & Hb). exists d'. split; [exact Hrun|]. split; [exact Hb|].
  destruct (Hspec d' ["B"] Hrun) as (_ & _ & Hdom & _). exact Hdom.
Defined.

(** * The matchers, for any number of patterns *)

Section Sweeps.
Context {RL : RegexpLib} {SL : StringsLib} {QL : QueryLib}.

Lemma pm_get_in {A : Type} (k : string) (m : list (string * list A)) :
  pm_get k m <> [] -> (k, pm_get k m) ∈ m.
Proof.
  induction m as [|[k0 xs] m IH]; cbn; [congruence|].
  destruct (String.eqb_spec k k0) as [->|Hne]; intros H; [left|right; exact (IH H)].
Qed.

Lemma in_pm_get {A : Type} (k : string) (xs : list A) (m : list (string * list A)) :
  NoDup (map fst m) -> (k, xs) ∈ m -> pm_get k m = xs.
Proof.
  induction m as [|[k0 ys] m IH]; intros Hnd Hin; [apply elem_of_nil in Hin; contradiction|].
  cbn [map fst] in Hnd. apply NoDup_cons in Hnd as [Hk0 Hnd].
  apply elem_of_cons in Hin as [Heq|Hin].
  - injection Heq as <- <-. cbn. rewrite String.eqb_refl. reflexivity.
  - cbn. destruct (String.eqb_spec k k0) as [->|Hne]; [|exact (IH Hnd Hin)].
    exfalso. apply Hk0. apply list_elem_of_In, in_map_iff.
    exists (k0, xs). split; [reflexivity | apply list_elem_of_In, Hin].
Qed.

(** The compiled patterns of a value, sub-key by sub-key, are the
    compiled pattern strings of the value. *)
Lemma compiled_member (v : value) :
  listsHoldStrings v = true ->
  exists result,
    parsePatterns v = Ok result
    /\ (forall k s, s ∈ stringsUnder k v ->
          exists ps, (k, ps) ∈ result /\ parsePattern s ∈ ps)
    /\ (forall k ps p, (k, ps) ∈ result -> p ∈ ps ->
          exists s, s ∈ stringsUnder k v /\ p = parsePattern s).
Proof.
  intros Hv. destruct (parsePatterns_typed v Hv) as (result & Hr & [Hnd Hne] & Hget).
  exists result. split; [exact Hr|]. split.
  - intros k s Hs. exists (pm_get k result).
    assert (Hin : parsePattern s ∈ pm_get k result).
    { rewrite Hget. apply list_elem_of_In, in_map, list_elem_of_In, Hs. }
    split; [|exact Hin]. apply pm_get_in. intros Hnil. rewrite Hnil in Hin.
    apply elem_of_nil in Hin. contradiction.
  - intros k ps p Hk Hp. rewrite <- (in_pm_get k ps result Hnd Hk), Hget in Hp.
    apply list_elem_of_In, in_map_iff in Hp as (s & <- & Hs).
    exists s. split; [apply list_elem_of_In, Hs | reflexivity].
Qed.

Lemma fold_left_keeps {A B : Type} (P : B -> Prop) (f : B -> A -> B) (l : list A) :
  (forall b a, P b -> P (f b a)) -> forall b, P b -> P (fold_left f l b).
Proof.
  intros Hf. induction l as [|a l IH]; intros b Hb; [exact Hb|].
  cbn [fold_left]. apply IH, Hf, Hb.
Qed.

Lemma fold_left_reaches {A B : Type} (P : B -> Prop) (f : B -> A -> B) (l : list A)
    (a0 : A) :
  (forall b a, P b -> P (f b a)) -> a0 ∈ l -> (forall b, P (f b a0)) ->
  forall b, P (fold_left f l b).
Proof.
  intros Hf Hin H0. induction l as [|a l IH]; intros b;
    [apply elem_of_nil in Hin; contradiction|].
  cbn [fold_left]. apply elem_of_cons in Hin as [<-|Hin].
  - apply fold_left_keeps; [exact Hf | apply H0].
  - apply IH, Hin.
Qed.

Lemma fold_left_same {A B : Type} (f : B -> A -> B) (l : list A) (b : B) :
  (forall a, a ∈ l -> f b a = b) -> fold_left f l b = b.
Proof.
  induction l as [|a l IH]; intros Hf; [reflexivity|].
  cbn [fold_left]. rewrite (Hf a) by left. apply IH. intros x Hx. apply Hf. right. exact Hx.
Qed.

Lemma fold_left_ext {A B : Type} (f g : B -> A -> B) (l : list A) :
  (forall b a, f b a = g b a) -> forall b, fold_left f l b = fold_left g l b.
Proof.
  intros Hfg. induction l as [|a l IH]; intros b; [reflexivity|].
  cbn [fold_left]. rewrite Hfg. apply IH.
Qed.

Lemma forPatterns_ext {S : Type} (patterns : list (string * list pattern))
    (body body' : string -> pattern -> S -> S) :
  (forall k p s, body k p s = body' k p s) ->
  forall s, forPatterns patterns body s = forPatterns patterns body' s.
Proof.
  intros Hb s. unfold forPatterns. apply fold_left_ext. intros s1 kv.
  apply fold_left_ext. intros s2 p. apply Hb.
Qed.

Lemma step_keeps (test : pattern -> string -> bool) (app : application) (p : pattern)
    (v : string) (d : detected) :
  Name app ∈ dom d -> Name app ∈ dom (if test p v then hit app p v d else d).
Proof.
  intros Hd. destruct (test p v); [|exact Hd].
  rewrite hit_dom. apply elem_of_union_r, Hd.
Qed.

(** One matching value under one pattern is enough. *)
Lemma sweep_detects (test : pattern -> string -> bool) (app : application)
    (ev : string -> list string) (patterns : list (string * list pattern)) (d : detected)
    (k : string) (ps : list pattern) (p : pattern) (v : string) :
  (k, ps) ∈ patterns -> p ∈ ps -> v ∈ ev k -> test p v = true ->
  Name app ∈ dom (sweep test app ev patterns d).
Proof.
  intros Hk Hp Hv Ht. unfold sweep, forPatterns.
  assert (Hvalues : forall k' p' d', Name app ∈ dom d' ->
             Name app ∈ dom (fold_left (fun d v => if test p' v then hit app p' v d else d)
                                       (ev k') d')).
  { intros k' p' d' Hd'. apply (fold_left_keeps (fun d => Name app ∈ dom d)); [|exact Hd'].
    intros d1 v1. apply step_keeps. }
  apply (fold_left_reaches (fun d => Name app ∈ dom d) _ patterns (k, ps)); [|exact Hk|].
  - intros d1 kv Hd1. apply (fold_left_keeps (fun d => Name app ∈ dom d)); [|exact Hd1].
    intros d2 p2. apply Hvalues.
  - intros d1. cbn [fst snd].
    apply (fold_left_reaches (fun d => Name app ∈ dom d) _ ps p); [|exact Hp|].
    + intros d2 p2. apply Hvalues.
    + intros d2. apply (fold_left_reaches (fun d => Name app ∈ dom d) _ (ev k) v);
        [|exact Hv|].
      * intros d3 v3. apply step_keeps.
      * intros d3. rewrite Ht, hit_dom. apply elem_of_union_l, elem_of_singleton. reflexivity.
Qed.

(** Without a matching value under a pattern nothing happens. *)
Lemma sweep_misses (test : pattern -> string -> bool) (app : application)
    (ev : string -> list string) (patterns : list (string * list pattern)) (d : detected) :
  (forall k ps p v, (k, ps) ∈ patterns -> p ∈ ps -> v ∈ ev k -> test p v = false) ->
  sweep test app ev patterns d = d.
Proof.
  intros H. unfold sweep, forPatterns. apply fold_left_same. intros [k ps] Hk.
  apply fold_left_same. intros p Hp. apply fold_left_same. intros v Hv. cbn [fst].
  rewrite (H k ps p v Hk Hp Hv). reflexivity.
Qed.

(** The same, on the pattern strings of the catalog value. *)
Lemma run_detects (test : pattern -> string -> bool) (app : application)
    (ev : string -> list string) (w : value) (d : detected) (k s v : string) :
  listsHoldStrings w = true ->
  s ∈ stringsUnder k w -> v ∈ ev k -> test (parsePattern s) v = true ->
  exists d',
    (patterns ← parsePatterns w; Ok (sweep test app ev patterns d)) = Ok d'
    /\ Name app ∈ dom d'.
Proof.
  intros Hw Hs Hv Ht. destruct (compiled_member w Hw) as (result & Hr & Hin & _).
  destruct (Hin k s Hs) as (ps & Hk & Hp). rewrite Hr. eexists. split; [reflexivity|].
  exact (sweep_detects test app ev result d k ps _ v Hk Hp Hv Ht).
Qed.

Lemma run_misses (test : pattern -> string -> bool) (app : application)
    (ev : string -> list string) (w : value) (d : detected) :
  listsHoldStrings w = true ->
  (forall k s v, s ∈ stringsUnder k w -> v ∈ ev k -> test (parsePattern s) v = false) ->
  (patterns ← parsePatterns w; Ok (sweep test app ev patterns d)) = Ok d.
Proof.
  intros Hw H. destruct (compiled_member w Hw) as (result & Hr & _ & Hout).
  rewrite Hr. cbn. f_equal. apply sweep_misses. intros k ps p v Hk Hp Hv.
  destruct (Hout k ps p Hk Hp) as (s & Hs & ->). exact (H k s v Hs Hv).
Qed.

(** Every matcher is such a sweep. *)
Lemma analyzeHeaders_sweep (app : application) (headers : gmap string (list string))
    (d : detected) :
  analyzeHeaders app headers d
  = (patterns ← parsePatterns (Headers app);
     Ok (sweep keyedMatches app (fun k => valuesAt headers (ToLower k)) patterns d)).
Proof.
  unfold analyzeHeaders. destruct (parsePatterns (Headers app)); [|reflexivity..].
  cbn. f_equal. apply forPatterns_ext. intros k p d1. unfold valuesAt.
  destruct (headers !! ToLower k); reflexivity.
Qed.

Lemma analyzeMeta_sweep (app : application) (metas : gmap string (list string))
    (d : detected) :
  analyzeMeta app metas d
  = (patterns ← parsePatterns (Meta app);
     Ok (sweep keyedMatches app (fun k => valuesAt metas (ToLower k)) patterns d)).
Proof.
  unfold analyzeMeta. destruct (parsePatterns (Meta app)); [|reflexivity..].
  cbn. f_equal. apply forPatterns_ext. intros k p d1. unfold valuesAt.
  destruct (metas !! ToLower k); reflexivity.
Qed.

Lemma analyseDNS_sweep (app : application) (dns : gmap string (list string))
    (d : detected) :
  analyseDNS app dns d
  = (patterns ← parsePatterns (DNS app);
     Ok (sweep keyedMatches app (fun k => valuesAt dns (ToUpper k)) patterns d)).
Proof.
  unfold analyseDNS. destruct (parsePatterns (DNS app)); [|reflexivity..].
  cbn. f_equal. apply forPatterns_ext. intros k p d1. unfold valuesAt.
  destruct (dns !! ToUpper k); reflexivity.
Qed.

Lemma analyzeCookies_sweep (app : application) (cookies : gmap string string)
    (d : detected) :
  analyzeCookies app cookies d
  = (patterns ← parsePatterns (Cookies app);
     Ok (sweep keyedMatches app (fun k => valueAt (cookies !! ToLower k)) patterns d)).
Proof.
  unfold analyzeCookies. destruct (parsePatterns (Cookies app)); [|reflexivity..].
  cbn. f_equal. apply forPatterns_ext. intros k p d1.
  destruct (cookies !! ToLower k); reflexivity.
Qed.

Lemma analyseJS_sweep (app : application) (evalJS : string -> option string)
    (d : detected) :
  analyseJS app evalJS d
  = (patterns ← parsePatterns (Js app);
     Ok (sweep keyedMatches app (fun k => valueAt (evalJS k)) patterns d)).
Proof.
  unfold analyseJS. destruct (parsePatterns (Js app)) as [patterns| |]; [|reflexivity..].
  cbn. f_equal. unfold sweep, forPatterns. apply fold_left_ext. intros d1 [k ps].
  cbn [fst snd]. destruct (evalJS k) as [v|]; [reflexivity|].
  symmetry. apply fold_left_same. reflexivity.
Qed.

Lemma analyzeHTML_sweep (app : application) (html : string) (d : detected) :
  analyzeHTML app html d
  = (patterns ← parsePatterns (HTML app);
     Ok (sweep regexMatches app (fun _ => [html]) patterns d)).
Proof. reflexivity. Qed.

Lemma analyzeURL_sweep (app : application) (url : string) (d : detected) :
  analyzeURL app url d
  = (patterns ← parsePatterns (VString (URL app));
     Ok (sweep regexMatches app (fun _ => [url]) patterns d)).
Proof. reflexivity. Qed.

Lemma analyzeScripts_sweep (app : application) (scripts : list string) (d : detected) :
  analyzeScripts app scripts d
  = (patterns ← parsePatterns (Scripts app);
     Ok (sweep regexMatches app (fun _ => scripts) patterns d)).
Proof.
  unfold analyzeScripts. destruct (parsePatterns (Scripts app)); [|reflexivity..].
  cbn. f_equal. apply forPatterns_ext. intros k p d1. unfold regexMatches.
  destruct (regex p); [reflexivity|]. symmetry. apply fold_left_same. reflexivity.
Qed.

End Sweeps.

Section DomSweep.
Context {RL : RegexpLib} {SL : StringsLib} {QL : QueryLib}.

Lemma sweep_keeps (test : pattern -> string -> bool) (app : application)
    (ev : string -> list string) (patterns : list (string * list pattern)) (d : detected) :
  Name app ∈ dom d -> Name app ∈ dom (sweep test app ev patterns d).
Proof.
  intros Hd. unfold sweep, forPatterns.
  apply (fold_left_keeps (fun d => Name app ∈ dom d)); [|exact Hd]. intros d1 kv Hd1.
  apply (fold_left_keeps (fun d => Name app ∈ dom d)); [|exact Hd1]. intros d2 p Hd2.
  apply (fold_left_keeps (fun d => Name app ∈ dom d)); [|exact Hd2]. intros d3 v.
  apply step_keeps.
Qed.

Lemma foldM_keeps {A B : Type} (P : B -> Prop) (f : B -> A -> outcome B) (l : list A) :
  (forall b a, a ∈ l -> exists b', f b a = Ok b' /\ (P b -> P b')) ->
  forall b, exists b', foldM f l b = Ok b' /\ (P b -> P b').
Proof.
  induction l as [|a l IH]; intros Hf b; [exists b; split; [reflexivity | auto]|].
  cbn [foldM]. destruct (Hf b a ltac:(left)) as (b1 & -> & H1). cbn.
  destruct (IH (fun b a Ha => Hf b a (list_elem_of_further _ _ _ Ha)) b1) as (b2 & -> & H2).
  exists b2. split; [reflexivity | auto].
Qed.

Lemma foldM_reaches {A B : Type} (P : B -> Prop) (f : B -> A -> outcome B) (l : list A)
    (a0 : A) :
  a0 ∈ l ->
  (forall b a, a ∈ l -> exists b', f b a = Ok b' /\ (P b -> P b')) ->
  (forall b, exists b', f b a0 = Ok b' /\ P b') ->
  forall b, exists b', foldM f l b = Ok b' /\ P b'.
Proof.
  induction l as [|a l IH]; intros Hin Hf H0 b; [apply elem_of_nil in Hin; contradiction|].
  cbn [foldM]. apply elem_of_cons in Hin as [<-|Hin].
  - destruct (H0 b) as (b1 & -> & H1). cbn.
    destruct (foldM_keeps P f l (fun b a Ha => Hf b a (list_elem_of_further _ _ _ Ha)) b1)
      as (b2 & -> & H2).
    exists b2. split; [reflexivity | auto].
  - destruct (Hf b a ltac:(left)) as (b1 & -> & _). cbn.
    apply (IH Hin (fun b a Ha => Hf b a (list_elem_of_further _ _ _ Ha)) H0).
Qed.

(** The turn of [analyseDom] for one type of one selected element. *)
Lemma domStep_keeps (app : application) (el : Selection) (tv : string * value)
    (d : detected) :
  listsHoldStrings (snd tv) = true ->
  exists d',
    (patterns ← parsePatterns (snd tv);
     Ok (forPatterns patterns (fun attribute pattrn d =>
           let value := domValue el (fst tv) attribute in
           if keyedMatches pattrn value then hit app pattrn value d else d) d)) = Ok d'
    /\ (Name app ∈ dom d -> Name app ∈ dom d').
Proof.
  intros Hv. destruct (parsePatterns_typed (snd tv) Hv) as (result & -> & _).
  eexists. split; [reflexivity|].
  apply (sweep_keeps keyedMatches app (fun attr => [domValue el (fst tv) attr])).
Qed.

Lemma analyseDom_detects (app : application) (html : string) (d : detected)
    (sel : string) (tvs : list (string * value)) (ty : string) (v : value)
    (attr s : string) (el : Selection) :
  typedDom app ->
  (sel, tvs) ∈ default [] (Dom app) -> (ty, v) ∈ tvs ->
  s ∈ stringsUnder attr v ->
  FindFirst html sel = Some el ->
  keyedMatches (parsePattern s) (domValue el ty attr) = true ->
  exists d', analyseDom app html d = Ok d' /\ Name app ∈ dom d'.
Proof.
  intros Htyped Hsel Htv Hs Hel Hmatch. unfold analyseDom.
  apply (foldM_reaches (fun d => Name app ∈ dom d) _ _ (sel, tvs) Hsel).
  - intros d1 [sel' tvs'] Hsel'. cbn [fst snd].
    destruct (FindFirst html sel') as [el'|]; [|exists d1; split; [reflexivity | auto]].
    apply (foldM_keeps (fun d => Name app ∈ dom d)). intros d2 [ty' v'] Htv'.
    apply domStep_keeps. exact (Htyped sel' tvs' ty' v' Hsel' Htv').
  - intros d1. cbn [fst snd]. rewrite Hel.
    apply (foldM_reaches (fun d => Name app ∈ dom d) _ _ (ty, v) Htv).
    + intros d2 [ty' v'] Htv'. apply domStep_keeps. exact (Htyped sel tvs ty' v' Hsel Htv').
    + intros d2. cbn [fst snd].
      exact (run_detects keyedMatches app (fun attr => [domValue el ty attr]) v d2 attr s _
               (Htyped sel tvs ty v Hsel Htv) Hs ltac:(left) Hmatch).
Qed.

Lemma analyseDom_misses (app : application) (html : string) (d : detected) :
  (forall sel tvs, (sel, tvs) ∈ default [] (Dom app) -> FindFirst html sel = None) ->
  analyseDom app html d = Ok d.
Proof.
  intros H. unfold analyseDom. apply foldM_unchanged. intros [sel tvs] Hsel.
  cbn [fst]. rewrite (H sel tvs Hsel). reflexivity.
Qed.

End DomSweep.

(** * Patterns with an empty body, among other patterns *)

Section EmptyBodies.
Context {RL : RegexpLib} {SL : StringsLib} {QL : QueryLib}.

Lemma empty_body_keyed (s v : string) :
  patternBody s = "" -> keyedMatches (parsePattern s) v = true.
Proof.
  intros Hb. apply keyedMatches_empty. exact (proj1 (parsePattern_empty_body s Hb)).
Qed.

Lemma empty_body_regex (s v : string) :
  patternBody s = "" -> regexMatches (parsePattern s) v = false.
Proof.
  intros Hb. apply regexMatches_nil. exact (proj2 (parsePattern_empty_body s Hb)).
Qed.

Lemma valuesAt_Some (m : gmap string (list string)) (k : string) (vs : list string)
    (v : string) :
  m !! k = Some vs -> v ∈ vs -> v ∈ valuesAt m k.
Proof. unfold valuesAt. intros -> Hv. exact Hv. Qed.

Lemma valuesAt_inv (m : gmap string (list string)) (k : string) (v : string) :
  v ∈ valuesAt m k -> exists vs, m !! k = Some vs /\ v ∈ vs.
Proof.
  unfold valuesAt. destruct (m !! k) as [vs|]; cbn; [eauto|].
  intros H. apply elem_of_nil in H. contradiction.
Qed.

Lemma valueAt_inv (o : option string) (v : string) : v ∈ valueAt o -> o = Some v.
Proof.
  destruct o as [x|]; cbn; intros H.
  - apply list_elem_of_singleton in H. subst. reflexivity.
  - apply elem_of_nil in H. contradiction.
Qed.

(** C2 (amended).  The patterns of a technology are any number of
    pattern strings under any number of sub-keys, in lists that hold
    strings only.  Under the keyed kinds a pattern string with an
    empty body detects the technology whenever the evidence key of
    its sub-key is there, whatever the value and whatever the other
    patterns: a header, meta or dns key with at least one value, a
    cookie, a js property the scraper has a value for, a dom selector
    that selects an element.  A pattern under a key that is not there
    never detects: the detection set is left as it was unless a
    pattern matches a value under a key that is there (for dom:
    unless a selector selects an element).  Under url, html and
    scripts a pattern with an empty body never detects: the detection
    set is left as it was unless a pattern with a body matches. *)
Theorem empty_body_detection (app : application) (d : detected) :
  (forall headers key s h hs,
      listsHoldStrings (Headers app) = true ->
      s ∈ stringsUnder key (Headers app) -> patternBody s = "" ->
      headers !! ToLower key = Some (h :: hs) ->
      exists d', analyzeHeaders app headers d = Ok d' /\ Name app ∈ dom d')
  /\ (forall cookies key s cookie,
      listsHoldStrings (Cookies app) = true ->
      s ∈ stringsUnder key (Cookies app) -> patternBody s = "" ->
      cookies !! ToLower key = Some cookie ->
      exists d', analyzeCookies app cookies d = Ok d' /\ Name app ∈ dom d')
  /\ (forall metas key s h hs,
      listsHoldStrings (Meta app) = true ->
      s ∈ stringsUnder key (Meta app) -> patternBody s = "" ->
      metas !! ToLower key = Some (h :: hs) ->
      exists d', analyzeMeta app metas d = Ok d' /\ Name app ∈ dom d')
  /\ (forall dns key s h hs,
      listsHoldStrings (DNS app) = true ->
      s ∈ stringsUnder key (DNS app) -> patternBody s = "" ->
      dns !! ToUpper key = Some (h :: hs) ->
      exists d', analyseDNS app dns d = Ok d' /\ Name app ∈ dom d')
  /\ (forall evalJS key s v,
      listsHoldStrings (Js app) = true ->
      s ∈ stringsUnder key (Js app) -> patternBody s = "" ->
      evalJS key = Some v ->
      exists d', analyseJS app evalJS d = Ok d' /\ Name app ∈ dom d')
  /\ (forall html sel tvs ty v attr s el,
      typedDom app ->
      (sel, tvs) ∈ default [] (Dom app) -> (ty, v) ∈ tvs ->
      s ∈ stringsUnder attr v -> patternBody s = "" ->
      FindFirst html sel = Some el ->
      exists d', analyseDom app html d = Ok d' /\ Name app ∈ dom d')
  /\ (forall headers,
      listsHoldStrings (Headers app) = true ->
      (forall key s vs v,
          s ∈ stringsUnder key (Headers app) ->
          headers !! ToLower key = Some vs -> v ∈ vs ->
          keyedMatches (parsePattern s) v = false) ->
      analyzeHeaders app headers d = Ok d)
  /\ (forall cookies,
      listsHoldStrings (Cookies app) = true ->
      (forall key s cookie,
          s ∈ stringsUnder key (Cookies app) ->
          cookies !! ToLower key = Some cookie ->
          keyedMatches (parsePattern s) cookie = false) ->
      analyzeCookies app cookies d = Ok d)
  /\ (forall metas,
      listsHoldStrings (Meta app) = true ->
      (forall key s vs v,
          s ∈ stringsUnder key (Meta app) ->
          metas !! ToLower key = Some vs -> v ∈ vs ->
          keyedMatches (parsePattern s) v = false) ->
      analyzeMeta app metas d = Ok d)
  /\ (forall dns,
      listsHoldStrings (DNS app) = true ->
      (forall key s vs v,
          s ∈ stringsUnder key (DNS app) ->
          dns !! ToUpper key = Some vs -> v ∈ vs ->
          keyedMatches (parsePattern s) v = false) ->
      analyseDNS app dns d = Ok d)
  /\ (forall evalJS,
      listsHoldStrings (Js app) = true ->
      (forall key s v,
          s ∈ stringsUnder key (Js app) -> evalJS key = Some v ->
          keyedMatches (parsePattern s) v = false) ->
      analyseJS app evalJS d = Ok d)
  /\ (forall html,
      (forall sel tvs, (sel, tvs) ∈ default [] (Dom app) -> FindFirst html sel = None) ->
      analyseDom app html d = Ok d)
  /\ (forall url,
      patternBody (URL app) = "" \/ regexMatches (parsePattern (URL app)) url = false ->
      analyzeURL app url d = Ok d)
  /\ (forall html,
      listsHoldStrings (HTML app) = true ->
      (forall key s, s ∈ stringsUnder key (HTML app) ->
                     patternBody s = "" \/ regexMatches (parsePattern s) html = false) ->
      analyzeHTML app html d = Ok d)
  /\ (forall scripts,
      listsHoldStrings (Scripts app) = true ->
      (forall key s script,
          s ∈ stringsUnder key (Scripts app) -> script ∈ scripts ->
          patternBody s = "" \/ regexMatches (parsePattern s) script = false) ->
      analyzeScripts app scripts d = Ok d).
Proof.
  repeat apply conj.
  - intros headers key s h hs Hw Hs Hb Hk. rewrite analyzeHeaders_sweep.
    apply (run_detects keyedMatches app _ _ d key s h Hw Hs);
      [|exact (empty_body_keyed s h Hb)].
    apply (valuesAt_Some headers _ (h :: hs)); [exact Hk | left].
  - intros cookies key s cookie Hw Hs Hb Hk. rewrite analyzeCookies_sweep.
    apply (run_detects keyedMatches app _ _ d key s cookie Hw Hs);
      [|exact (empty_body_keyed s cookie Hb)].
    rewrite Hk. left.
  - intros metas key s h hs Hw Hs Hb Hk. rewrite analyzeMeta_sweep.
    apply (run_detects keyedMatches app _ _ d key s h Hw Hs);
      [|exact (empty_body_keyed s h Hb)].
    apply (valuesAt_Some metas _ (h :: hs)); [exact Hk | left].
  - intros dns key s h hs Hw Hs Hb Hk. rewrite analyseDNS_sweep.
    apply (run_detects keyedMatches app _ _ d key s h Hw Hs);
      [|exact (empty_body_keyed s h Hb)].
    apply (valuesAt_Some dns _ (h :: hs)); [exact Hk | left].
  - intros evalJS key s v Hw Hs Hb Hk. rewrite analyseJS_sweep.
    apply (run_detects keyedMatches app _ _ d key s v Hw Hs);
      [|exact (empty_body_keyed s v Hb)].
    rewrite Hk. left.
  - intros html sel tvs ty v attr s el Htyped Hsel Htv Hs Hb Hel.
    exact (analyseDom_detects app html d sel tvs ty v attr s el Htyped Hsel Htv Hs Hel
             (empty_body_keyed s _ Hb)).
  - intros headers Hw H. rewrite analyzeHeaders_sweep. apply run_misses; [exact Hw|].
    intros k s v Hs Hv. apply valuesAt_inv in Hv as (vs & Hk & Hv). exact (H k s vs v Hs Hk Hv).
  - intros cookies Hw H. rewrite analyzeCookies_sweep. apply run_misses; [exact Hw|].
    intros k s v Hs Hv. apply valueAt_inv in Hv. exact (H k s v Hs Hv).
  - intros metas Hw H. rewrite analyzeMeta_sweep. apply run_misses; [exact Hw|].
    intros k s v Hs Hv. apply valuesAt_inv in Hv as (vs & Hk & Hv). exact (H k s vs v Hs Hk Hv).
  - intros dns Hw H. rewrite analyseDNS_sweep. apply run_misses; [exact Hw|].
    intros k s v Hs Hv. apply valuesAt_inv in Hv as (vs & Hk & Hv). exact (H k s vs v Hs Hk Hv).
  - intros evalJS Hw H. rewrite analyseJS_sweep. apply run_misses; [exact Hw|].
    intros k s v Hs Hv. apply valueAt_inv in Hv. exact (H k s v Hs Hv).
  - intros html H. exact (analyseDom_misses app html d H).
  - intros url H. rewrite analyzeURL_sweep. apply run_misses; [reflexivity|].
    intros k s v Hs Hv. apply list_elem_of_singleton in Hv. subst v.
    cbn in Hs. destruct (String.eqb k "main"); [|apply elem_of_nil in Hs; contradiction].
    apply list_elem_of_singleton in Hs. subst s.
    destruct H as [Hb|Hm]; [exact (empty_body_regex _ url Hb) | exact Hm].
  - intros html Hw H. rewrite analyzeHTML_sweep. apply run_misses; [exact Hw|].
    intros k s v Hs Hv. apply list_elem_of_singleton in Hv. subst v.
    destruct (H k s Hs) as [Hb|Hm]; [exact (empty_body_regex s html Hb) | exact Hm].
  - intros scripts Hw H. rewrite analyzeScripts_sweep. apply run_misses; [exact Hw|].
    intros k s v Hs Hv.
    destruct (H k s v Hs Hv) as [Hb|Hm]; [exact (empty_body_regex s v Hb) | exact Hm].
Qed.

End EmptyBodies.

(** The theorem at work: a [Server] header, and a technology whose
    [Server] patterns are a list of two, the second of them only a
    confidence field, beside a pattern under another header name. *)
Lemma empty_body_detection_example :
  patternBody "\;confidence:50" = ""
  /\ exists d',
       analyzeHeaders (RL := LiteralRegexp.lib) (SL := AsciiStrings.lib)
         serverByHeaders {["server" := ["Apache"]]} ∅ = Ok d'
       /\ "Express" ∈ dom d'.
Proof.
  split; [reflexivity|].
  destruct (empty_body_detection (RL := LiteralRegexp.lib) (SL := AsciiStrings.lib)
              (QL := EmptyDocument.lib) serverByHeaders ∅) as (Hh & _).
  apply (Hh {["server" := ["Apache"]]} "Server" "\;confidence:50" "Apache" []).
  - reflexivity.
  - cbn. right. left.
  - reflexivity.
  - reflexivity.
Defined.

(** * Detection by any pattern *)

Section Detection.
Context {RL : RegexpLib} {SL : StringsLib} {QL : QueryLib}.

(** X15. A technology is detected as soon as one of its patterns,
    under any sub-key and among any number of others, matches one
    evidence value: a value of the header or of the meta element
    whose name is the sub-key in lower case, the cookie of that name,
    a record of the dns type that is the sub-key in upper case, the
    value of the js property the sub-key names, the text or attribute
    of the element a dom selector selects; for url, html and scripts
    the url, the page and any one script.  The lists of the patterns
    have to hold strings only. *)
Theorem matchers_detect (app : application) (d : detected) :
  (forall headers key s vs v,
      listsHoldStrings (Headers app) = true -> s ∈ stringsUnder key (Headers app) ->
      headers !! ToLower key = Some vs -> v ∈ vs ->
      keyedMatches (parsePattern s) v = true ->
      exists d', analyzeHeaders app headers d = Ok d' /\ Name app ∈ dom d')
  /\ (forall cookies key s cookie,
      listsHoldStrings (Cookies app) = true -> s ∈ stringsUnder key (Cookies app) ->
      cookies !! ToLower key = Some cookie ->
      keyedMatches (parsePattern s) cookie = true ->
      exists d', analyzeCookies app cookies d = Ok d' /\ Name app ∈ dom d')
  /\ (forall metas key s vs v,
      listsHoldStrings (Meta app) = true -> s ∈ stringsUnder key (Meta app) ->
      metas !! ToLower key = Some vs -> v ∈ vs ->
      keyedMatches (parsePattern s) v = true ->
      exists d', analyzeMeta app metas d = Ok d' /\ Name app ∈ dom d')
  /\ (forall dns key s vs v,
      listsHoldStrings (DNS app) = true -> s ∈ stringsUnder key (DNS app) ->
      dns !! ToUpper key = Some vs -> v ∈ vs ->
      keyedMatches (parsePattern s) v = true ->
      exists d', analyseDNS app dns d = Ok d' /\ Name app ∈ dom d')
  /\ (forall evalJS key s v,
      listsHoldStrings (Js app) = true -> s ∈ stringsUnder key (Js app) ->
      evalJS key = Some v ->
      keyedMatches (parsePattern s) v = true ->
      exists d', analyseJS app evalJS d = Ok d' /\ Name app ∈ dom d')
  /\ (forall html sel tvs ty v attr s el,
      typedDom app ->
      (sel, tvs) ∈ default [] (Dom app) -> (ty, v) ∈ tvs -> s ∈ stringsUnder attr v ->
      FindFirst html sel = Some el ->
      keyedMatches (parsePattern s) (domValue el ty attr) = true ->
      exists d', analyseDom app html d = Ok d' /\ Name app ∈ dom d')
  /\ (forall url,
      regexMatches (parsePattern (URL app)) url = true ->
      exists d', analyzeURL app url d = Ok d' /\ Name app ∈ dom d')
  /\ (forall html key s,
      listsHoldStrings (HTML app) = true -> s ∈ stringsUnder key (HTML app) ->
      regexMatches (parsePattern s) html = true ->
      exists d', analyzeHTML app html d = Ok d' /\ Name app ∈ dom d')
  /\ (forall scripts key s script,
      listsHoldStrings (Scripts app) = true -> s ∈ stringsUnder key (Scripts app) ->
      script ∈ scripts ->
      regexMatches (parsePattern s) script = true ->
      exists d', analyzeScripts app scripts d = Ok d' /\ Name app ∈ dom d').
Proof.
  repeat apply conj.
  - intros headers key s vs v Hw Hs Hk Hv Hm. rewrite analyzeHeaders_sweep.
    exact (run_detects keyedMatches app _ _ d key s v Hw Hs
             (valuesAt_Some headers _ vs v Hk Hv) Hm).
  - intros cookies key s cookie Hw Hs Hk Hm. rewrite analyzeCookies_sweep.
    apply (run_detects keyedMatches app _ _ d key s cookie Hw Hs); [|exact Hm].
    rewrite Hk. left.
  - intros metas key s vs v Hw Hs Hk Hv Hm. rewrite analyzeMeta_sweep.
    exact (run_detects keyedMatches app _ _ d key s v Hw Hs
             (valuesAt_Some metas _ vs v Hk Hv) Hm).
  - intros dns key s vs v Hw Hs Hk Hv Hm. rewrite analyseDNS_sweep.
    exact (run_detects keyedMatches app _ _ d key s v Hw Hs
             (valuesAt_Some dns _ vs v Hk Hv) Hm).
  - intros evalJS key s v Hw Hs Hk Hm. rewrite analyseJS_sweep.
    apply (run_detects keyedMatches app _ _ d key s v Hw Hs); [|exact Hm].
    rewrite Hk. left.
  - intros html sel tvs ty v attr s el.
    exact (analyseDom_detects app html d sel tvs ty v attr s el).
  - intros url Hm. rewrite analyzeURL_sweep.
    apply (run_detects regexMatches app _ _ d "main" (URL app) url);
      [reflexivity | left | left | exact Hm].
  - intros html key s Hw Hs Hm. rewrite analyzeHTML_sweep.
    apply (run_detects regexMatches app _ _ d key s html Hw Hs); [left | exact Hm].
  - intros scripts key s script Hw Hs Hin Hm. rewrite analyzeScripts_sweep.
    exact (run_detects regexMatches app _ _ d key s script Hw Hs Hin Hm).
Qed.

End Detection.

(** The second of two header names, spelled in another letter case
    than the response spells it, and a pattern that matches its
    value. *)
Lemma matchers_detect_example :
  exists d',
    analyzeHeaders (RL := LiteralRegexp.lib) (SL := AsciiStrings.lib)
      serverByHeaders {["x-powered-by" := ["PHP8"]]} ∅ = Ok d'
    /\ "Express" ∈ dom d'.
Proof.
  destruct (matchers_detect (RL := LiteralRegexp.lib) (SL := AsciiStrings.lib)
              (QL := EmptyDocument.lib) serverByHeaders ∅) as (Hh & _).
  apply (Hh {["x-powered-by" := ["PHP8"]]} "X-Powered-By" "php" ["PHP8"] "PHP8").
  - reflexivity.
  - cbn. left.
  - reflexivity.
  - left.
  - reflexivity.
Defined.

(** * The rod scraper *)

Section Rod.
Context {SL : StringsLib}.

(** X16. The rod scraper files every response header under its
    lower-cased name, the values of one name in the order they come:
    what the headers of the scraped data hold under a key is the list
    of the values of the response headers whose name is the key once
    lower-cased, and no entry when there is none. *)
Theorem rodHeaders_lookup (response : list (string * string)) (k : string) :
  rodHeaders response !! k = filed (headerValues k response).
Proof.
  unfold rodHeaders.
  assert (H : forall m : gmap string (list string),
             fold_left (fun headers hv =>
                          let lowerCaseKey := ToLower (fst hv) in
                          <[lowerCaseKey := default [] (headers !! lowerCaseKey) ++ [snd hv]]>
                            headers) response m !! k
             = match headerValues k response with
               | [] => m !! k
               | vs => Some (default [] (m !! k) ++ vs)
               end).
  { induction response as [|hv response IH]; intros m; [reflexivity|].
    cbn [fold_left headerValues flat_map]. cbv zeta. rewrite IH.
    fold (headerValues k response).
    destruct (String.eqb_spec (ToLower (fst hv)) k) as [->|Hne].
    - rewrite lookup_insert_eq. cbn [default app]. unfold id.
      destruct (headerValues k response); [|rewrite <- app_assoc]; reflexivity.
    - rewrite lookup_insert_ne by exact Hne. reflexivity. }
  rewrite H, lookup_empty. destruct (headerValues k response); reflexivity.
Qed.

(** X17. The rod scraper files the content of a meta element under
    the lower-cased [name] of the element, or under its lower-cased
    [property] when it has no [name]; an element without either, or
    without content, files nothing.  What the meta map holds under a
    key is the list of those contents, in the order of the page. *)
Theorem rodMeta_lookup (metas : list metaElement) (k : string) :
  rodMeta metas !! k = filed (metaValues k metas).
Proof.
  unfold rodMeta.
  assert (H : forall m : gmap string (list string),
             fold_left (fun found meta =>
                          let name := match metaName meta with
                                      | Some n => Some n
                                      | None => metaProperty meta
                                      end in
                          match name, metaContent meta with
                          | Some n, Some content =>
                              let nameLower := ToLower n in
                              <[nameLower := default [] (found !! nameLower) ++ [content]]>
                                found
                          | _, _ => found
                          end) metas m !! k
             = match metaValues k metas with
               | [] => m !! k
               | vs => Some (default [] (m !! k) ++ vs)
               end).
  { induction metas as [|meta metas IH]; intros m; [reflexivity|].
    cbn [fold_left metaValues flat_map]. cbv zeta. rewrite IH.
    fold (metaValues k metas). unfold metaKey.
    destruct (match metaName meta with Some n => Some n | None => metaProperty meta end)
      as [n|]; [|reflexivity].
    destruct (metaContent meta) as [content|]; [|reflexivity].
    destruct (String.eqb_spec (ToLower n) k) as [->|Hne].
    - rewrite lookup_insert_eq. cbn [default app]. unfold id.
      destruct (metaValues k metas); [|rewrite <- app_assoc]; reflexivity.
    - rewrite lookup_insert_ne by exact Hne. reflexivity. }
  rewrite H, lookup_empty. destruct (metaValues k metas); reflexivity.
Qed.

End Rod.

(** X18. The rod scraper keeps the cookies of the page under their
    names as they are spelled, the last cookie of a name winning:
    what the cookie map holds under a name is the value of the last
    cookie of exactly that name, and no entry without one. *)
Theorem rodCookies_last (cookies : list (string * string)) (name : string) :
  rodCookies cookies !! name = lastCookie name cookies.
Proof.
  unfold rodCookies.
  assert (H : forall jar : gmap string string,
             fold_left (fun jar c => <[fst c := snd c]> jar) cookies jar !! name
             = match lastCookie name cookies with
               | Some v => Some v
               | None => jar !! name
               end).
  { induction cookies as [|c cookies IH]; intros jar; [reflexivity|].
    cbn [fold_left lastCookie]. rewrite IH.
    destruct (lastCookie name cookies); [reflexivity|].
    destruct (String.eqb_spec (fst c) name) as [->|Hne];
      [apply lookup_insert_eq | apply lookup_insert_ne, Hne]. }
  rewrite H, lookup_empty. destruct (lastCookie name cookies); reflexivity.
Qed.

(** * The fields of a pattern string *)

Section Fields.
Context {RL : RegexpLib}.

Lemma dropPrefix_app (p r : string) : dropPrefix p (p ++ r) = Some r.
Proof.
  induction p as [|c p IH]; [reflexivity|].
  change (String c p ++ r)%string with (String c (p ++ r)%string).
  cbn [dropPrefix]. rewrite Ascii.eqb_refl. exact IH.
Qed.

Lemma dropPrefix_Some (p s r : string) : dropPrefix p s = Some r -> s = (p ++ r)%string.
Proof.
  revert s. induction p as [|c p IH]; intros s H; [cbn in H; injection H as <-; reflexivity|].
  destruct s as [|a s]; [discriminate|]. cbn [dropPrefix] in H.
  destruct (Ascii.eqb_spec a c) as [->|]; [|discriminate].
  change (String c p ++ r)%string with (String c (p ++ r)%string).
  f_equal. exact (IH s H).
Qed.

Lemma untilColon_split (item : string) :
  Contains item ":" = true ->
  exists rest, item = (untilColon item ++ ":" ++ rest)%string.
Proof.
  induction item as [|c item IH]; [discriminate|]. intros Hc.
  cbn [untilColon]. destruct (Ascii.eqb_spec c ":") as [->|Hne].
  - exists item. reflexivity.
  - cbn [Contains HasPrefix] in Hc.
    apply Ascii.eqb_neq in Hne. rewrite Hne in Hc. cbn in Hc.
    destruct (IH Hc) as (rest & Hr). exists rest.
    change (String c (untilColon item) ++ ":" ++ rest)%string
      with (String c (untilColon item ++ ":" ++ rest)%string).
    f_equal. exact Hr.
Qed.

(** One later field: a version, a confidence, or nothing. *)
Lemma parseItem_field (i : nat) (item : string) (p : pattern) :
  parseItem (S i) item p =
    match fieldValue "version" item with
    | Some v => {| str := str p; regex := regex p; version := v; confidence := confidence p |}
    | None =>
        match fieldValue "confidence" item with
        | Some c => {| str := str p; regex := regex p; version := version p;
                       confidence := fst (Atoi c) |}
        | None => p
        end
    end.
Proof.
  unfold fieldValue.
  destruct (dropPrefix ("version" ++ ":") item) as [rest|] eqn:Hv.
  { apply dropPrefix_Some in Hv. subst item. apply (parseItem_version_field i rest p). }
  destruct (dropPrefix ("confidence" ++ ":") item) as [rest|] eqn:Hc.
  { apply dropPrefix_Some in Hc. subst item. apply (parseItem_confidence_field i rest p). }
  apply parseItem_ignored.
  destruct (Contains item ":") eqn:Hcolon; [right|left; reflexivity].
  destruct (untilColon_split item Hcolon) as (rest & Hr). split; intros Hu.
  - rewrite Hu in Hr. rewrite Hr in Hv.
    change ("version" ++ ":" ++ rest)%string with (("version" ++ ":") ++ rest)%string in Hv.
    rewrite dropPrefix_app in Hv. discriminate.
  - rewrite Hu in Hr. rewrite Hr in Hc.
    change ("confidence" ++ ":" ++ rest)%string
      with (("confidence" ++ ":") ++ rest)%string in Hc.
    rewrite dropPrefix_app in Hc. discriminate.
Qed.

Lemma parseItems_fields (fields : list string) :
  forall (i : nat) (p : pattern),
    parseItems (S i) fields p =
      {| str := str p; regex := regex p;
         version := default (version p) (lastValue "version" fields);
         confidence := match lastValue "confidence" fields with
                       | Some c => fst (Atoi c)
                       | None => confidence p
                       end |}.
Proof.
  induction fields as [|f fields IH]; intros i p; [destruct p; reflexivity|].
  cbn [parseItems lastValue]. rewrite IH, parseItem_field.
  destruct (fieldValue "version" f) as [v|] eqn:Hv; cbn [str regex version confidence].
  - assert (Hc : fieldValue "confidence" f = None).
    { unfold fieldValue in Hv |- *.
      destruct (dropPrefix ("version" ++ ":") f) as [rest|] eqn:Hd; [|discriminate].
      apply dropPrefix_Some in Hd. subst f. reflexivity. }
    rewrite Hc.
    destruct (lastValue "version" fields); destruct (lastValue "confidence" fields);
      reflexivity.
  - destruct (fieldValue "confidence" f) as [c|]; cbn [str regex version confidence];
      destruct (lastValue "version" fields); destruct (lastValue "confidence" fields);
      reflexivity.
Qed.

Lemma Split_join (fields : list string) :
  fields <> [] ->
  Forall (fun f => Contains f "\;" = false) fields ->
  Split (joinFields fields) "\;" = fields.
Proof.
  induction fields as [|f fields IH]; intros Hne Hall; [contradiction|].
  apply Forall_cons in Hall as [Hf Hall]. destruct fields as [|g fields].
  - cbn [joinFields]. apply Split_last, Hf.
  - change (joinFields (f :: g :: fields))
      with (f ++ "\;" ++ joinFields (g :: fields))%string.
    rewrite (Split_field f _ Hf), IH; [reflexivity | discriminate | exact Hall].
Qed.

(** The digits of a text write a number that only grows. *)
Lemma decimalFrom_ge (s : string) :
  forall n, 0 <= n -> n <= decimalFrom n (digitPrefix s).
Proof.
  induction s as [|c s IH]; intros n Hn; cbn [digitPrefix]; [cbn; lia|].
  destruct (isDigit c) eqn:Hd; [|cbn; lia]. cbn [decimalFrom].
  assert (Hc : 0 <= digitVal c).
  { unfold isDigit in Hd. apply andb_true_iff in Hd as [Hd _].
    apply N.leb_le in Hd. unfold digitVal. lia. }
  specialize (IH (10 * n + digitVal c) ltac:(lia)). lia.
Qed.

(** The digit loop of [ParseUint], by the kind of its result. *)
Lemma parseUint_kinds (s : string) :
  forall n, 0 <= n <= maxUint ->
    parseUint n s =
      if decimalFrom n (digitPrefix s) >? maxUint then UintRange
      else if String.eqb (digitPrefix s) s then UintOk (decimalFrom n s)
           else UintSyntax.
Proof.
  assert (Hm : maxUint = 18446744073709551615) by reflexivity.
  assert (Hq : maxUint / 10 + 1 = 1844674407370955162) by reflexivity.
  induction s as [|c s IH]; intros n Hn; cbn [parseUint digitPrefix].
  - cbn [decimalFrom]. destruct (Z.gtb_spec n maxUint); [lia | reflexivity].
  - destruct (isDigit c) eqn:Hd.
    + assert (Hc : 0 <= digitVal c).
      { unfold isDigit in Hd. apply andb_true_iff in Hd as [Hd _].
        apply N.leb_le in Hd. unfold digitVal. lia. }
      cbn [decimalFrom]. rewrite Hq.
      pose proof (decimalFrom_ge s (10 * n + digitVal c) ltac:(lia)) as Hge.
      destruct (Z.geb_spec n 1844674407370955162) as [Hbig|Hsmall].
      { destruct (Z.gtb_spec (decimalFrom (10 * n + digitVal c) (digitPrefix s)) maxUint);
          [reflexivity | lia]. }
      cbv zeta. destruct (Z.gtb_spec (10 * n + digitVal c) maxUint) as [Hover|Hfit].
      { destruct (Z.gtb_spec (decimalFrom (10 * n + digitVal c) (digitPrefix s)) maxUint);
          [reflexivity | lia]. }
      rewrite (IH (10 * n + digitVal c) ltac:(lia)).
      cbn [String.eqb]. rewrite Ascii.eqb_refl. reflexivity.
    + cbn [decimalFrom]. destruct (Z.gtb_spec n maxUint); [lia|]. reflexivity.
Qed.

(** [strconv.Atoi] returns what [atoiValue] says. *)
Lemma Atoi_kinds (s : string) : Atoi s = atoiValue s.
Proof.
  assert (Hm : 0 <= 0 <= maxUint) by (split; [lia | discriminate]).
  assert (Hbody : forall (neg : bool) (body : string),
             body <> "" ->
             match parseUint 0 body with
             | UintSyntax => (0, false)
             | UintRange => (if neg then minInt else maxInt, false)
             | UintOk n =>
                 if neg
                 then (if n >? 2 ^ 63 then (minInt, false) else (- n, true))
                 else (if n >=? 2 ^ 63 then (maxInt, false) else (n, true))
             end
             = (let n := decimalFrom 0 (digitPrefix body) in
                if n >? maxUint then (if neg then minInt else maxInt, false)
                else if String.eqb body "" || negb (String.eqb (digitPrefix body) body)
                     then (0, false)
                     else if neg then (if n >? 2 ^ 63 then (minInt, false) else (- n, true))
                          else (if n >=? 2 ^ 63 then (maxInt, false) else (n, true)))).
  { intros neg body Hne. rewrite (parseUint_kinds body 0 Hm). cbv zeta.
    destruct (decimalFrom 0 (digitPrefix body) >? maxUint); [reflexivity|].
    destruct (String.eqb_spec body ""); [contradiction|]. cbn [orb].
    destruct (String.eqb_spec (digitPrefix body) body) as [He|]; [|reflexivity].
    cbn [negb]. rewrite He. reflexivity. }
  unfold Atoi, atoiValue, signOf. destruct s as [|c rest]; [reflexivity|].
  cbv zeta. destruct (Ascii.eqb c "-") eqn:Hminus; cbn [orb fst snd].
  - destruct rest as [|a rest]; [reflexivity|]. apply (Hbody true). discriminate.
  - destruct (Ascii.eqb c "+") eqn:Hplus; cbn [fst snd].
    + destruct rest as [|a rest]; [reflexivity|]. apply (Hbody false). discriminate.
    + apply (Hbody false). discriminate.
Qed.

(** The first field: the body. *)
Lemma parseItem_first (body : string) :
  parseItem 0 body {| str := ""; regex := None; version := ""; confidence := 100 |}
  = {| str := body;
       regex := if String.eqb body "" then None else Compile (regexSource body);
       version := ""; confidence := 100 |}.
Proof.
  unfold parseItem. destruct (String.eqb_spec body "") as [->|Hne]; [reflexivity|].
  cbn. destruct (Compile (regexSource body)); reflexivity.
Qed.

(** C6 (amended).  For every pattern string the compiler splits the
    fields on the two bytes backslash, semicolon ([Split] gives back
    the fields of any joined list of fields that do not hold the
    separator).  The first field is the body: it is the [str], and
    the [regex] is compiled from it when it is not empty.  Of the
    later fields the last one named [version] gives the version, its
    value up to the next colon, and the version is empty without one;
    the last one named [confidence] gives the confidence, and the
    confidence is 100 without one.  The example pattern compiles to
    [abc], [\1] and 50; the values [high], twenty nines followed by
    a letter, and the number below the signed range compile to 0, to
    the upper bound and to the lower bound.  The confidence of a
    field is what [strconv.Atoi] returns for its value, also beside
    an error, and never the default because of the error: the bound
    of the signed
    64-bit range on the side of the sign when the digits up to the
    first byte that is not a digit overflow 64 bits unsigned, or when
    the value is a number outside the signed range; 0 when the value
    has no digit or holds a byte that is not a digit before any
    overflow. *)
Theorem parsePattern_compiled_fields (s : string) :
  let fields := Split s "\;" in
  let p := parsePattern s in
  str p = nth 0 fields ""
  /\ regex p = (if String.eqb (nth 0 fields "") "" then None
                else Compile (regexSource (nth 0 fields "")))
  /\ version p = default "" (lastValue "version" (tl fields))
  /\ confidence p = match lastValue "confidence" (tl fields) with
                    | Some c => fst (atoiValue c)
                    | None => 100
                    end
  /\ (forall joined : list string,
        joined <> [] -> Forall (fun f => Contains f "\;" = false) joined ->
        Split (joinFields joined) "\;" = joined)
  /\ parsePattern "abc\;version:\1\;confidence:50"
     = {| str := "abc"; regex := Compile "(?i)abc"; version := "\1"; confidence := 50 |}
  /\ confidence (parsePattern "abc\;confidence:high") = 0
  /\ confidence (parsePattern "abc\;confidence:99999999999999999999x") = maxInt
  /\ confidence (parsePattern "abc\;confidence:-9223372036854775809") = minInt.
Proof.
  cbv zeta. split; [|split; [|split; [|split; [|split; [|split; [|split; [|split]]]]]]].
  7-9: vm_compute; reflexivity.
  6: { unfold parsePattern.
       replace (Split "abc\;version:\1\;confidence:50" "\;")
         with ["abc"; "version:\1"; "confidence:50"] by (vm_compute; reflexivity).
       change (parseItems 0 ["abc"; "version:\1"; "confidence:50"]
                 {| str := ""; regex := None; version := ""; confidence := 100 |})
         with (parseItems 1 ["version:\1"; "confidence:50"]
                 (parseItem 0 "abc"
                    {| str := ""; regex := None; version := ""; confidence := 100 |})).
       rewrite parseItems_fields, parseItem_first.
       cbn [str regex version confidence].
       replace (lastValue "version" ["version:\1"; "confidence:50"]) with (Some "\1")
         by (vm_compute; reflexivity).
       replace (lastValue "confidence" ["version:\1"; "confidence:50"]) with (Some "50")
         by (vm_compute; reflexivity).
       reflexivity. }
  5: { intros joined Hne Hall. exact (Split_join joined Hne Hall). }
  all: unfold parsePattern;
    destruct (split_go_cons "\;" 0 s) as (body & rest & Hs); unfold Split in *; rewrite Hs;
    cbn [parseItems nth tl]; rewrite parseItems_fields, parseItem_first;
    cbn [str regex version confidence]; try reflexivity.
  destruct (lastValue "confidence" rest) as [c|]; [|reflexivity].
  rewrite Atoi_kinds. reflexivity.
Qed.

End Fields.

(** * Version templates and the dollar sign *)

Section Dollar.

Lemma versionSlice_literal {RL : RegexpLib} (slice : list string) :
  forall (i : nat) (v : string),
    (forall g, g ∈ slice -> Contains g "$" = false) ->
    versionSlice i slice v = literalGroups i slice v.
Proof.
  induction slice as [|g slice IH]; intros i v Hfree; [reflexivity|].
  cbn [versionSlice literalGroups]. rewrite versionStep_backref.
  unfold replaceAllBackref, expandTemplate. cbv zeta. rewrite (Hfree g) by left.
  apply IH. intros g' Hg'. apply Hfree. right. exact Hg'.
Qed.

Lemma versionSlices_literal {RL : RegexpLib} (slices : list (list string)) :
  forall v : string,
    (forall groups g, groups ∈ slices -> g ∈ groups -> Contains g "$" = false) ->
    fold_left (fun version slice => versionSlice 0 slice version) slices v
    = literalVersion v slices.
Proof.
  unfold literalVersion. induction slices as [|slice slices IH]; intros v Hfree;
    [reflexivity|].
  cbn [fold_left]. rewrite (versionSlice_literal slice 0 v) by (intros g; apply Hfree; left).
  apply IH. intros groups g Hgroups. apply Hfree. right. exact Hgroups.
Qed.

(** C3.  The text of a group is not inserted as it is when it holds a
    dollar sign.  For every compiled pattern and every matched value
    whose groups hold no dollar sign, [detectVersion] replaces every
    occurrence of [\i] in the template with the text of group [i],
    group after group and match after match; a compiled template holds
    no colon, hence no ternary token to resolve.  But the replacement
    goes through [ReplaceAllString], which expands the dollar signs of
    its replacement: on the catalog pattern [a\$b\;version:\0] and
    the header value [a$b], which the expression matches whole, the
    version of the detection is [a], where the text of group 0 is
    [a$b]. *)
Theorem detectVersion_expands_dollar :
  (forall (RL : RegexpLib) (s value : string) (re : Regexp) (slices : list (list string)),
      regex (parsePattern s) = Some re ->
      FindAllStringSubmatch re value = slices ->
      slices <> [] ->
      (forall groups g, groups ∈ slices -> g ∈ groups -> Contains g "$" = false) ->
      Contains (version (parsePattern s)) ":" = false
      /\ detectVersion (parsePattern s) value
         = literalVersion (version (parsePattern s)) slices)
  /\ regex (parsePattern (RL := DollarRegexp.lib) "a\$b\;version:\0") = Some "a$b"
  /\ version (parsePattern (RL := DollarRegexp.lib) "a\$b\;version:\0") = "\0"
  /\ @FindAllStringSubmatch DollarRegexp.lib "a$b" "a$b" = [["a$b"]]
  /\ literalVersion "\0" [["a$b"]] = "a$b"
  /\ detectVersion (RL := DollarRegexp.lib)
       (parsePattern (RL := DollarRegexp.lib) "a\$b\;version:\0") "a$b" = "a"
  /\ exists d',
       analyzeHeaders (RL := DollarRegexp.lib) (SL := AsciiStrings.lib) dollarShop
         {["x-shop" := ["a$b"]]} ∅ = Ok d'
       /\ rVersion <$> d' !! "Shop" = Some "a".
Proof.
  split; [|repeat split].
  - intros RL s value re slices Hre Hf Hne Hfree.
    split; [apply parsePattern_version_colon|].
    destruct slices as [|slice slices]; [contradiction|].
    rewrite (detectVersion_matched _ re value slice slices Hre Hf).
    apply versionSlices_literal, Hfree.
  - eexists. split; vm_compute; reflexivity.
Qed.

End Dollar.
